(** * go-ipk: a shallow embedding of the IPK package library

    The development follows the Go package [ipk] file by file:
    - [file.go]     the [file] record, [slash], [unslash];
    - [format.go]   the [Format] flags;
    - [archive.go]  special headers, [compressionLevel], the staged archive
                    writer, [addArchiveEntry];
    - [ipk.go]      the package model [T] and its add/get operations;
    - [control.go]  the control sub-archive (read and write);
    - [data.go]     the data sub-archive (read and write);
    - [read.go], [write.go]  the outer container;
    - [depends.go]  the dependency expressions.

    The first part is the embedding, the second the vocabulary in which
    the properties are stated and the inputs of the examples, the third
    the lemmas and theorems.

    The Go standard library is modelled by its contract where the package
    calls into it: [path] (Clean, Split, Join, Base, IsAbs), [strings],
    [sort], [bufio.Scanner] with the line splitter, [archive/tar] and
    [compress/gzip].  A tar stream is the sequence of its entries, a gzip
    stream is a framing around its payload that remembers the compression
    level; both are free constructors of the type [Data], so decoding is
    the inverse of encoding and nothing else decodes.

    Two things of the libraries are outside the model.  I/O failures,
    and the headers that the tar encoder refuses (a name or a number
    that the requested format cannot hold): a write of the model does
    not fail for them, so what is said about the result of a write is
    said of a write that succeeds.  And the changes that a real archive
    makes to a header on its way to the reader: the modification time
    comes back in the precision of the format, the format field as the
    one that the reader found; the model returns the header as it was
    written, and the properties of a package that was written and read
    compare the headers up to these two fields ([sameHeader]). *)

From Stdlib Require Import ZArith Ascii String List Lia Permutation.
From stdpp Require Import base option gmap strings list sorting pretty.

Open Scope string_scope.
Open Scope list_scope.
Open Scope Z_scope.

(** ** Strings *)

Module strings.

(** [strings.HasPrefix(s, prefix)] *)
Fixpoint HasPrefix (s prefix : string) {struct prefix} : bool :=
  match prefix, s with
  | EmptyString, _ => true
  | String a prefix', String b s' => Ascii.eqb b a && HasPrefix s' prefix'
  | String _ _, EmptyString => false
  end.

(** [s[n:]] for [n <= len(s)] *)
Fixpoint drop (n : nat) (s : string) : string :=
  match n, s with
  | O, _ => s
  | S n', String _ rest => drop n' rest
  | S _, EmptyString => EmptyString
  end.

(** [strings.ContainsRune(s, c)] for a one-byte rune *)
Fixpoint ContainsRune (s : string) (c : ascii) : bool :=
  match s with
  | EmptyString => false
  | String a rest => if Ascii.eqb a c then true else ContainsRune rest c
  end.

(** White space as [unicode.IsSpace] has it, on the UTF-8 bytes of a
    string.  Below U+0080 a rune is one byte: tab, line feed, vertical
    tab, form feed, carriage return, space. *)
Definition isSpace (c : ascii) : bool :=
  let n := nat_of_ascii c in
  ((9 <=? n) && (n <=? 13))%nat || (n =? 32)%nat.

(** U+0085 and U+00A0 are the two bytes C2 85 and C2 A0. *)
Definition isSpace2 (c1 c2 : ascii) : bool :=
  let a := nat_of_ascii c1 in
  let b := nat_of_ascii c2 in
  ((a =? 194) && ((b =? 133) || (b =? 160)))%nat.

(** U+1680 is E1 9A 80; U+2000 to U+200A, U+2028, U+2029 and U+202F are
    E2 80 followed by 80 to 8A, A8, A9 and AF; U+205F is E2 81 9F;
    U+3000 is E3 80 80. *)
Definition isSpace3 (c1 c2 c3 : ascii) : bool :=
  let a := nat_of_ascii c1 in
  let b := nat_of_ascii c2 in
  let c := nat_of_ascii c3 in
  (((a =? 225) && (b =? 154) && (c =? 128))
   || ((a =? 226) && (b =? 128)
       && (((128 <=? c) && (c <=? 138)) || (c =? 168) || (c =? 169)
           || (c =? 175)))
   || ((a =? 226) && (b =? 129) && (c =? 159))
   || ((a =? 227) && (b =? 128) && (c =? 128)))%nat.

(** The loop of [strings.TrimLeftFunc(s, unicode.IsSpace)]: runes are
    decoded at the start of the bytes and dropped while they are white
    space.  A rune is white space exactly when its bytes are those of a
    white-space rune: a sequence that is no encoding decodes to
    [utf8.RuneError], which is none.  [sp2] and [sp3] recognise the
    encodings of two and three bytes, in the order the bytes are met. *)
Fixpoint trimRunes (sp2 : ascii -> ascii -> bool)
    (sp3 : ascii -> ascii -> ascii -> bool) (l : list ascii)
  : list ascii :=
  match l with
  | a :: l1 =>
      if isSpace a then trimRunes sp2 sp3 l1
      else
        match l1 with
        | b :: l2 =>
            if sp2 a b then trimRunes sp2 sp3 l2
            else
              match l2 with
              | c :: l3 => if sp3 a b c then trimRunes sp2 sp3 l3 else l
              | [] => l
              end
        | [] => l
        end
  | [] => []
  end.

Definition TrimLeft (s : string) : string :=
  string_of_list_ascii
    (trimRunes isSpace2 isSpace3 (list_ascii_of_string s)).

(** The loop of [strings.TrimRightFunc(s, unicode.IsSpace)]: runes are
    decoded at the end of the bytes.  [utf8.DecodeLastRuneInString] goes
    back to the last byte that starts a rune and decodes from there, so
    the last rune is white space exactly when the bytes end with the
    encoding of a white-space rune: the same loop on the bytes in reverse
    order. *)
Definition TrimRight (s : string) : string :=
  string_of_list_ascii
    (rev (trimRunes (fun a b => isSpace2 b a) (fun a b c => isSpace3 c b a)
                    (rev (list_ascii_of_string s)))).

(** [strings.TrimSpace]: leading and trailing white space, as defined by
    Unicode, removed. *)
Definition TrimSpace (s : string) : string := TrimRight (TrimLeft s).

(** [strings.IndexByte(s, c)]: [None] stands for -1. *)
Fixpoint IndexByte (s : string) (c : ascii) : option nat :=
  match s with
  | EmptyString => None
  | String a rest =>
      if Ascii.eqb a c then Some O else S <$> IndexByte rest c
  end.

(** [s[:n]] *)
Fixpoint take (n : nat) (s : string) : string :=
  match n, s with
  | S n', String c rest => String c (take n' rest)
  | _, _ => EmptyString
  end.

End strings.

(** ** file.go: path canonicalisation *)

(** [slash] prepends path with ./ *)
Definition slash (path : string) : string :=
  if strings.HasPrefix path "./" then path
  else if strings.HasPrefix path "/" then "." +:+ path
  else "./" +:+ path.

(** [unslash] returns path with initial ./ or / removed.  The source recurses
    on [path[2:]] and [path[1:]]; here the two prefixes are read off the
    first characters, and [unslash_eq] below gives the source's equation. *)
Fixpoint unslash (path : string) : string :=
  match path with
  | String c rest =>
      if Ascii.eqb c "/" then unslash rest
      else if Ascii.eqb c "." then
        match rest with
        | String c' rest' =>
            if Ascii.eqb c' "/" then unslash rest' else path
        | EmptyString => path
        end
      else path
  | EmptyString => path
  end.

(** A run of leading [./] and [/] prefixes. *)
Inductive lead_run : string -> Prop :=
  | lead_run_nil : lead_run ""
  | lead_run_dot r : lead_run r -> lead_run ("./" +:+ r)
  | lead_run_slash r : lead_run r -> lead_run ("/" +:+ r).

(** ** The Go [path] package *)

Module path.

(** The slash-separated elements of a path, empty ones included. *)
Fixpoint elements (p : string) : list string :=
  match p with
  | EmptyString => [""]
  | String c rest =>
      if Ascii.eqb c "/" then "" :: elements rest
      else match elements rest with
           | e :: es => String c e :: es
           | [] => [String c ""]
           end
  end.

(** One round of the loop of [Clean] on the path element [e].  [out] is
    the output buffer as the stack of the elements written so far, the
    last one first.  Backtracking over the previous element is possible
    when the buffer holds an element that is not a leading [..]
    ([out.w > dotdot] in the Go code). *)
Definition step (rooted : bool) (out : list string) (e : string)
  : list string :=
  if String.eqb e "" then out                 (* empty path element *)
  else if String.eqb e "." then out           (* . element *)
  else if String.eqb e ".." then              (* .. element *)
    match out with
    | top :: out' =>
        if negb (String.eqb top "..") then out'     (* can backtrack *)
        else if negb rooted then ".." :: out        (* cannot backtrack *)
        else out
    | [] => if negb rooted then [".."] else []
    end
  else e :: out.                              (* real path element *)

Definition cleanStack (rooted : bool) (p : string) : list string :=
  rev (fold_left (step rooted) (elements p) []).

(** [path.Clean] *)
Definition Clean (p : string) : string :=
  if String.eqb p "" then "."
  else
    let rooted := strings.HasPrefix p "/" in
    let out := cleanStack rooted p in
    if rooted then "/" +:+ String.concat "/" out
    else match out with
         | [] => "."
         | _ => String.concat "/" out
         end.

(** [strings.LastIndex(s, c)] for a one-byte separator; [None] is -1. *)
Fixpoint LastIndexByte (s : string) (c : ascii) : option nat :=
  match s with
  | EmptyString => None
  | String a rest =>
      match LastIndexByte rest c with
      | Some i => Some (S i)
      | None => if Ascii.eqb a c then Some O else None
      end
  end.

(** [path.Split]: [i := LastIndex(path, "/"); path[:i+1], path[i+1:]] *)
Definition Split (p : string) : string * string :=
  match LastIndexByte p "/" with
  | Some i => (strings.take (S i) p, strings.drop (S i) p)
  | None => ("", p)
  end.

(** [path.Join] of two elements: empty elements are ignored, the rest is
    joined with a slash and cleaned. *)
Definition Join (a b : string) : string :=
  if String.eqb a "" && String.eqb b "" then ""
  else if String.eqb a "" then Clean b
  else Clean (a +:+ "/" +:+ b).

Fixpoint stripTrailingSlashes (p : string) : string :=
  match p with
  | EmptyString => EmptyString
  | String c rest =>
      match stripTrailingSlashes rest with
      | EmptyString => if Ascii.eqb c "/" then EmptyString
                       else String c EmptyString
      | rest' => String c rest'
      end
  end.

(** [path.Base] *)
Definition Base (p : string) : string :=
  if String.eqb p "" then "."
  else
    let p1 := stripTrailingSlashes p in
    let p2 := match LastIndexByte p1 "/" with
              | Some i => strings.drop (S i) p1
              | None => p1
              end in
    if String.eqb p2 "" then "/" else p2.

(** [path.IsAbs] *)
Definition IsAbs (p : string) : bool := strings.HasPrefix p "/".

End path.

(** ** [sort], [bufio] and the two regular expressions *)

Module sort.

(** [sort.Strings]: ascending byte-wise order. *)
Definition Strings (l : list string) : list string := merge_sort String.le l.

(** [sort.SearchStrings(a, x)] on a sorted [a]: the smallest index whose
    element is not below [x]. *)
Fixpoint SearchStrings (a : list string) (x : string) : nat :=
  match a with
  | [] => O
  | y :: a' =>
      if String.ltb y x then S (SearchStrings a' x) else O
  end.

End sort.

Module bufio.

Definition LF : ascii := "010"%char.
Definition CR : ascii := "013"%char.

(** The pieces of [s] between line feeds, the last one included. *)
Fixpoint pieces (s : string) : list string :=
  match s with
  | EmptyString => [""]
  | String c rest =>
      if Ascii.eqb c LF then "" :: pieces rest
      else match pieces rest with
           | e :: es => String c e :: es
           | [] => [String c ""]
           end
  end.

(** [dropCR] of [bufio.ScanLines]: one trailing carriage return goes. *)
Fixpoint dropCR (s : string) : string :=
  match s with
  | EmptyString => EmptyString
  | String c EmptyString => if Ascii.eqb c CR then EmptyString else s
  | String c rest => String c (dropCR rest)
  end.

Fixpoint dropLastIfEmpty (l : list string) : list string :=
  match l with
  | [] => []
  | [x] => if String.eqb x "" then [] else [x]
  | x :: l' => x :: dropLastIfEmpty l'
  end.

(** The tokens of [bufio.ScanLines] on the input [s]: every line
    without its terminator; a final line without terminator counts when
    it is not empty.  These are the tokens a scanner yields when every
    line fits into its buffer ([Scanner.Scan] below has the limit). *)
Definition ScanLines (s : string) : list string :=
  map dropCR (dropLastIfEmpty (pieces s)).

End bufio.

Module regexp.

Definition isLower (c : ascii) : bool :=
  let n := nat_of_ascii c in ((97 <=? n) && (n <=? 122))%nat.

Definition isUpper (c : ascii) : bool :=
  let n := nat_of_ascii c in ((65 <=? n) && (n <=? 90))%nat.

Fixpoint all (f : ascii -> bool) (s : string) : bool :=
  match s with
  | EmptyString => true
  | String c rest => f c && all f rest
  end.

(** A match of [^[class]+$]: not empty, every character in the class. *)
Definition plus (f : ascii -> bool) (s : string) : bool :=
  negb (String.eqb s "") && all f s.

End regexp.

(** ** [archive/tar], [compress/gzip] and byte streams *)

Module tar.

(** The fields of [tar.Header] the package reads or writes. *)
Record Header := mkHeader {
  Typeflag : Z;
  Name : string;
  Linkname : string;
  Size : Z;
  Mode : Z;
  Uname : string;
  Gname : string;
  ModTime : Z;
  Format : Z
}.

(** Type flags: the ASCII codes of '0', NUL, '1', '2', ... '6'. *)
Definition TypeReg : Z := 48.
Definition TypeRegA : Z := 0.
Definition TypeLink : Z := 49.
Definition TypeSymlink : Z := 50.
Definition TypeChar : Z := 51.
Definition TypeBlock : Z := 52.
Definition TypeDir : Z := 53.
Definition TypeFifo : Z := 54.

Definition FormatUnknown : Z := 0.
Definition FormatUSTAR : Z := 2.

(** The zero value [tar.Header{}]. *)
Definition zero : Header :=
  mkHeader 0 "" "" 0 0 "" "" 0 FormatUnknown.

Definition setName (n : string) (h : Header) : Header :=
  mkHeader (Typeflag h) n (Linkname h) (Size h) (Mode h) (Uname h)
           (Gname h) (ModTime h) (Format h).
Definition setSize (n : Z) (h : Header) : Header :=
  mkHeader (Typeflag h) (Name h) (Linkname h) n (Mode h) (Uname h)
           (Gname h) (ModTime h) (Format h).
Definition setMode (m : Z) (h : Header) : Header :=
  mkHeader (Typeflag h) (Name h) (Linkname h) (Size h) m (Uname h)
           (Gname h) (ModTime h) (Format h).
Definition setLinkname (l : string) (h : Header) : Header :=
  mkHeader (Typeflag h) (Name h) l (Size h) (Mode h) (Uname h)
           (Gname h) (ModTime h) (Format h).

(** How a tar stream ends: with the end-of-archive marker, or with
    bytes that are no header ([Next] returns an error other than EOF). *)
Inductive Tail := EOF | Corrupt.

End tar.

(** Byte streams.  [Raw] is plain bytes; [Gz level d] is what a gzip
    writer opened at [level] produces from [d]; [Tar es tl] is what a tar
    writer produces from the entries [es] (header and content of each). *)
#[warnings="-register-all"] Inductive Data :=
  | Raw (bytes : string)
  | Gz (level : Z) (payload : Data)
  | Tar (entries : list (tar.Header * Data)) (tl : tar.Tail).

Module gzip.

Definition NoCompression : Z := 0.
Definition BestCompression : Z := 9.

(** [gzip.NewReader] followed by reading to the end: the payload of a
    gzip stream, [None] when the bytes are no gzip stream. *)
Definition decode (d : Data) : option Data :=
  match d with
  | Gz _ payload => Some payload
  | _ => None
  end.

End gzip.

(** [tar.NewReader] followed by [Next] until it fails: the entries and the
    way the stream ends.  The empty byte stream is the empty archive.
    The headers are those given to the writer (see the note on the
    modification time and the format at the head of the file). *)
Definition tarEntries (d : Data) : list (tar.Header * Data) * tar.Tail :=
  match d with
  | Tar es tl => (es, tl)
  | Raw EmptyString => ([], tar.EOF)
  | _ => ([], tar.Corrupt)
  end.

(** ** Errors *)

(** Go errors: the two sentinels the package compares with [==], the
    errors of the libraries, and the values of [errors.New] and
    [fmt.Errorf], which are their text. *)
Inductive error :=
  | ErrExist                      (* os.ErrExist *)
  | ErrBadScriptName              (* ErrBadScriptName of control.go *)
  | ErrLibrary (msg : string)     (* an error of tar, gzip or a reader *)
  | errorString (msg : string).   (* errors.New, fmt.Errorf *)

Definition Error (e : error) : string :=
  match e with
  | ErrExist => "file already exists"
  | ErrBadScriptName => "Bad script name"
  | ErrLibrary msg => msg
  | errorString msg => msg
  end.

#[global] Instance error_eq_dec : EqDecision error.
Proof. solve_decision. Defined.

Definition is_err {A} (r : A + error) : Prop :=
  match r with inl _ => False | inr _ => True end.

(** An [io.Reader] handed to the package: it delivers [content], or fails
    with an error.  A nil reader is [None : option Reader]. *)
Inductive Reader :=
  | Rd (content : Data)
  | Broken (e : error).

(** ** [bufio.Scanner] *)

Module Scanner.

(** [bufio.MaxScanTokenSize]: the largest size of the buffer of a scanner,
    64 * 1024 bytes. *)
Definition MaxScanTokenSize : Z := 65536.

Definition ErrTooLong : error := ErrLibrary "bufio.Scanner: token too long".

(** The run of a scanner with the default line splitter over the pieces
    of its input, a line feed after each but the last: the tokens that
    [Scan] yields, and what [Err] returns afterwards.  A line is a token
    when it fits into the buffer together with its line feed; the last
    piece, which has none, is a token when it is not empty and fits into
    the buffer (the reader of a tar entry reports the end of the entry
    together with its last bytes).  A line that does not fit stops the
    scanner with [ErrTooLong]. *)
Fixpoint scan (ps : list string) : list string * option error :=
  match ps with
  | [] => ([], None)
  | [p] =>
      if String.eqb p "" then ([], None)
      else if Z.of_nat (String.length p) <=? MaxScanTokenSize
           then ([bufio.dropCR p], None)
           else ([], Some ErrTooLong)
  | p :: rest =>
      if Z.of_nat (String.length p) <? MaxScanTokenSize then
        let '(tokens, err) := scan rest in (bufio.dropCR p :: tokens, err)
      else ([], Some ErrTooLong)
  end.

Definition Scan (s : string) : list string * option error :=
  scan (bufio.pieces s).

End Scanner.

(** ** [os.FileInfo] and [tar.FileInfoHeader] *)

Inductive FileKind :=
  | KRegular | KDir | KSymlink | KCharDevice | KBlockDevice | KNamedPipe
  | KSocket | KIrregular.

Record FileInfo := mkFileInfo {
  fiName : string;                 (* Name() *)
  fiSize : Z;                      (* Size() *)
  fiKind : FileKind;               (* the type bits of Mode() *)
  fiPerm : Z;                      (* the permission, setuid, setgid and
                                      sticky bits of Mode(), laid out as
                                      in a tar header: 07777 *)
  fiModTime : Z;                   (* ModTime() *)
  fiSys : option tar.Header        (* Sys(), when it is a tar header *)
}.

(** The method [FileInfo()] of a tar header.  The permission, setuid,
    setgid and sticky bits are those of the mode of the header (07777 is
    4095); the type bits follow the type flag (the package calls the
    method on the headers of [specialHeader] only, whose mode has no
    type bits of its own); the name is the base name, of the cleaned name
    for a directory. *)
Definition HeaderFileInfo (h : tar.Header) : FileInfo :=
  let kind :=
    if decide (tar.Typeflag h = tar.TypeSymlink) then KSymlink
    else if decide (tar.Typeflag h = tar.TypeChar) then KCharDevice
    else if decide (tar.Typeflag h = tar.TypeBlock) then KBlockDevice
    else if decide (tar.Typeflag h = tar.TypeDir) then KDir
    else if decide (tar.Typeflag h = tar.TypeFifo) then KNamedPipe
    else KRegular in
  let name :=
    match kind with
    | KDir => path.Base (path.Clean (tar.Name h))
    | _ => path.Base (tar.Name h)
    end in
  mkFileInfo name (tar.Size h) kind (Z.land (tar.Mode h) 4095)
             (tar.ModTime h) (Some h).

(** [tar.FileInfoHeader(fi, link)] *)
Definition FileInfoHeader (fi : FileInfo) (link : string)
  : tar.Header + error :=
  let h := tar.mkHeader 0 (fiName fi) "" 0 (Z.land (fiPerm fi) 4095)
                        "" "" (fiModTime fi) tar.FormatUnknown in
  let typed : tar.Header + error :=
    match fiKind fi with
    | KRegular =>
        inl (tar.setSize (fiSize fi)
               (tar.mkHeader tar.TypeReg (tar.Name h) "" 0 (tar.Mode h)
                             "" "" (tar.ModTime h) tar.FormatUnknown))
    | KDir =>
        inl (tar.mkHeader tar.TypeDir (tar.Name h +:+ "/") "" 0 (tar.Mode h)
                          "" "" (tar.ModTime h) tar.FormatUnknown)
    | KSymlink =>
        inl (tar.mkHeader tar.TypeSymlink (tar.Name h) link 0 (tar.Mode h)
                          "" "" (tar.ModTime h) tar.FormatUnknown)
    | KCharDevice =>
        inl (tar.mkHeader tar.TypeChar (tar.Name h) "" 0 (tar.Mode h)
                          "" "" (tar.ModTime h) tar.FormatUnknown)
    | KBlockDevice =>
        inl (tar.mkHeader tar.TypeBlock (tar.Name h) "" 0 (tar.Mode h)
                          "" "" (tar.ModTime h) tar.FormatUnknown)
    | KNamedPipe =>
        inl (tar.mkHeader tar.TypeFifo (tar.Name h) "" 0 (tar.Mode h)
                          "" "" (tar.ModTime h) tar.FormatUnknown)
    | KSocket =>
        inr (ErrLibrary "archive/tar: sockets not supported")
    | KIrregular =>
        inr (ErrLibrary "archive/tar: unknown file mode")
    end in
  match typed, fiSys fi with
  | inl h', Some sys =>
      let h'' := tar.mkHeader (tar.Typeflag h') (tar.Name h')
                   (tar.Linkname h') (tar.Size h') (tar.Mode h')
                   (tar.Uname sys) (tar.Gname sys) (tar.ModTime h')
                   (tar.Format h') in
      if decide (tar.Typeflag sys = tar.TypeLink) then
        inl (tar.mkHeader tar.TypeLink (tar.Name h'') (tar.Linkname sys) 0
               (tar.Mode h'') (tar.Uname h'') (tar.Gname h'')
               (tar.ModTime h'') (tar.Format h''))
      else inl h''
  | r, _ => r
  end.

(** ** format.go *)

Definition FormatUnknown : Z := 0.
Definition formatGZip : Z := 1.
Definition FormatTar : Z := 2.
Definition FormatTarGZip : Z := Z.lor FormatTar formatGZip.

(** ** file.go: the [file] record *)

(** [header] is the file header; [data] is the compressed file data of a
    regular file, or nil for everything else. *)
Record file := mkFile {
  header : tar.Header;
  data : option Data
}.

(** ** ipk.go: the package model *)

Record T := mkT {
  fields : gmap string string;
  conffiles : list string;
  scripts : gmap string file;
  files : gmap string file
}.

Definition New : T := mkT ∅ [] ∅ ∅.

Definition controlArchiveName : string := "control.tar.gz".
Definition controlName : string := "control".
Definition confName : string := "conffiles".
Definition dataArchiveName : string := "data.tar.gz".

Definition ControlPackage : string := "Package".
Definition ControlVersion : string := "Version".
Definition ControlArch : string := "Architecture".
Definition ControlDep : string := "Depends".
Definition ControlMaintainer : string := "Maintainer".
Definition ControlDesc : string := "Description".
Definition ControlHomepage : string := "Homepage".

(** [^[[:alpha:]-]+$] *)
Definition allowedFieldNames (name : string) : bool :=
  regexp.plus (fun c => regexp.isLower c || regexp.isUpper c
                        || Ascii.eqb c "-") name.

(** [^[[:lower:]]+$] *)
Definition allowedScriptNames (name : string) : bool :=
  regexp.plus regexp.isLower name.

Definition nl : string := String bufio.LF "".

Section Package.

(** The bytes the gzip and tar encoders produce for a stream.  They are
    a parameter of the development: only their number is used (sizes in
    headers), and their text when a stream is read as a line-oriented
    file or as a link name. *)
Variable encode : Data -> string.

(** The bytes of a stream, as [io.Copy] or [ioutil.ReadAll] see them. *)
Definition bytesOf (d : Data) : string :=
  match d with
  | Raw s => s
  | _ => encode d
  end.

Definition dataLen (d : Data) : Z := Z.of_nat (String.length (bytesOf d)).

(** *** archive.go *)

Definition archiveOwner : string := "root".

(** [specialHeader]: a directory header if size is negative, a regular
    file header otherwise.  0644 is 420, 0755 is 493. *)
Definition specialHeader (name : string) (size : Z) (modTime : Z)
  : tar.Header :=
  if 0 <=? size then
    tar.mkHeader tar.TypeReg name "" size 420 archiveOwner archiveOwner
                 modTime tar.FormatUSTAR
  else
    tar.mkHeader tar.TypeDir name "" 0 493 archiveOwner archiveOwner
                 modTime tar.FormatUSTAR.

Definition fileHeader (name : string) (size : Z) (modTime : Z)
  : tar.Header := specialHeader name size modTime.

Definition directoryHeader (name : string) (modTime : Z) : tar.Header :=
  specialHeader name (-1) modTime.

(** [compressionLevel] returns the best compression level if compress is
    true, and no compression otherwise. *)
Definition compressionLevel (compress : bool) : Z :=
  if compress then gzip.BestCompression else gzip.NoCompression.

(** A [tar.Writer] is the list of the entries written to it, in order. *)
Abbreviation TarWriter := (list (tar.Header * Data)).

(** [archiveWriter]: the tar writer and the level of the gzip layer
    below it.  The temporary file holds what the two layers wrote. *)
Record archiveWriter := mkArchiveWriter {
  Writer : TarWriter;
  gzipWriter : Z
}.

Definition newTempArchive (compress : bool) : archiveWriter :=
  mkArchiveWriter [] (compressionLevel compress).

(** [Finish]: the archive data for reading along with the archive size. *)
Definition Finish (aw : archiveWriter) : Data * Z :=
  let d := Gz (gzipWriter aw) (Tar (Writer aw) tar.EOF) in
  (d, dataLen d).

(** [addArchiveEntry].  The header is written as is, after its name went
    through [slash]; the caller's header object is the one changed, so
    the changed header is returned next to the writer.  A nil [gzdata]
    writes no data. *)
Definition addArchiveEntry (w : TarWriter) (hdr : tar.Header)
    (gzdata : option Data) : TarWriter * tar.Header * option error :=
  let hdr := tar.setName (slash (tar.Name hdr)) hdr in
  match gzdata with
  | None => (w ++ [(hdr, Raw "")], hdr, None)
  | Some buf =>
      match gzip.decode buf with
      | None =>
          (w ++ [(hdr, Raw "")], hdr,
           Some (errorString ("Unable to create gzip reader for '"
                              +:+ tar.Name hdr +:+ "'")))
      | Some content => (w ++ [(hdr, content)], hdr, None)
      end
  end.

(** *** ipk.go *)

(** [AddField] adds a field to the control file. *)
Definition AddField (t : T) (name content : string) : T * option error :=
  if negb (allowedFieldNames name) then
    (t, Some (errorString "Invalid field name"))
  else
    let content := strings.TrimSpace content in
    if strings.ContainsRune content bufio.LF then
      (t, Some (errorString "Content contains newline character"))
    else
      match fields t !! name with
      | Some _ =>
          (t, Some (errorString ("Field '" +:+ name +:+ "' already exists")))
      | None =>
          (mkT (<[name := content]> (fields t)) (conffiles t) (scripts t)
               (files t), None)
      end.

(** [GetField] obtains the content of the named field. *)
Definition GetField (t : T) (name : string) : option string :=
  fields t !! name.

(** [AddConffile] adds the specified configuration file to conffiles.
    The path must be absolute and different from the root directory. *)
Definition AddConffile (t : T) (pathname : string) : T * option error :=
  let cleaned := path.Clean pathname in
  if negb (path.IsAbs cleaned) then
    (t, Some (errorString ("Not an absolute pathname: " +:+ pathname)))
  else if String.eqb cleaned "/" then
    (t, Some (errorString "Root not allowed"))
  else
    (mkT (fields t) (conffiles t ++ [cleaned]) (scripts t) (files t), None).

(** [Conffiles] returns a copy of the current configuration files.  On
    immutable lists the copy is the list; the module [SliceStore] below
    has the version on backing arrays. *)
Definition Conffiles (t : T) : list string := conffiles t.

(** [AddScript] adds a script with the specified name, to be read from
    the specified reader. *)
Definition AddScript (t : T) (name : string) (r : option Reader)
  : T * option error :=
  match r with
  | None => (t, Some (errorString "Nil reader supplied"))
  | Some r =>
      if String.eqb name controlName || String.eqb name confName
         || negb (allowedScriptNames name) then
        (t, Some ErrBadScriptName)
      else
        match scripts t !! name with
        | Some _ =>
            (t, Some (errorString
                        ("Script '" +:+ name +:+ "' already exists")))
        | None =>
            match r with
            | Broken e =>
                (t, Some (errorString ("Error copying script '" +:+ name
                                       +:+ "': " +:+ Error e)))
            | Rd content =>
                let f := mkFile
                  (tar.setSize (dataLen content)
                     (tar.setName name tar.zero))
                  (Some (Gz gzip.BestCompression content)) in
                (mkT (fields t) (conffiles t) (<[name := f]> (scripts t))
                     (files t), None)
            end
        end
  end.

(** [GetScript] returns the named script's stream and size. *)
Definition GetScript (t : T) (name : string) : (Data * Z) + error :=
  match scripts t !! name with
  | None => inr (errorString ("Script '" +:+ name +:+ "' does not exist"))
  | Some f =>
      match data f ≫= gzip.decode with
      | None =>
          inr (errorString ("Unable to read compressed script '" +:+ name
                            +:+ "'"))
      | Some content => inl (content, tar.Size (header f))
      end
  end.

(** The last step of [AddFile]: the lookup and the insertion under the
    header's name. *)
Definition insertFile (t : T) (f : file) : T * option error :=
  match files t !! tar.Name (header f) with
  | Some _ => (t, Some ErrExist)
  | None =>
      (mkT (fields t) (conffiles t) (scripts t)
           (<[tar.Name (header f) := f]> (files t)), None)
  end.

(** The body of [AddFile] after the directory has been added. *)
Definition addFileEntry (t : T) (dir : string) (info : FileInfo)
    (r : option Reader) : T * option error :=
  let fullpath := path.Join dir (fiName info) in
  match FileInfoHeader info "/" with
  | inr e =>
      (t, Some (errorString
                  ("Unable to create tar header from file info: "
                   +:+ Error e)))
  | inl h =>
      let h := tar.setName fullpath h in
      if decide (tar.Typeflag h = tar.TypeReg
                 ∨ tar.Typeflag h = tar.TypeRegA) then
        match r with
        | None => (t, Some (errorString "Supplied reader is nil"))
        | Some (Broken e) =>
            (t, Some (errorString ("Unable to copy data: " +:+ Error e)))
        | Some (Rd content) =>
            insertFile t (mkFile (tar.setSize (dataLen content) h)
                                 (Some (Gz gzip.BestCompression content)))
        end
      else if decide (tar.Typeflag h = tar.TypeSymlink) then
        match r with
        | None => (t, Some (errorString "Supplied reader is nil"))
        | Some (Broken e) =>
            (t, Some (errorString ("Unable to read linkname: "
                                   +:+ Error e)))
        | Some (Rd content) =>
            insertFile t (mkFile (tar.setLinkname (bytesOf content) h) None)
        end
      else if decide (tar.Typeflag h = tar.TypeDir) then
        (* restore slash stripped by path.Join *)
        insertFile t (mkFile (tar.setName (tar.Name h +:+ "/") h) None)
      else insertFile t (mkFile h None)
  end.

(** [addDir] adds the specified directory: the call of [AddFile] on the
    parent directory is the argument [AddFile']; [now] is [time.Now()]. *)
Definition addDir
    (AddFile' : T -> string -> option FileInfo -> option Reader
                -> T * option error)
    (now : Z) (t : T) (dir : string) : T * option error :=
  let cleaned := path.Clean dir in
  let '(updir, basename) := path.Split cleaned in
  if String.eqb updir "" then
    (t, Some (errorString ("Invalid directory: " +:+ dir)))
  else if String.eqb basename "" then (* cleaned == "/" *)
    (t, Some ErrExist)
  else
    AddFile' t updir (Some (HeaderFileInfo (directoryHeader basename now)))
             None.

(** What the directory step returns when the recursion bound is used up.
    The bound of [AddFile] is never used up: every larger bound gives the
    same result ([AddFile_rec_fuel]). *)
Definition outOfFuel : error := ErrLibrary "recursion bound exceeded".

(** [AddFile] and [addDir] call each other; [fuel] bounds the depth and
    [clock] gives the successive readings of [time.Now()]. *)
Fixpoint AddFile_rec (fuel : nat) (clock : nat -> Z) (t : T)
    (dir : string) (info : option FileInfo) (r : option Reader)
  : T * option error :=
  match info with
  | None => (t, Some (errorString "Supplied file info is nil"))
  | Some info =>
      let '(t, err) :=
        match fuel with
        | O => (t, Some outOfFuel)
        | S fuel' =>
            addDir (AddFile_rec fuel' (fun n => clock (S n))) (clock O)
                   t dir
        end in
      match err with
      | Some e =>
          if decide (e = ErrExist) then addFileEntry t dir info r
          else
            (t, Some (errorString ("Unable to add directory '" +:+ dir
                                   +:+ "': " +:+ Error e)))
      | None => addFileEntry t dir info r
      end
  end.

(** [AddFile] adds a file to the specified directory. *)
Definition AddFile (clock : nat -> Z) (t : T) (dir : string)
    (info : option FileInfo) (r : option Reader) : T * option error :=
  AddFile_rec (S (String.length dir)) clock t dir info r.

(** *** Iteration over Go maps *)

(** A [for k, v := range m] loop visits every key once, in an order the
    runtime chooses anew for each loop.  The order is an argument of the
    functions that range over a map: [range m order] are the pairs the
    loop visits when the runtime walks the keys in [order], and
    [range_order m order] says that [order] is such a walk. *)
Definition range {A} (m : gmap string A) (order : list string)
  : list (string * A) :=
  omap (fun k => (fun v => (k, v)) <$> m !! k) order.

Definition range_order {A} (m : gmap string A) (order : list string)
  : Prop :=
  order ≡ₚ (map_to_list m).*1.

(** The three loops of a write: over the fields, the scripts, the files. *)
Record Orders := mkOrders {
  fieldOrder : list string;
  scriptOrder : list string;
  fileOrder : list string
}.

Definition orders_of (t : T) (o : Orders) : Prop :=
  range_order (fields t) (fieldOrder o)
  ∧ range_order (scripts t) (scriptOrder o)
  ∧ range_order (files t) (fileOrder o).

(** *** control.go: writing *)

Definition mandatoryFields : list string :=
  [ControlPackage; ControlVersion; ControlArch; ControlMaintainer;
   ControlDesc].

(** [fmt.Sprintf("%s: %s\n", field, content)] *)
Definition fieldLine (field content : string) : string :=
  field +:+ ": " +:+ content +:+ nl.

(** The first loop of [addControl]: mandatory fields first. *)
Fixpoint writeMandatory (flds : gmap string string) (names : list string)
    (buf : string) : string + error :=
  match names with
  | [] => inl buf
  | field :: rest =>
      match flds !! field with
      | None =>
          inr (errorString ("Mandatory control field '" +:+ field
                            +:+ "' missing"))
      | Some content =>
          writeMandatory flds rest (buf +:+ fieldLine field content)
      end
  end.

(** [idx < len(mandatoryFields) && mandatoryFields[idx] == field] for
    [idx := sort.SearchStrings(mandatoryFields, field)] *)
Definition isMandatory (sorted : list string) (field : string) : bool :=
  let idx := sort.SearchStrings sorted field in
  (idx <? length sorted)%nat && String.eqb (nth idx sorted "") field.

(** The second loop of [addControl]: the remaining fields. *)
Definition writeRemaining (sorted : list string)
    (kvs : list (string * string)) (buf : string) : string :=
  fold_left
    (fun buf kv =>
       if isMandatory sorted kv.1 then buf
       else buf +:+ fieldLine kv.1 kv.2)
    kvs buf.

(** The bytes of the control file that [addControl] collects in its
    buffer, when the runtime walks the field map in [order]. *)
Definition controlText (t : T) (order : list string) : string + error :=
  match writeMandatory (fields t) mandatoryFields "" with
  | inr e => inr e
  | inl buf =>
      inl (writeRemaining (sort.Strings mandatoryFields)
                          (range (fields t) order) buf)
  end.

(** [addControl] adds a control file to the specified tar archive, with
    the specified modification time. *)
Definition addControl (t : T) (order : list string) (w : TarWriter)
    (modTime : Z) : TarWriter * option error :=
  match controlText t order with
  | inr e => (w, Some e)
  | inl buf =>
      (w ++ [(fileHeader (slash controlName)
                         (Z.of_nat (String.length buf)) modTime,
              Raw buf)], None)
  end.

(** [addConffiles] adds the conffiles file to the control archive,
    provided there are any configuration files.  The list of the package
    is sorted in place. *)
Definition addConffiles (t : T) (w : TarWriter) (modTime : Z)
  : T * TarWriter * option error :=
  match conffiles t with
  | [] => (t, w, None)
  | _ =>
      let sorted := sort.Strings (conffiles t) in
      let t := mkT (fields t) sorted (scripts t) (files t) in
      let buf := fold_left (fun buf f => buf +:+ f +:+ nl) sorted "" in
      (t, w ++ [(fileHeader (slash confName)
                            (Z.of_nat (String.length buf)) modTime,
                 Raw buf)], None)
  end.

(** [addScript]: 0111 is 73. *)
Definition addScript (w : TarWriter) (name : string) (size : Z)
    (modTime : Z) (gzdata : option Data) : TarWriter * option error :=
  let hdr := fileHeader name size modTime in
  let hdr := tar.setMode (Z.lor (tar.Mode hdr) 73) hdr in
  let '(w, _, err) := addArchiveEntry w hdr gzdata in
  (w, err).

(** The loop of [fillControlArchive] over the scripts. *)
Fixpoint addScripts (w : TarWriter) (modTime : Z)
    (kvs : list (string * file)) : TarWriter * option error :=
  match kvs with
  | [] => (w, None)
  | (scriptname, f) :: rest =>
      match addScript w scriptname (tar.Size (header f)) modTime (data f)
      with
      | (w, Some e) =>
          (w, Some (errorString ("Unable to add script '" +:+ scriptname
                                 +:+ "': " +:+ Error e)))
      | (w, None) => addScripts w modTime rest
      end
  end.

(** [fillControlArchive] fills the control archive w. *)
Definition fillControlArchive (t : T) (o : Orders) (w : TarWriter)
    (modTime : Z) : T * TarWriter * option error :=
  (* Add root directory. *)
  let w := w ++ [(directoryHeader "./" modTime, Raw "")] in
  (* Add control and conffiles *)
  match addControl t (fieldOrder o) w modTime with
  | (w, Some e) => (t, w, Some e)
  | (w, None) =>
      match addConffiles t w modTime with
      | (t, w, Some e) => (t, w, Some e)
      | (t, w, None) =>
          (* Add scripts *)
          let '(w, err) :=
            addScripts w modTime (range (scripts t) (scriptOrder o)) in
          (t, w, err)
      end
  end.

(** [createControlArchive] creates the control archive and returns it,
    along with its size. *)
Definition createControlArchive (t : T) (o : Orders) (compress : bool)
    (modTime : Z) : T * (Data * Z) * option error :=
  let aw := newTempArchive compress in
  let '(t, w, err) := fillControlArchive t o (Writer aw) modTime in
  (t, Finish (mkArchiveWriter w (gzipWriter aw)), err).

(** [writeControlArchive] writes the control archive to the specified
    tar archive. *)
Definition writeControlArchive (t : T) (o : Orders) (w : TarWriter)
    (compress : bool) (modTime : Z) : T * TarWriter * option error :=
  match createControlArchive t o compress modTime with
  | (t, _, Some e) => (t, w, Some e)
  | (t, (archive, size), None) =>
      (t, w ++ [(fileHeader (slash controlArchiveName) size modTime,
                 archive)], None)
  end.

(** *** data.go: writing *)

(** The loop of [fillDataArchive] over the sorted paths.  The header of
    an entry is the object the map holds, so its change of name by
    [addArchiveEntry] shows in the package. *)
Fixpoint addEntries (t : T) (w : TarWriter) (paths : list string)
  : T * TarWriter * option error :=
  match paths with
  | [] => (t, w, None)
  | p :: rest =>
      match files t !! p with
      | None => addEntries t w rest
      | Some f =>
          let '(w, hdr, err) := addArchiveEntry w (header f) (data f) in
          let t := mkT (fields t) (conffiles t) (scripts t)
                       (<[p := mkFile hdr (data f)]> (files t)) in
          match err with
          | Some e =>
              (t, w, Some (errorString ("Unable to add entry '" +:+ p
                                        +:+ "': " +:+ Error e)))
          | None => addEntries t w rest
          end
      end
  end.

(** [fillDataArchive] fills the data archive w. *)
Definition fillDataArchive (t : T) (o : Orders) (w : TarWriter)
    (modTime : Z) : T * TarWriter * option error :=
  (* Add root directory *)
  match addArchiveEntry w (directoryHeader "./" modTime) None with
  | (w, _, Some e) =>
      (t, w, Some (errorString ("Unable to add root entry: " +:+ Error e)))
  | (w, _, None) =>
      (* add entries ordered by path name. *)
      let paths := (range (files t) (fileOrder o)).*1 in
      addEntries t w (sort.Strings paths)
  end.

(** [createDataArchive] *)
Definition createDataArchive (t : T) (o : Orders) (compress : bool)
    (modTime : Z) : T * (Data * Z) * option error :=
  let aw := newTempArchive compress in
  let '(t, w, err) := fillDataArchive t o (Writer aw) modTime in
  (t, Finish (mkArchiveWriter w (gzipWriter aw)), err).

(** [writeDataArchive] *)
Definition writeDataArchive (t : T) (o : Orders) (w : TarWriter)
    (compress : bool) (modTime : Z) : T * TarWriter * option error :=
  match createDataArchive t o compress modTime with
  | (t, _, Some e) => (t, w, Some e)
  | (t, (archive, size), None) =>
      (t, w ++ [(fileHeader (slash dataArchiveName) size modTime,
                 archive)], None)
  end.

(** *** write.go *)

(** [writeDebianBinary] adds the mandatory debian-binary entry. *)
Definition writeDebianBinary (w : TarWriter) (modTime : Z) : TarWriter :=
  let filename := "./debian-binary" in
  let filecontent := "2.0" +:+ nl in
  w ++ [(fileHeader filename (Z.of_nat (String.length filecontent)) modTime,
         Raw filecontent)].

(** [writeTar] writes this IPK package to the specified tar archive.
    The control and data archives will be compressed if and only if
    compress is true.  [now] is the reading of [time.Now()]. *)
Definition writeTar (t : T) (o : Orders) (w : TarWriter) (compress : bool)
    (now : Z) : T * TarWriter * option error :=
  let w := writeDebianBinary w now in
  match writeControlArchive t o w compress now with
  | (t, w, Some e) => (t, w, Some e)
  | (t, w, None) => writeDataArchive t o w compress now
  end.

(** [Write] writes this IPK package in the specified format.  The
    writer is the result: the bytes of the complete archive on success. *)
Definition Write (t : T) (o : Orders) (now : Z) (format : Z)
  : T * (Data + error) :=
  if negb (Z.ldiff format formatGZip =? FormatTar) then
    (t, inr (errorString "Unsupported format"))
  else
    match writeTar t o [] (Z.land format formatGZip =? 0) now with
    | (t, _, Some e) => (t, inr e)
    | (t, tw, None) =>
        let stream := Tar tw tar.EOF in
        (t, inl (if negb (Z.land format formatGZip =? 0)
                 then Gz gzip.BestCompression stream
                 else stream))
    end.

(** *** control.go: reading *)

(** [readControlLine] reads in a line from the control file. *)
Definition readControlLine (t : T) (line : string) : T * option error :=
  match strings.IndexByte line ":" with
  | None => (t, None) (* ignore this line *)
  | Some colonIdx =>
      let key := strings.take colonIdx line in
      let value := strings.drop (S colonIdx) line in
      match AddField t key value with
      | (t, Some e) =>
          (t, Some (errorString ("Unable to add field '" +:+ key +:+ "': "
                                 +:+ Error e)))
      | (t, None) => (t, None)
      end
  end.

(** The scanner loop shared by [readControl] and [readConffiles]:
    [for i := 1; scanner.Scan(); i++]. *)
Fixpoint scanLoop (readLine : T -> string -> T * option error)
    (what : string) (t : T) (i : nat) (lines : list string)
  : T * option error :=
  match lines with
  | [] => (t, None)
  | line :: rest =>
      match readLine t line with
      | (t, Some e) =>
          (t, Some (errorString ("Error reading line " +:+ pretty i
                                 +:+ " of " +:+ what +:+ ": " +:+ Error e)))
      | (t, None) => scanLoop readLine what t (S i) rest
      end
  end.

(** [readControl] reads in the control file from the control archive:
    the loop over the tokens, then the check of [scanner.Err()]. *)
Definition readControl (t : T) (r : Data) : T * option error :=
  let '(lines, err) := Scanner.Scan (bytesOf r) in
  match scanLoop readControlLine "control file" t 1%nat lines with
  | (t, Some e) => (t, Some e)
  | (t, None) =>
      match err with
      | Some e =>
          (t, Some (errorString ("Error reading control file: "
                                 +:+ Error e)))
      | None => (t, None)
      end
  end.

(** [readConffile] reads in a line from conffiles. *)
Definition readConffile (t : T) (line : string) : T * option error :=
  if String.eqb line "" then (t, None) else AddConffile t line.

(** [readConffiles] parses the conffiles file. *)
Definition readConffiles (t : T) (r : Data) : T * option error :=
  let '(lines, err) := Scanner.Scan (bytesOf r) in
  match scanLoop readConffile "conffiles" t 1%nat lines with
  | (t, Some e) => (t, Some e)
  | (t, None) =>
      match err with
      | Some e =>
          (t, Some (errorString ("Error reading conffiles: " +:+ Error e)))
      | None =>
          (mkT (fields t) (sort.Strings (conffiles t)) (scripts t)
               (files t), None)
      end
  end.

Definition isRegular (hdr : tar.Header) : bool :=
  bool_decide (tar.Typeflag hdr = tar.TypeReg)
  || bool_decide (tar.Typeflag hdr = tar.TypeRegA).

(** The loop of [readControlArchive] over the entries of the archive. *)
Fixpoint readControlEntries (t : T) (controlRead conffilesRead : bool)
    (es : list (tar.Header * Data)) (tl : tar.Tail) : T * option error :=
  match es with
  | [] =>
      match tl with
      | tar.Corrupt =>
          (t, Some (errorString "Unable to read control tar header"))
      | tar.EOF =>
          if negb controlRead then
            (t, Some (errorString "No control file found"))
          else (t, None)
      end
  | (hdr, content) :: rest =>
      if negb (isRegular hdr) then
        readControlEntries t controlRead conffilesRead rest tl
      else
        let name := path.Clean (unslash (tar.Name hdr)) in
        if String.eqb name controlName then
          if controlRead then
            (t, Some (errorString "Control file has already been read"))
          else
            match readControl t content with
            | (t, Some e) =>
                (t, Some (errorString ("Error reading control file: "
                                       +:+ Error e)))
            | (t, None) => readControlEntries t true conffilesRead rest tl
            end
        else if String.eqb name confName then
          if conffilesRead then
            (t, Some (errorString "Conffiles have already been read"))
          else
            match readConffiles t content with
            | (t, Some e) =>
                (t, Some (errorString ("Error reading conffiles: "
                                       +:+ Error e)))
            | (t, None) => readControlEntries t controlRead true rest tl
            end
        else
          match AddScript t name (Some (Rd content)) with
          | (t, Some e) =>
              if decide (e = ErrBadScriptName) then
                readControlEntries t controlRead conffilesRead rest tl
              else
                (t, Some (errorString ("Error reading script '" +:+ name
                                       +:+ "': " +:+ Error e)))
          | (t, None) =>
              readControlEntries t controlRead conffilesRead rest tl
          end
  end.

(** [readControlArchive] reads in control files from the specified
    control archive reader. *)
Definition readControlArchive (t : T) (r : Data) : T * option error :=
  match gzip.decode r with
  | None =>
      (t, Some (errorString "Unable to read compressed control archive"))
  | Some inner =>
      let '(es, tl) := tarEntries inner in
      readControlEntries t false false es tl
  end.

(** *** data.go: reading *)

(** [setFileData] sets the file data for the specified file. *)
Definition setFileData (t : T) (name : string) (hdr : tar.Header)
    (r : Data) : T * option error :=
  let data :=
    if isRegular hdr then Some (Gz gzip.BestCompression r) else None in
  (mkT (fields t) (conffiles t) (scripts t)
       (<[name := mkFile hdr data]> (files t)), None).

(** The loop of [readDataArchive] over the entries of the archive. *)
Fixpoint readDataEntries (t : T) (es : list (tar.Header * Data))
    (tl : tar.Tail) : T * option error :=
  match es with
  | [] =>
      match tl with
      | tar.Corrupt =>
          (t, Some (errorString "Unable to read data tar header"))
      | tar.EOF => (t, None)
      end
  | (hdr, content) :: rest =>
      let name := path.Clean (unslash (tar.Name hdr)) in
      if String.eqb name "." || String.eqb name ".."
         || strings.HasPrefix name "../" then
        readDataEntries t rest tl
      else
        match files t !! name with
        | Some _ =>
            (t, Some (errorString ("Duplicate file data: " +:+ name)))
        | None =>
            match setFileData t ("/" +:+ name) hdr content with
            | (t, Some e) =>
                (t, Some (errorString ("Unable to add file '" +:+ name
                                       +:+ "': " +:+ Error e)))
            | (t, None) => readDataEntries t rest tl
            end
        end
  end.

(** [readDataArchive] reads in the files from the specified data
    archive reader. *)
Definition readDataArchive (t : T) (r : Data) : T * option error :=
  match gzip.decode r with
  | None =>
      (t, Some (errorString "Unable to read compressed data archive"))
  | Some inner =>
      let '(es, tl) := tarEntries inner in
      readDataEntries t es tl
  end.

(** *** read.go *)

(** The loop of [readTar] over the entries of the outer archive. *)
Fixpoint readTarEntries (result : T) (dataRead controlRead : bool)
    (es : list (tar.Header * Data)) (tl : tar.Tail) : T + error :=
  match es with
  | [] =>
      match tl with
      | tar.Corrupt => inr (errorString "Error reading TAR header")
      | tar.EOF =>
          if negb controlRead then
            inr (errorString "No control archive found in package")
          else inl result
      end
  | (hdr, content) :: rest =>
      if negb (isRegular hdr) then
        (* ignore all non-regular files *)
        readTarEntries result dataRead controlRead rest tl
      else
        let name := unslash (tar.Name hdr) in
        if String.eqb name controlArchiveName then
          if controlRead then
            inr (errorString "Control archive has already been read")
          else
            match readControlArchive result content with
            | (_, Some e) =>
                inr (errorString ("Error reading control archive: "
                                  +:+ Error e))
            | (result, None) =>
                readTarEntries result dataRead true rest tl
            end
        else if String.eqb name dataArchiveName then
          if dataRead then
            inr (errorString "Data archive has already been read")
          else
            match readDataArchive result content with
            | (_, Some e) =>
                inr (errorString ("Error reading data archive: "
                                  +:+ Error e))
            | (result, None) =>
                readTarEntries result true controlRead rest tl
            end
        else readTarEntries result dataRead controlRead rest tl
  end.

(** [readTar] reads in an IPK from a tar reader. *)
Definition readTar (r : Data) : T + error :=
  let '(es, tl) := tarEntries r in
  readTarEntries New false false es tl.

(** [Read] reads an IPK package from the specified reader; a nil reader
    is [None]. *)
Definition Read (r : option Data) (format : Z) : T + error :=
  match r with
  | None => inr (errorString "Nil reader supplied")
  | Some r =>
      if negb (Z.ldiff format formatGZip =? FormatTar) then
        inr (errorString "Unsupported format")
      else if negb (Z.land format formatGZip =? 0) then
        match gzip.decode r with
        | None => inr (errorString "Error opening gzip stream")
        | Some gzr => readTar gzr
        end
      else readTar r
  end.

(** [ReadDetectFormat]: try gzip, fall back to pure tar. *)
Definition ReadDetectFormat (r : option Data) : T + error :=
  match r with
  | None => inr (errorString "Nil reader/seeker supplied")
  | Some r =>
      match gzip.decode r with
      | None => Read (Some r) FormatTar
      | Some gzr => Read (Some gzr) FormatTar
      end
  end.

End Package.

(** ** depends.go *)

(** Dependency relationships *)
Definition RelStrictlyEarlier : string := "<<".
Definition RelEarlierEqual : string := "<=".
Definition RelExact : string := "=".
Definition RelLaterEqual : string := ">=".
Definition RelStrictlyLater : string := ">>".

(** [checkRelation] checks whether rel is a valid relation. *)
Definition checkRelation (rel : string) : option error :=
  if String.eqb rel RelStrictlyEarlier || String.eqb rel RelEarlierEqual
     || String.eqb rel RelExact || String.eqb rel RelLaterEqual
     || String.eqb rel RelStrictlyLater
  then None
  else Some (errorString ("Invalid relation: " +:+ rel)).

Section Depends.

(** The regular expression [allowedPackageNames] is declared in a file
    of the package that is not at hand; its match is a parameter. *)
Variable allowedPackageNames : string -> bool.

(** [VersionedDependency] returns a versioned dependency.  If version
    is the empty string, relation is ignored and name is returned.
    Otherwise, if relation is the empty string, [=] is assumed. *)
Definition VersionedDependency (name relation version : string)
  : string + error :=
  if negb (allowedPackageNames name) then
    inr (errorString ("Invalid package name: " +:+ name))
  else if String.eqb version "" then inl name
  else
    let checked : string + error :=
      if String.eqb relation "" then inl RelExact
      else match checkRelation relation with
           | Some err => inr err
           | None => inl relation
           end in
    match checked with
    | inr err => inr err
    | inl relation =>
        inl (name +:+ " (" +:+ relation +:+ " " +:+ version +:+ ")")
    end.

End Depends.

(** [DisjunctiveDependency]: the constituents, separated by a bar. *)
Definition DisjunctiveDependency (deps : list string) : string :=
  match deps with
  | [] => ""
  | first :: rest =>
      fold_left (fun result dep => (result +:+ " | ") +:+ dep) rest first
  end.

(** The first loop of [ConjunctiveDependency]:
    [for len(deps) > 0 && len(deps[0]) == 0 { deps = deps[1:] }] *)
Fixpoint skipEmpty (deps : list string) : list string :=
  match deps with
  | d :: rest => if String.eqb d "" then skipEmpty rest else deps
  | [] => []
  end.

(** [ConjunctiveDependency]: the constituents that are not empty,
    separated by a comma. *)
Definition ConjunctiveDependency (deps : list string) : string :=
  match skipEmpty deps with
  | [] => ""
  | first :: rest =>
      fold_left
        (fun result dep =>
           if String.eqb dep "" then result
           else (result +:+ ", ") +:+ dep)
        rest first
  end.

(** * [Conffiles] on backing arrays *)

(** Go slices share their backing arrays.  To state that [Conffiles]
    returns a copy, the conffile list is modelled as the runtime has it: a
    slice value, that is a window on a backing array, and a store of
    backing arrays by address. *)
Module SliceStore.

Record slice := mkSlice {
  array : nat;      (* the address of the backing array *)
  offset : nat;     (* where the window begins *)
  len : nat;
  cap : nat
}.

Abbreviation store := (gmap nat (list string)).

Definition backing (h : store) (s : slice) : list string :=
  default [] (h !! array s).

(** The elements of a slice: [s[0], ..., s[len(s)-1]]. *)
Definition elems (h : store) (s : slice) : list string :=
  take (len s) (drop (offset s) (backing h s)).

(** The window lies within the backing array. *)
Definition valid (h : store) (s : slice) : Prop :=
  (offset s + len s <= length (backing h s))%nat.

(** [make([]string, n)]: a new backing array of [n] empty strings. *)
Definition make (h : store) (n : nat) : store * slice :=
  let a := fresh (dom h) in
  (<[a := replicate n ""]> h, mkSlice a 0 n n).

(** [copy(dst, src)]: the first [min(len(dst), len(src))] elements of
    [src] are written over the first elements of [dst]. *)
Definition copy (h : store) (dst src : slice) : store * nat :=
  let n := (len dst `min` len src)%nat in
  let vals := take n (elems h src) in
  (alter (fun a => take (offset dst) a ++ vals
                   ++ drop (offset dst + n) a) (array dst) h, n).

(** [s[i] = v]; an index out of range panics ([None]). *)
Definition set (h : store) (s : slice) (i : nat) (v : string)
  : option store :=
  if decide (i < len s)%nat then
    Some (alter (fun a => <[(offset s + i)%nat := v]> a) (array s) h)
  else None.

(** [Conffiles] returns a copy of the current configuration files:
    [result := make([]string, len(t.conffiles));
     copy(result, t.conffiles); return result]. *)
Definition Conffiles (h : store) (conffiles : slice) : store * slice :=
  let '(h, result) := make h (len conffiles) in
  let '(h, _) := copy h result conffiles in
  (h, result).

End SliceStore.

(** * The vocabulary of the properties, and example inputs *)

(** ** Path elements *)

(** A string without a slash. *)
Definition noSlash (s : string) : Prop :=
  strings.ContainsRune s "/" = false.

(** An element that [Clean] writes to its buffer. *)
Definition proper (e : string) : Prop :=
  e ≠ "" ∧ e ≠ "." ∧ noSlash e.

(** The bytes a list of elements takes when each is followed by a
    separator. *)
Fixpoint weight (l : list string) : nat :=
  match l with
  | [] => O
  | e :: l' => S (String.length e) + weight l'
  end.

(** ** Adding files *)

(** The directory step of [AddFile] at recursion bound [fuel]. *)
Definition addDirStep (encode : Data -> string) (fuel : nat)
    (clock : nat -> Z) (t : T) (dir : string) : T * option error :=
  match fuel with
  | O => (t, Some outOfFuel)
  | S fuel' =>
      addDir (AddFile_rec encode fuel' (fun n => clock (S n))) (clock O)
             t dir
  end.

(** The key under which [AddFile] stores the entry: the full path, with
    a slash after it for a directory. *)
Definition fileKey (dir : string) (info : FileInfo) : option string :=
  match FileInfoHeader info "/" with
  | inl h =>
      let fullpath := path.Join dir (fiName info) in
      Some (if decide (tar.Typeflag h = tar.TypeDir)
            then fullpath +:+ "/" else fullpath)
  | inr _ => None
  end.

(** The reader is there and works when [AddFile] reads from it. *)
Definition readerUsable (info : FileInfo) (r : option Reader) : Prop :=
  match FileInfoHeader info "/" with
  | inl h =>
      tar.Typeflag h = tar.TypeReg ∨ tar.Typeflag h = tar.TypeRegA
      ∨ tar.Typeflag h = tar.TypeSymlink ->
      ∃ content, r = Some (Rd content)
  | inr _ => True
  end.

(** A directory entry as [addDir] makes it. *)
Definition isDirEntry (f : file) : Prop :=
  tar.Typeflag (header f) = tar.TypeDir ∧ data f = None
  ∧ tar.Mode (header f) = 493 ∧ tar.Uname (header f) = archiveOwner.

(** [t'] is [t] with, at most, entries added to the file tree. *)
Definition extends (t t' : T) : Prop :=
  fields t' = fields t ∧ conffiles t' = conffiles t
  ∧ scripts t' = scripts t
  ∧ ∀ p f, files t !! p = Some f -> files t' !! p = Some f.

(** The header of a directory that [addDir] adds under [updir]. *)
Definition addedDirHeader (updir basename : string) (now : Z)
  : tar.Header :=
  tar.mkHeader tar.TypeDir
    (path.Join updir (path.Base (path.Clean basename)) +:+ "/")
    "" 0 493 archiveOwner archiveOwner now tar.FormatUnknown.

(** [t'] is [t] with, at most, directories added to the file tree. *)
Definition addsDirs (t t' : T) : Prop :=
  extends t t'
  ∧ ∀ p f, files t' !! p = Some f -> files t !! p = None -> isDirEntry f.

(** A path element that is a name: not empty, not [.] or [..], no slash. *)
Definition plain (e : string) : Prop :=
  e ≠ "" ∧ e ≠ "." ∧ e ≠ ".." ∧ noSlash e.

(** The rooted path with the elements [st], and the key of the directory
    with that path. *)
Definition render (st : list string) : string :=
  "/" +:+ String.concat "/" st.

Definition dirKey (st : list string) : string := render st +:+ "/".

(** Every directory on the way from the root to [dir], [dir] included,
    is in the file tree. *)
Definition ancestorsPresent (t : T) (dir : string) : Prop :=
  ∀ n, (0 < n <= length (path.cleanStack true dir))%nat ->
       is_Some (files t !! dirKey (take n (path.cleanStack true dir))).

(** The path of a directory is the path of its parent, a slash and its
    name; the root counts as the empty path here. *)
Definition parentPath (st : list string) : string :=
  match st with
  | [] => ""
  | _ => render st
  end.

(** ** The control file *)

(** The lines of the mandatory fields, in their fixed order. *)
Definition mandatoryText (vP vV vA vM vD : string) : string :=
  fieldLine ControlPackage vP +:+ fieldLine ControlVersion vV
  +:+ fieldLine ControlArch vA +:+ fieldLine ControlMaintainer vM
  +:+ fieldLine ControlDesc vD.

(** One line for each field of a list, in the order of the list. *)
Fixpoint fieldText (kvs : list (string * string)) : string :=
  match kvs with
  | [] => ""
  | kv :: rest => fieldLine kv.1 kv.2 +:+ fieldText rest
  end.

(** ** Reading archives *)

(** A regular entry of the outer archive whose canonical name is
    [name]. *)
Definition isArchiveEntry (name : string) (e : tar.Header * Data) : Prop :=
  isRegular e.1 = true ∧ unslash (tar.Name e.1) = name.

(** Every key of the file tree is an absolute path. *)
Definition absoluteKeys (t : T) : Prop :=
  ∀ k, is_Some (files t !! k) -> path.IsAbs k = true.

(** ** Well-formed packages *)

Definition trimmed (s : string) : Prop := strings.TrimSpace s = s.
Definition singleLine (s : string) : Prop :=
  strings.ContainsRune s bufio.LF = false.
Definition fieldsOK (m : gmap string string) : Prop :=
  ∀ k v, m !! k = Some v ->
         allowedFieldNames k = true ∧ trimmed v ∧ singleLine v.

(** The line of a field that is well formed. *)
Definition fieldOK (kv : string * string) : Prop :=
  allowedFieldNames kv.1 = true ∧ trimmed kv.2 ∧ singleLine kv.2.

(** A line that fits into the buffer of a scanner together with its line
    feed. *)
Definition fitsLine (l : string) : Prop :=
  Z.of_nat (String.length l) < Scanner.MaxScanTokenSize.

(** Every field fits on a line of the control file. *)
Definition fieldsFit (m : gmap string string) : Prop :=
  ∀ k v, m !! k = Some v -> fitsLine (k +:+ ": " +:+ v).

(** The fields in the order of their lines in the control file: the
    mandatory ones, then the others as the walk over the map meets them. *)
Definition controlPairs (t : T) (order : list string)
  : list (string * string) :=
  range (fields t) mandatoryFields
  ++ filter (fun kv => kv.1 ∉ mandatoryFields) (range (fields t) order).

(** A configuration file as [AddConffile] stores it: cleaned, absolute,
    not the root. *)
Definition conffileOK (c : string) : Prop :=
  path.Clean c = c ∧ path.IsAbs c = true ∧ c ≠ "/".

(** A path that is one line of a line-oriented file: no line feed in it,
    no carriage return at its end, and short enough for the scanner. *)
Definition lineSafe (c : string) : Prop :=
  singleLine c ∧ bufio.dropCR c = c ∧ fitsLine c.

(** The bytes of the conffiles file. *)
Definition conffilesText (cs : list string) : string :=
  fold_left (fun buf f => buf +:+ f +:+ nl) cs "".

(** A script as [AddScript] stores it. *)
Definition scriptOK (encode : Data -> string) (name : string) (f : file)
  : Prop :=
  allowedScriptNames name = true ∧ name ≠ controlName ∧ name ≠ confName
  ∧ ∃ content,
      f = mkFile (tar.setSize (dataLen encode content)
                              (tar.setName name tar.zero))
                 (Some (Gz gzip.BestCompression content)).

Definition scriptsOK (encode : Data -> string) (m : gmap string file)
  : Prop :=
  ∀ name f, m !! name = Some f -> scriptOK encode name f.


(** The control data of a package is well formed: fields, configuration
    files and scripts are as [AddField], [AddConffile] and [AddScript]
    store them, and every field and every configuration file fits on a
    line that the scanner takes. *)
Definition controlOK (encode : Data -> string) (t : T) : Prop :=
  fieldsOK (fields t)
  ∧ Forall conffileOK (conffiles t) ∧ Forall lineSafe (conffiles t)
  ∧ scriptsOK encode (scripts t)
  ∧ fieldsFit (fields t).

(** A key of the file tree below the root: a slash and plain elements
    separated by single slashes. *)
Definition treeKey (k : string) : Prop :=
  ∃ st, st ≠ [] ∧ Forall plain st ∧ k = render st.

(** The entry of the data archive for a file of the tree: the header
    with its name through [slash], and the data uncompressed. *)
Definition dataEntry (f : file) : tar.Header * Data :=
  (tar.setName (slash (tar.Name (header f))) (header f),
   default (Raw "") (data f ≫= gzip.decode)).

(** The file as a write leaves it in the package. *)
Definition written (f : file) : file :=
  mkFile (tar.setName (slash (tar.Name (header f))) (header f)) (data f).

(** An entry of the file tree as [AddFile] stores it, or as a read of a
    written package does: the name in the header is the key, up to
    [slash]; the key is a path below the root, with or without a slash
    at its end (directories have one); a regular file has its compressed content, of the
    size in the header, and nothing else has content. *)
Definition fileOK (encode : Data -> string) (k : string) (f : file)
  : Prop :=
  slash (tar.Name (header f)) = slash k
  ∧ (∃ st, st ≠ [] ∧ Forall plain st ∧ (k = render st ∨ k = dirKey st))
  ∧ (if isRegular (header f)
     then ∃ c, data f = Some (Gz gzip.BestCompression c)
               ∧ tar.Size (header f) = dataLen encode c
     else data f = None).

Definition treeOK (encode : Data -> string) (t : T) : Prop :=
  ∀ k f, files t !! k = Some f -> fileOK encode k f.

(** The paths of the file tree in the order of the data archive. *)
Definition sortedPaths (t : T) : list string :=
  sort.Strings (map_to_list (files t)).*1.

(** What a read of the written data archive finds under the path [k]:
    the directory of that path, when the tree has one, and else the
    file. *)
Definition readBack (m : gmap string file) (k : string) : option file :=
  match m !! (k +:+ "/") with
  | Some d => Some (written d)
  | None => written <$> m !! k
  end.

(** The key under which a read stores the entry written for the
    path [k]. *)
Definition treePath (k : string) : string :=
  "/" +:+ path.Clean (unslash (slash k)).

(** What an archive carries of a header from the writer to the reader,
    whatever its format: every field of the model but the modification
    time, which an archive holds in the precision of its format, and the
    format, which the reader sets to the one it finds. *)
Definition sameHeader (h g : tar.Header) : Prop :=
  tar.Typeflag h = tar.Typeflag g ∧ tar.Name h = tar.Name g
  ∧ tar.Linkname h = tar.Linkname g ∧ tar.Size h = tar.Size g
  ∧ tar.Mode h = tar.Mode g ∧ tar.Uname h = tar.Uname g
  ∧ tar.Gname h = tar.Gname g.

Definition sameFile (f g : file) : Prop :=
  sameHeader (header f) (header g) ∧ data f = data g.

(** The entry [x] that a read finds is the entry [y] that was written,
    up to [sameFile]; there is none when none was written. *)
Definition readsAs (x y : option file) : Prop :=
  match x, y with
  | Some g, Some f => sameFile g f
  | None, None => True
  | _, _ => False
  end.

(** The types of the entries that [AddFile] makes, those that
    [tar.FileInfoHeader] gives.  The tar writer passes them on as they
    are; it turns [TypeRegA] into another type. *)
Definition fileTypes : list Z :=
  [tar.TypeReg; tar.TypeLink; tar.TypeSymlink; tar.TypeChar; tar.TypeBlock;
   tar.TypeDir; tar.TypeFifo].

Definition typesOK (t : T) : Prop :=
  ∀ k f, files t !! k = Some f -> tar.Typeflag (header f) ∈ fileTypes.


(** The content of a file of the tree goes with its type: the
    compressed content for a regular file, nothing for the others. *)
Definition storedData (f : file) : Prop :=
  if isRegular (header f)
  then ∃ c, data f = Some (Gz gzip.BestCompression c)
  else data f = None.

(** A package as a read returns it. *)
Definition validated (encode : Data -> string) (t : T) : Prop :=
  fieldsOK (fields t)
  ∧ Forall conffileOK (conffiles t) ∧ Sorted String.le (conffiles t)
  ∧ scriptsOK encode (scripts t)
  ∧ ∀ k f, files t !! k = Some f -> treeKey k ∧ storedData f.

(** The control data as the operations that add to it leave it. *)
Definition controlInv (encode : Data -> string) (t : T) : Prop :=
  fieldsOK (fields t) ∧ Forall conffileOK (conffiles t)
  ∧ scriptsOK encode (scripts t).

(** A regular entry of the control sub-archive whose cleaned name is
    [name]. *)
Definition isControlEntry (name : string) (e : tar.Header * Data) : Prop :=
  isRegular e.1 = true ∧ path.Clean (unslash (tar.Name e.1)) = name.

(** Every entry of a tar writer has a name that begins with [./]. *)
Definition dotSlashed (w : list (tar.Header * Data)) : Prop :=
  Forall (fun e => strings.HasPrefix (tar.Name e.1) "./" = true) w.

(** ** Example inputs *)

Module C1_example.

Definition enc : Data -> string := fun _ => "".
Definition clock : nat -> Z := fun _ => 0.

Definition addFields (t : T) : T :=
  let t := (AddField t ControlPackage "foo").1 in
  let t := (AddField t ControlVersion "1.2.3").1 in
  let t := (AddField t ControlArch "all").1 in
  let t := (AddField t ControlMaintainer "A <a@b.c>").1 in
  (AddField t ControlDesc "d").1.

Definition info : FileInfo :=
  HeaderFileInfo (fileHeader "/etc/foo/x.conf" 3 0).

(** The package of the scenario: five fields, the conffile
    [/etc/foo/x.conf], and the file [x.conf] added to [/etc/foo]. *)
Definition p : T :=
  let t := addFields New in
  let t := (AddConffile t "/etc/foo/x.conf").1 in
  (AddFile enc clock t "/etc/foo" (Some info) (Some (Rd (Raw "abc")))).1.

Definition o : Orders :=
  mkOrders mandatoryFields [] ["/etc/foo/x.conf"; "/etc/"; "/etc/foo/"].

End C1_example.

Module C2_example.

Definition hdr : tar.Header :=
  tar.mkHeader tar.TypeReg "./a" "" 1 420 "root" "root" 0 tar.FormatUSTAR.

(** A data sub-archive with two entries for the path [/a]. *)
Definition archive : Data :=
  Gz gzip.BestCompression (Tar [(hdr, Raw "x"); (hdr, Raw "y")] tar.EOF).

End C2_example.

Module C3_example.

(** A package as [Read] leaves it for a data archive with the one entry
    [./etc/x]: the file is in the tree, its directory is not. *)
Definition archive : Data :=
  Gz gzip.BestCompression
     (Tar [(tar.mkHeader tar.TypeReg "./etc/x" "" 3 420 "root" "root" 0
                         tar.FormatUSTAR, Raw "abc")] tar.EOF).

Definition t0 : T := (readDataArchive New archive).1.

Definition info : FileInfo :=
  HeaderFileInfo (tar.mkHeader tar.TypeReg "x" "" 3 420 "root" "root" 0
                               tar.FormatUSTAR).

Definition r : option Reader := Some (Rd (Raw "abc")).

Definition enc : Data -> string := fun _ => "".
Definition clock : nat -> Z := fun _ => 0.

(** A package built with [AddFile] alone: the file, and its directory. *)
Definition t1 : T := (AddFile enc clock New "/etc" (Some info) r).1.

End C3_example.

Module C4_example.

Definition t0 : T :=
  mkT (list_to_map [(ControlPackage, "foo"); (ControlVersion, "1.2.3");
                    (ControlArch, "all"); (ControlMaintainer, "A <a@b.c>");
                    (ControlDesc, "d"); (ControlDep, "libc");
                    (ControlHomepage, "https://foo.bar")])
      [] ∅ ∅.

Definition order1 : list string :=
  [ControlPackage; ControlVersion; ControlArch; ControlMaintainer;
   ControlDesc; ControlDep; ControlHomepage].

Definition order2 : list string :=
  [ControlHomepage; ControlDep; ControlDesc; ControlMaintainer;
   ControlArch; ControlVersion; ControlPackage].

End C4_example.

Module C5_example.

Definition t0 : T :=
  mkT (list_to_map [(ControlPackage, "foo"); (ControlVersion, "1.2.3");
                    (ControlArch, "all"); (ControlMaintainer, "A <a@b.c>");
                    (ControlDesc, "d")])
      [] ∅ ∅.

Definition o : Orders := mkOrders mandatoryFields [] [].

Definition enc : Data -> string := fun _ => "".

End C5_example.

Module C6_example.

Definition enc : Data -> string := fun _ => "".

Definition text : string :=
  "Package: foo" +:+ nl +:+ "Version: 1.2.3" +:+ nl.

(** A control sub-archive with a control file. *)
Definition control : Data :=
  Gz gzip.NoCompression
     (Tar [(tar.mkHeader tar.TypeReg "./control" "" 28 420 "root" "root" 0
                         tar.FormatUSTAR, Raw text)] tar.EOF).

Definition marker : tar.Header * Data :=
  (tar.mkHeader tar.TypeReg "./debian-binary" "" 4 420 "root" "root" 0
                tar.FormatUSTAR, Raw ("2.0" +:+ nl)).

Definition controlEntry : tar.Header * Data :=
  (tar.mkHeader tar.TypeReg "./control.tar.gz" "" 0 420 "root" "root" 0
                tar.FormatUSTAR, control).

Definition t0 : T :=
  mkT (list_to_map [("Package", "foo"); ("Version", "1.2.3")]) [] ∅ ∅.

End C6_example.

Module C9_example.

(** The store after two calls of [AddConffile]: one backing array of
    capacity two at address 0. *)
Definition h : SliceStore.store := {[ 0%nat := ["/etc/a"; "/etc/b"] ]}.
Definition cf : SliceStore.slice := SliceStore.mkSlice 0 0 2 2.
Definition t0 : T := mkT ∅ ["/etc/a"; "/etc/b"] ∅ ∅.

End C9_example.

Module test_inputs.

(** The inputs of ipk_test.go and read_test.go. *)
Definition enc : Data -> string := fun _ => "".
Definition clock : nat -> Z := fun _ => 0.

Definition ok {A} (r : A * option error) : bool :=
  match r.2 with
  | None => true
  | Some _ => false
  end.

Definition testScript : string :=
  "#!/bin/sh" +:+ nl +:+ "echo test" +:+ nl.

Definition scriptInfo : FileInfo :=
  HeaderFileInfo (fileHeader "script.sh" 20 0).

Definition r : option Reader := Some (Rd (Raw testScript)).
Definition boom : option Reader := Some (Broken (ErrLibrary "boom")).

(** The package of [TestWriteRead]. *)
Definition testConffile : string := "/etc/foo/script.sh".

Definition testInfo : FileInfo :=
  let hdr := fileHeader testConffile 20 0 in
  HeaderFileInfo (tar.setMode (Z.lor (tar.Mode hdr) 73) hdr).

Definition pkg : T :=
  let t := (AddField New ControlPackage "foo").1 in
  let t := (AddField t ControlVersion "1.2.3").1 in
  let t := (AddField t ControlArch "all").1 in
  let t := (AddField t ControlMaintainer "Ford Prefect <fp@guide.etha>").1 in
  let t := (AddField t ControlDesc "A foolish barrage").1 in
  let t := (AddConffile t testConffile).1 in
  (AddFile enc clock t "/etc/foo" (Some testInfo) r).1.

Definition o : Orders :=
  mkOrders mandatoryFields [] ["/etc/"; "/etc/foo/"; testConffile].

(** [WritePath] followed by [ReadPath]. *)
Definition written : T * (Data + error) := Write enc pkg o 0 FormatTarGZip.

Definition readBack : T + error :=
  match written.2 with
  | inl d => ReadDetectFormat enc (Some d)
  | inr e => inr e
  end.

End test_inputs.

Module X_example.

Definition enc : Data -> string := fun _ => "".
Definition clock : nat -> Z := fun _ => 0.

Definition script : Data := Raw ("#!/bin/sh" +:+ nl).

(** The UTF-8 bytes of U+00A0, the no-break space. *)
Definition nbsp : string := String "194"%char (String "160"%char "").

Definition info : FileInfo :=
  HeaderFileInfo (fileHeader "foo.conf" 3 0).

(** A package with six fields, two configuration files and a script. *)
Definition control : T :=
  let t := (AddField New ControlPackage "foo").1 in
  let t := (AddField t ControlVersion "1.2.3").1 in
  let t := (AddField t ControlArch "all").1 in
  let t := (AddField t ControlMaintainer "A <a@b.c>").1 in
  let t := (AddField t ControlDesc "d").1 in
  let t := (AddField t ControlHomepage "https://foo.bar").1 in
  let t := (AddConffile t "/etc/foo/foo.conf").1 in
  let t := (AddConffile t "/etc/bar.conf").1 in
  (AddScript enc t "postinst" (Some (Rd script))).1.

(** The same with the file [foo.conf] in the directory [/etc/foo]. *)
Definition pkg : T :=
  (AddFile enc clock control "/etc/foo" (Some info)
           (Some (Rd (Raw "abc")))).1.

Definition o : Orders :=
  mkOrders [ControlHomepage; ControlDesc; ControlMaintainer; ControlArch;
            ControlVersion; ControlPackage]
           ["postinst"]
           ["/etc/foo/foo.conf"; "/etc/"; "/etc/foo/"].

Definition o' : Orders :=
  mkOrders [ControlPackage; ControlVersion; ControlArch; ControlMaintainer;
            ControlDesc; ControlHomepage]
           ["postinst"]
           ["/etc/foo/"; "/etc/foo/foo.conf"; "/etc/"].

(** A data sub-archive with an entry that climbs out of the root, an
    entry for the root and an entry below it. *)
Definition hostile : Data :=
  Gz gzip.BestCompression
     (Tar [(fileHeader "../../etc/passwd" 1 0, Raw "x");
           (directoryHeader "./" 0, Raw "");
           (fileHeader "./a/../b" 1 0, Raw "y")] tar.EOF).

(** A control sub-archive with two control files. *)
Definition twice : list (tar.Header * Data) :=
  [(fileHeader "./control" 0 0, Raw "");
   (fileHeader "control" 0 0, Raw "")].

(** An archive with a control sub-archive with one field, and the
    package that a read of it returns. *)
Definition small : Data :=
  Tar [(fileHeader "./control.tar.gz" 0 0,
        Gz gzip.NoCompression
           (Tar [(fileHeader "./control" 0 0, Raw ("Package: foo" +:+ nl))]
                tar.EOF))] tar.EOF.

Definition smallPkg : T := mkT (list_to_map [("Package", "foo")]) [] ∅ ∅.

End X_example.

(** * Properties *)

(** ** Strings *)

Module strings_facts.

Lemma app_cons (c : ascii) (a b : string) :
  String c a +:+ b = String c (a +:+ b).
Proof. reflexivity. Qed.

Lemma app_nil_l (b : string) : "" +:+ b = b.
Proof. reflexivity. Qed.

Lemma length_app (a b : string) :
  String.length (a +:+ b) = (String.length a + String.length b)%nat.
Proof.
  induction a as [|x a IH]; [reflexivity|].
  rewrite app_cons. simpl. now rewrite IH.
Qed.

Lemma app_assoc (a b c : string) : (a +:+ b) +:+ c = a +:+ (b +:+ c).
Proof.
  induction a as [|x a IH]; [reflexivity|].
  rewrite !app_cons. now rewrite IH.
Qed.

Lemma app_empty_r (a : string) : a +:+ "" = a.
Proof.
  induction a as [|x a IH]; [reflexivity|].
  rewrite app_cons. now rewrite IH.
Qed.

End strings_facts.

(** ** The models of [path] and [bufio] on examples *)

Example path_Clean_dotdot : path.Clean "/etc/foo/../bar.conf" = "/etc/bar.conf".
Proof. reflexivity. Qed.
Example path_Clean_empty : path.Clean "" = ".".
Proof. reflexivity. Qed.
Example path_Clean_trailing : path.Clean "a/b/" = "a/b".
Proof. reflexivity. Qed.
Example path_Clean_root_dotdot : path.Clean "/../a//b/./c/.." = "/a/b".
Proof. reflexivity. Qed.
Example path_Clean_rel_dotdot : path.Clean "a/../../b" = "../b".
Proof. reflexivity. Qed.
Example path_Split_ex : path.Split "/etc/foo" = ("/etc/", "foo").
Proof. reflexivity. Qed.
Example path_Split_root : path.Split "/" = ("/", "").
Proof. reflexivity. Qed.
Example path_Split_rel : path.Split "foo" = ("", "foo").
Proof. reflexivity. Qed.
Example path_Join_ex : path.Join "/etc/foo" "x.conf" = "/etc/foo/x.conf".
Proof. reflexivity. Qed.
Example path_Join_root : path.Join "/" "etc" = "/etc".
Proof. reflexivity. Qed.
Example path_Base_ex : path.Base "/etc/foo/script.sh" = "script.sh".
Proof. reflexivity. Qed.

Example bufio_ScanLines_ex :
  bufio.ScanLines
    ("a" +:+ String bufio.LF
       ("" +:+ String bufio.LF
          ("b" +:+ String bufio.CR (String bufio.LF "c"))))
  = ["a"; ""; "b"; "c"].
Proof. reflexivity. Qed.

(** ** The tests of the repository, on the embedding *)

(** file_test.go *)
Example TestSlash :
  map slash [""; "foo"; "/bar"; "./baz"] = ["./"; "./foo"; "./bar"; "./baz"].
Proof. reflexivity. Qed.

Example TestUnslash :
  map unslash [""; "."; ".."; "/"; "/foo"; "///foo"; "./"; "./foo";
               ".///foo"; "././"; "././foo"; "./foo/./"]
  = [""; "."; ".."; ""; "foo"; "foo"; ""; "foo"; "foo"; ""; "foo"; "foo/./"].
Proof. reflexivity. Qed.

(** ipk_test.go *)
Example TestAddField :
  test_inputs.ok (AddField New "" "foo") = false
  ∧ test_inputs.ok (AddField New "1nv4l!d" "foo") = false
  ∧ test_inputs.ok (AddField New ControlPackage (nl +:+ "foo")) = true
  ∧ test_inputs.ok (AddField New ControlArch ("foo" +:+ nl)) = true
  ∧ test_inputs.ok (AddField New ControlDesc ("foo" +:+ nl +:+ "bar")) = false
  ∧ test_inputs.ok
      (AddField (AddField New ControlHomepage "https://foo.bar").1
                ControlHomepage "https://bar.foo") = false.
Proof. vm_compute. repeat split. Qed.

Example TestGetField :
  GetField New ControlPackage = None
  ∧ GetField (AddField New ControlPackage
                (String "010" (String "009" (" foo" +:+
                   String "011" (String "013" (String "010" ""))))) ).1
             ControlPackage = Some "foo".
Proof. vm_compute. repeat split. Qed.

Example TestAddConffile :
  test_inputs.ok (AddConffile New "") = false
  ∧ test_inputs.ok (AddConffile New "foo") = false
  ∧ test_inputs.ok (AddConffile New "/") = false
  ∧ test_inputs.ok (AddConffile New "/etc/pkg/pkg.conf") = true.
Proof. vm_compute. repeat split. Qed.

Example TestConffiles :
  Conffiles New = []
  ∧ Conffiles (AddConffile New "/etc/foo/../bar.conf").1 = ["/etc/bar.conf"].
Proof. vm_compute. repeat split. Qed.

Example TestAddScript :
  test_inputs.ok (AddScript test_inputs.enc New "" test_inputs.r) = false
  ∧ test_inputs.ok (AddScript test_inputs.enc New "1nv4l!d" test_inputs.r)
    = false
  ∧ test_inputs.ok (AddScript test_inputs.enc New controlName test_inputs.r)
    = false
  ∧ test_inputs.ok (AddScript test_inputs.enc New confName test_inputs.r)
    = false
  ∧ test_inputs.ok (AddScript test_inputs.enc New "foo" None) = false
  ∧ test_inputs.ok (AddScript test_inputs.enc New "foo" test_inputs.boom)
    = false
  ∧ test_inputs.ok (AddScript test_inputs.enc New "foo" test_inputs.r) = true
  ∧ test_inputs.ok
      (AddScript test_inputs.enc
         (AddScript test_inputs.enc New "foo" test_inputs.r).1
         "foo" test_inputs.r) = false.
Proof. vm_compute. repeat split. Qed.

Example TestAddRegularFile :
  test_inputs.ok
    (AddFile test_inputs.enc test_inputs.clock New "a/b"
             (Some test_inputs.scriptInfo) test_inputs.r) = false
  ∧ test_inputs.ok
      (AddFile test_inputs.enc test_inputs.clock New "/etc/a/b/c" None
               test_inputs.r) = false
  ∧ test_inputs.ok
      (AddFile test_inputs.enc test_inputs.clock New "/etc/a/b/c"
               (Some test_inputs.scriptInfo) None) = false
  ∧ test_inputs.ok
      (AddFile test_inputs.enc test_inputs.clock New "/etc/a/b/c"
               (Some test_inputs.scriptInfo) test_inputs.boom) = false
  ∧ test_inputs.ok
      (AddFile test_inputs.enc test_inputs.clock New "/etc/a/b/c"
               (Some test_inputs.scriptInfo) test_inputs.r) = true
  ∧ (AddFile test_inputs.enc test_inputs.clock
       (AddFile test_inputs.enc test_inputs.clock New "/etc/a/b/c"
                (Some test_inputs.scriptInfo) test_inputs.r).1
       "/etc/a/b/c" (Some test_inputs.scriptInfo) test_inputs.r).2
    = Some ErrExist.
Proof. vm_compute. repeat split. Qed.

Example TestFileNames :
  sort.Strings
    (map_to_list
       (files (AddFile test_inputs.enc test_inputs.clock New "/etc/a/b/c"
                       (Some test_inputs.scriptInfo) test_inputs.r).1)).*1
  = ["/etc/"; "/etc/a/"; "/etc/a/b/"; "/etc/a/b/c/"; "/etc/a/b/c/script.sh"].
Proof. vm_compute. reflexivity. Qed.

(** read_test.go *)
Example TestWriteRead :
  ∃ pkg,
    test_inputs.readBack = inl pkg
    ∧ GetField pkg ControlPackage = Some "foo"
    ∧ GetField pkg ControlVersion = Some "1.2.3"
    ∧ GetField pkg ControlArch = Some "all"
    ∧ GetField pkg ControlMaintainer = Some "Ford Prefect <fp@guide.etha>"
    ∧ GetField pkg ControlDesc = Some "A foolish barrage"
    ∧ Conffiles pkg = [test_inputs.testConffile]
    ∧ scripts pkg = ∅
    ∧ is_Some (files pkg !! test_inputs.testConffile).
Proof.
  eexists. split; [vm_compute; reflexivity|].
  repeat split; try (vm_compute; reflexivity).
  vm_compute. eauto.
Qed.

(** ** The path canonicaliser: [slash] and [unslash] *)

(** The equation of [unslash] as the source has it. *)
Lemma unslash_eq (path : string) :
  unslash path =
    if strings.HasPrefix path "./" then unslash (strings.drop 2 path)
    else if strings.HasPrefix path "/" then unslash (strings.drop 1 path)
    else path.
Proof.
  destruct path as [|c rest]; [reflexivity|]. cbn.
  destruct (Ascii.eqb_spec c "/") as [->|Hc].
  { cbn. destruct rest; reflexivity. }
  destruct (Ascii.eqb_spec c ".") as [->|Hd]; [|reflexivity].
  destruct rest as [|c' rest']; [reflexivity|]. cbn.
  destruct (Ascii.eqb_spec c' "/") as [->|Hc']; cbn; [|reflexivity].
  destruct rest'; reflexivity.
Qed.

Section SlashUnslash.

Lemma string_length_ind (P : string -> Prop) :
  (∀ p, (∀ q, (String.length q < String.length p)%nat -> P q) -> P p) ->
  ∀ p, P p.
Proof.
  intros H p. apply (Wf_nat.induction_ltof1 _ String.length). exact H.
Qed.

Lemma HasPrefix_app (p q : string) : strings.HasPrefix (p +:+ q) p = true.
Proof.
  induction p as [|c p IH]; [now destruct q|].
  rewrite strings_facts.app_cons. cbn. now rewrite Ascii.eqb_refl, IH.
Qed.

Lemma HasPrefix_slash_inv (p : string) :
  strings.HasPrefix p "/" = true -> ∃ q, p = String "/" q.
Proof.
  destruct p as [|a p]; [discriminate|]. cbn. intros H.
  apply andb_prop in H as [Ha _]. apply Ascii.eqb_eq in Ha. subst a. eauto.
Qed.

Lemma HasPrefix_dotslash_inv (p : string) :
  strings.HasPrefix p "./" = true -> ∃ q, p = String "." (String "/" q).
Proof.
  destruct p as [|a p]; [discriminate|]. cbn. intros H.
  apply andb_prop in H as [Ha H]. apply Ascii.eqb_eq in Ha. subst a.
  destruct (HasPrefix_slash_inv p H) as [q ->]. eauto.
Qed.

Lemma unslash_no_prefix (p : string) :
  strings.HasPrefix (unslash p) "./" = false
  ∧ strings.HasPrefix (unslash p) "/" = false.
Proof.
  induction p as [p IH] using string_length_ind.
  rewrite unslash_eq.
  destruct (strings.HasPrefix p "./") eqn:H1.
  - destruct (HasPrefix_dotslash_inv p H1) as [q ->].
    apply IH. cbn. lia.
  - destruct (strings.HasPrefix p "/") eqn:H2.
    + destruct (HasPrefix_slash_inv p H2) as [q ->].
      apply IH. cbn. lia.
    + now split.
Qed.

Lemma unslash_run (p : string) :
  ∃ run, lead_run run ∧ p = run +:+ unslash p.
Proof.
  induction p as [p IH] using string_length_ind.
  rewrite unslash_eq.
  destruct (strings.HasPrefix p "./") eqn:H1.
  - destruct (HasPrefix_dotslash_inv p H1) as [q ->].
    destruct (IH q) as (run & Hrun & Heq); [cbn; lia|].
    exists ("./" +:+ run). split; [now constructor|].
    cbn [strings.drop]. rewrite strings_facts.app_assoc, <- Heq. reflexivity.
  - destruct (strings.HasPrefix p "/") eqn:H2.
    + destruct (HasPrefix_slash_inv p H2) as [q ->].
      destruct (IH q) as (run & Hrun & Heq); [cbn; lia|].
      exists ("/" +:+ run). split; [now constructor|].
      cbn [strings.drop]. rewrite strings_facts.app_assoc, <- Heq. reflexivity.
    + exists "". split; [constructor | reflexivity].
Qed.

Lemma unslash_fixed (q : string) :
  strings.HasPrefix q "./" = false -> strings.HasPrefix q "/" = false ->
  unslash q = q.
Proof. intros H1 H2. rewrite unslash_eq, H1, H2. reflexivity. Qed.

Lemma slash_fresh (q : string) :
  strings.HasPrefix q "./" = false -> strings.HasPrefix q "/" = false ->
  slash q = "./" +:+ q.
Proof. intros H1 H2. unfold slash. rewrite H1, H2. reflexivity. Qed.

Lemma slash_unslash_general (p : string) :
  slash (unslash p) = "./" +:+ unslash p.
Proof. destruct (unslash_no_prefix p). now apply slash_fresh. Qed.

End SlashUnslash.

(** C7 (as the code has it).  [slash] and [unslash] are functions defined
    on every string.  [slash (unslash p) = p] holds for the paths [./q]
    whose rest [q] begins with neither [./] nor [/]; for every path,
    [slash (unslash p)] is [./] followed by [unslash p].  [unslash p] is
    [p] without a run of leading [./] and [/] prefixes: the rest is kept
    as it is and begins with neither prefix. *)
Theorem C7_slash_unslash :
  (∀ p, ∃ q r, slash p = q ∧ unslash p = r)
  ∧ (∀ q, strings.HasPrefix q "./" = false ->
          strings.HasPrefix q "/" = false ->
          slash (unslash ("./" +:+ q)) = "./" +:+ q)
  ∧ (∀ p, slash (unslash p) = "./" +:+ unslash p)
  ∧ (∀ p, ∃ run, lead_run run ∧ p = run +:+ unslash p
                 ∧ strings.HasPrefix (unslash p) "./" = false
                 ∧ strings.HasPrefix (unslash p) "/" = false).
Proof.
  repeat split.
  - intros p. eauto.
  - intros q H1 H2.
    assert (unslash ("./" +:+ q) = q) as ->.
    { rewrite unslash_eq, HasPrefix_app. cbn [strings.drop].
      now apply unslash_fixed. }
    now apply slash_fresh.
  - apply slash_unslash_general.
  - intros p. destruct (unslash_run p) as (run & Hrun & Heq).
    destruct (unslash_no_prefix p) as [H1 H2]. eauto.
Qed.

Lemma C7_slash_unslash_witness :
  slash (unslash ("./" +:+ "foo/./bar")) = "./" +:+ "foo/./bar".
Proof.
  apply (proj1 (proj2 C7_slash_unslash) "foo/./bar"); reflexivity.
Defined.

(** C7 as stated fails: [././foo] begins with [./], and
    [slash (unslash "././foo")] is [./foo]. *)
Lemma C7_counterexample :
  ¬ (∀ p, strings.HasPrefix p "./" = true -> slash (unslash p) = p).
Proof.
  intros H. specialize (H "././foo" eq_refl). vm_compute in H. discriminate.
Qed.

(** ** Lexical cleaning of paths *)

Module path_facts.

#[local] Arguments String.concat _ _ : simpl never.

Lemma weight_app (l1 l2 : list string) :
  weight (l1 ++ l2) = (weight l1 + weight l2)%nat.
Proof. induction l1 as [|e l1 IH]; simpl; lia. Qed.

Lemma weight_rev (l : list string) : weight (rev l) = weight l.
Proof.
  induction l as [|e l IH]; [reflexivity|].
  simpl. rewrite weight_app, IH. simpl. lia.
Qed.

Lemma elements_not_nil (p : string) : path.elements p ≠ [].
Proof.
  destruct p as [|c p]; [discriminate|]. simpl.
  destruct (Ascii.eqb c "/"); [discriminate|].
  destruct (path.elements p); discriminate.
Qed.

Lemma elements_noSlash (p : string) : Forall noSlash (path.elements p).
Proof.
  induction p as [|c p IH]; simpl.
  - repeat constructor.
  - destruct (Ascii.eqb c "/") eqn:Hc.
    + constructor; [reflexivity | exact IH].
    + destruct (path.elements p) as [|e es].
      * repeat constructor. unfold noSlash. simpl. now rewrite Hc.
      * inversion IH; subst. constructor; [|assumption].
        unfold noSlash in *. simpl. now rewrite Hc.
Qed.

Lemma elements_weight (p : string) :
  weight (path.elements p) = S (String.length p).
Proof.
  induction p as [|c p IH]; [reflexivity|]. simpl.
  destruct (Ascii.eqb c "/").
  - simpl. now rewrite IH.
  - pose proof (elements_not_nil p) as Hne.
    destruct (path.elements p) as [|e es]; [congruence|].
    simpl in *. lia.
Qed.

Lemma elements_rooted (p : string) :
  path.elements (String "/" p) = "" :: path.elements p.
Proof. reflexivity. Qed.

Lemma step_cases (rooted : bool) (out : list string) (e : string) :
  path.step rooted out e = out
  ∨ path.step rooted out e = tl out
  ∨ (path.step rooted out e = ".." :: out ∧ e = ".." ∧ rooted = false)
  ∨ (path.step rooted out e = e :: out ∧ e ≠ "" ∧ e ≠ "." ∧ e ≠ "..").
Proof.
  unfold path.step.
  destruct (String.eqb_spec e ""); [now left|].
  destruct (String.eqb_spec e "."); [now left|].
  destruct (String.eqb_spec e "..").
  - destruct out as [|top out'].
    + destruct rooted; simpl; [now left | right; right; left; auto].
    + destruct (String.eqb top ".."); simpl; [|now right; left].
      destruct rooted; simpl; [now left | right; right; left; auto].
  - right; right; right. auto.
Qed.

Lemma dotdot_noSlash : noSlash "..".
Proof. reflexivity. Qed.

Lemma fold_step_weight (rooted : bool) (es out : list string) :
  (weight (fold_left (path.step rooted) es out) <= weight out + weight es)%nat.
Proof.
  revert out. induction es as [|e es IH]; intros out; simpl; [lia|].
  specialize (IH (path.step rooted out e)).
  destruct (step_cases rooted out e) as [H|[H|[[H [-> _]]|[H _]]]];
    rewrite H in *; simpl in *; try lia.
  destruct out; simpl in *; lia.
Qed.

Lemma fold_step_proper (rooted : bool) (es out : list string) :
  Forall noSlash es ->
  Forall (fun e => proper e ∧ (rooted = true -> e ≠ "..")) out ->
  Forall (fun e => proper e ∧ (rooted = true -> e ≠ ".."))
         (fold_left (path.step rooted) es out).
Proof.
  revert out. induction es as [|e es IH]; intros out Hes Hout; simpl;
    [assumption|].
  inversion Hes; subst. apply IH; [assumption|].
  destruct (step_cases rooted out e) as [H|[H|[[H [-> Hr]]|[H (?&?&?)]]]];
    rewrite H.
  - assumption.
  - destruct out; [assumption|]. now inversion Hout.
  - constructor; [|assumption]. split; [|congruence].
    repeat split; try discriminate.
  - constructor; [|assumption]. split; [repeat split; assumption|auto].
Qed.

Lemma cleanStack_proper (rooted : bool) (p : string) :
  Forall (fun e => proper e ∧ (rooted = true -> e ≠ ".."))
         (path.cleanStack rooted p).
Proof.
  unfold path.cleanStack. apply Forall_rev.
  apply fold_step_proper; [apply elements_noSlash | constructor].
Qed.

Lemma concat_cons (sep e : string) (l : list string) :
  l ≠ [] ->
  String.concat sep (e :: l) = e +:+ sep +:+ String.concat sep l.
Proof. destruct l; [congruence | reflexivity]. Qed.

Lemma concat_length (l : list string) :
  l ≠ [] -> S (String.length (String.concat "/" l)) = weight l.
Proof.
  induction l as [|e l IH]; [congruence|]. intros _.
  destruct l as [|e' l].
  - unfold String.concat. simpl. lia.
  - rewrite concat_cons by discriminate.
    rewrite !strings_facts.length_app. change (String.length "/") with 1%nat.
    change (weight (e :: e' :: l))
      with (S (String.length e) + weight (e' :: l))%nat.
    rewrite <- IH by discriminate. lia.
Qed.

Lemma concat_proper_head (l : list string) :
  Forall proper l -> l ≠ [] ->
  strings.HasPrefix (String.concat "/" l) "/" = false.
Proof.
  intros Hl Hne. destruct l as [|e l]; [congruence|].
  inversion Hl as [|? ? (He & _ & Hs) _]; subst.
  destruct e as [|c e]; [congruence|].
  assert (Ascii.eqb c "/" = false) as Hc.
  { unfold noSlash in Hs. simpl in Hs.
    destruct (Ascii.eqb c "/"); [discriminate | reflexivity]. }
  destruct l as [|e' l].
  - unfold String.concat. simpl. now rewrite Hc.
  - rewrite concat_cons by discriminate. rewrite strings_facts.app_cons.
    simpl. now rewrite Hc.
Qed.

(** [Clean] keeps a rooted path rooted and a relative path relative. *)
Lemma Clean_IsAbs (p : string) : path.IsAbs (path.Clean p) = path.IsAbs p.
Proof.
  unfold path.IsAbs, path.Clean.
  destruct (String.eqb_spec p "") as [->|Hp]; [reflexivity|].
  destruct (strings.HasPrefix p "/") eqn:Hr;
    [rewrite strings_facts.app_cons; reflexivity|].
  pose proof (cleanStack_proper false p) as Hst.
  destruct (path.cleanStack false p) as [|e l] eqn:E; [reflexivity|].
  apply concat_proper_head; [|discriminate].
  eapply Forall_impl; [exact Hst|]. now intros ? [? _].
Qed.

(** [Clean] never lengthens a path that is not empty. *)
Lemma Clean_length (p : string) :
  p ≠ "" -> (String.length (path.Clean p) <= String.length p)%nat.
Proof.
  intros Hp. unfold path.Clean.
  destruct (String.eqb_spec p "") as [|_]; [congruence|].
  destruct (strings.HasPrefix p "/") eqn:Hr.
  - destruct (HasPrefix_slash_inv p Hr) as [q ->].
    unfold path.cleanStack. rewrite elements_rooted.
    change (fold_left (path.step true) ("" :: path.elements q) [])
      with (fold_left (path.step true) (path.elements q) []).
    pose proof (fold_step_weight true (path.elements q) []) as Hw.
    rewrite elements_weight in Hw. rewrite <- weight_rev in Hw.
    destruct (rev (fold_left (path.step true) (path.elements q) []))
      as [|e l] eqn:E.
    + simpl. lia.
    + rewrite strings_facts.app_cons. simpl String.length.
      pose proof (concat_length (e :: l)) as Hc.
      rewrite strings_facts.app_nil_l.
      specialize (Hc ltac:(discriminate)). simpl weight in *. lia.
  - pose proof (fold_step_weight false (path.elements p) []) as Hw.
    rewrite elements_weight in Hw. rewrite <- weight_rev in Hw.
    unfold path.cleanStack.
    destruct (rev (fold_left (path.step false) (path.elements p) []))
      as [|e l] eqn:E.
    + destruct p; [congruence | simpl; lia].
    + pose proof (concat_length (e :: l)) as Hc.
      specialize (Hc ltac:(discriminate)). simpl weight in *. lia.
Qed.

End path_facts.

(** ** Configuration files *)

Lemma Clean_rooted_form (p : string) :
  path.IsAbs p = true ->
  ∃ elems, path.Clean p = "/" +:+ String.concat "/" elems
           ∧ Forall (fun e => e ≠ "" ∧ e ≠ "." ∧ e ≠ ".."
                              ∧ noSlash e) elems.
Proof.
  intros Hp. exists (path.cleanStack true p). split.
  - unfold path.Clean. unfold path.IsAbs in Hp. rewrite Hp.
    destruct (String.eqb_spec p "") as [->|]; [discriminate | reflexivity].
  - eapply Forall_impl; [apply path_facts.cleanStack_proper|].
    intros e [(H1 & H2 & H3) H4]. auto.
Qed.

(** C8.  [AddConffile] rejects the empty string, every relative path and
    every path whose cleaned form is the root, with an error and without
    change to the package.  An accepted path is stored in its cleaned
    form at the end of the list: a slash followed by elements separated by
    single slashes, none of them empty, [.] or [..].  Adding an accepted
    path a second time succeeds and stores it a second time. *)
Theorem C8_AddConffile (t : T) (pathname : string) :
  (pathname = "" ∨ path.IsAbs pathname = false ∨ path.Clean pathname = "/" ->
   ∃ e, AddConffile t pathname = (t, Some e))
  ∧ (path.IsAbs pathname = true -> path.Clean pathname ≠ "/" ->
     AddConffile t pathname
     = (mkT (fields t) (conffiles t ++ [path.Clean pathname]) (scripts t)
            (files t), None)
     ∧ ∃ elems, elems ≠ []
         ∧ path.Clean pathname = "/" +:+ String.concat "/" elems
         ∧ Forall (fun e => e ≠ "" ∧ e ≠ "." ∧ e ≠ ".."
                            ∧ noSlash e) elems)
  ∧ (∀ t1, AddConffile t pathname = (t1, None) ->
     ∃ t2, AddConffile t1 pathname = (t2, None)
           ∧ conffiles t2
             = conffiles t ++ [path.Clean pathname; path.Clean pathname]).
Proof.
  unfold AddConffile. rewrite path_facts.Clean_IsAbs.
  split; [|split].
  - intros [->|[H|H]].
    + eexists. reflexivity.
    + rewrite H. eexists. reflexivity.
    + destruct (path.IsAbs pathname); simpl; [|eexists; reflexivity].
      rewrite H. eexists. reflexivity.
  - intros Habs Hroot. rewrite Habs. simpl.
    destruct (String.eqb_spec (path.Clean pathname) "/") as [|_];
      [contradiction|].
    split; [reflexivity|].
    destruct (Clean_rooted_form pathname Habs) as (elems & Heq & Hall).
    exists elems. repeat split; try assumption.
    intros ->. apply Hroot. rewrite Heq. reflexivity.
  - intros t1. destruct (path.IsAbs pathname); simpl; [|discriminate].
    destruct (String.eqb (path.Clean pathname) "/"); [discriminate|].
    intros [= <-]. eexists. split; [reflexivity|].
    simpl. now rewrite <- app_assoc.
Qed.

Lemma C8_AddConffile_witness :
  (∃ e, AddConffile New "etc/foo.conf" = (New, Some e))
  ∧ AddConffile New "/etc/foo/../bar.conf"
    = (mkT ∅ ["/etc/bar.conf"] ∅ ∅, None).
Proof.
  split.
  - apply (proj1 (C8_AddConffile New "etc/foo.conf")).
    right; left. reflexivity.
  - apply (proj1 (proj2 (C8_AddConffile New "/etc/foo/../bar.conf"))).
    + reflexivity.
    + discriminate.
Defined.

(** ** Adding files *)

Section AddFileFacts.

Variable encode : Data -> string.

Lemma AddFile_rec_eq fuel clock t dir info r :
  AddFile_rec encode fuel clock t dir (Some info) r =
    let '(t1, err) := addDirStep encode fuel clock t dir in
    match err with
    | Some e =>
        if decide (e = ErrExist) then addFileEntry encode t1 dir info r
        else (t1, Some (errorString ("Unable to add directory '" +:+ dir
                                     +:+ "': " +:+ Error e)))
    | None => addFileEntry encode t1 dir info r
    end.
Proof. destruct fuel; reflexivity. Qed.

Lemma extends_refl t : extends t t.
Proof. repeat split; auto. Qed.

Lemma extends_trans t1 t2 t3 : extends t1 t2 -> extends t2 t3 -> extends t1 t3.
Proof.
  intros (A1 & A2 & A3 & A4) (B1 & B2 & B3 & B4).
  repeat split; try congruence. auto.
Qed.

Lemma insertFile_spec t f t' err :
  insertFile t f = (t', err) ->
  (t' = t ∧ err = Some ErrExist ∧ is_Some (files t !! tar.Name (header f)))
  ∨ (err = None ∧ files t !! tar.Name (header f) = None
     ∧ t' = mkT (fields t) (conffiles t) (scripts t)
                (<[tar.Name (header f) := f]> (files t))).
Proof.
  unfold insertFile. destruct (files t !! tar.Name (header f)) eqn:E;
    intros [= <- <-]; [left | right]; eauto.
Qed.

Lemma insertFile_extends t f t' err :
  insertFile t f = (t', err) -> extends t t'.
Proof.
  intros H. apply insertFile_spec in H as [(-> & _)|(_ & Hn & ->)].
  - apply extends_refl.
  - repeat split; simpl. intros p g Hp.
    rewrite lookup_insert_ne; [assumption | congruence].
Qed.

Lemma insertFile_new t f t' err p g :
  insertFile t f = (t', err) ->
  files t' !! p = Some g -> files t !! p = None -> g = f ∧ err = None.
Proof.
  intros H Hp Hn. apply insertFile_spec in H as [(-> & _)|(-> & _ & ->)].
  - congruence.
  - simpl in Hp. destruct (decide (tar.Name (header f) = p)) as [<-|Hne].
    + rewrite lookup_insert_eq in Hp. split; congruence.
    + rewrite lookup_insert_ne in Hp by assumption. congruence.
Qed.

(** [addFileEntry] changes nothing and fails, or goes on to the lookup
    and the insertion under the key. *)
Lemma addFileEntry_cases t dir info r t' err :
  addFileEntry encode t dir info r = (t', err) ->
  (t' = t ∧ is_Some err)
  ∨ (∃ f, insertFile t f = (t', err)
          ∧ fileKey dir info = Some (tar.Name (header f))).
Proof.
  unfold addFileEntry, fileKey.
  destruct (FileInfoHeader info "/") as [h|e] eqn:Hh;
    [|intros [= <- <-]; left; eauto].
  cbn [tar.Typeflag tar.setName].
  destruct (decide (tar.Typeflag h = tar.TypeReg
                    ∨ tar.Typeflag h = tar.TypeRegA)) as [Hreg|Hreg].
  { assert (tar.Typeflag h ≠ tar.TypeDir) as Hnd
      by (intros E; rewrite E in Hreg; destruct Hreg; discriminate).
    destruct r as [[content|e]|]; try (intros [= <- <-]; left; eauto).
    intros H. right. eexists. split; [exact H|].
    simpl. now destruct (decide (tar.Typeflag h = tar.TypeDir)). }
  destruct (decide (tar.Typeflag h = tar.TypeSymlink)) as [Hsym|Hsym].
  { assert (tar.Typeflag h ≠ tar.TypeDir) as Hnd
      by (intros E; rewrite E in Hsym; discriminate).
    destruct r as [[content|e]|]; try (intros [= <- <-]; left; eauto).
    intros H. right. eexists. split; [exact H|].
    simpl. now destruct (decide (tar.Typeflag h = tar.TypeDir)). }
  destruct (decide (tar.Typeflag h = tar.TypeDir)) as [Hdir|Hdir];
    intros H; right; eexists; (split; [exact H | reflexivity]).
Qed.

(** With a usable reader [addFileEntry] always reaches the lookup. *)
Lemma addFileEntry_usable t dir info r key :
  fileKey dir info = Some key -> readerUsable info r ->
  ∃ f, addFileEntry encode t dir info r = insertFile t f
       ∧ tar.Name (header f) = key.
Proof.
  unfold addFileEntry, fileKey, readerUsable.
  destruct (FileInfoHeader info "/") as [h|e] eqn:Hh; [|discriminate].
  cbn [tar.Typeflag tar.setName]. intros [= <-] Hr.
  destruct (decide (tar.Typeflag h = tar.TypeReg
                    ∨ tar.Typeflag h = tar.TypeRegA)) as [Hreg|Hreg].
  { assert (tar.Typeflag h ≠ tar.TypeDir) as Hnd
      by (intros E; rewrite E in Hreg; destruct Hreg; discriminate).
    destruct Hr as [content ->]; [tauto|].
    eexists. split; [reflexivity|].
    simpl. now destruct (decide (tar.Typeflag h = tar.TypeDir)). }
  destruct (decide (tar.Typeflag h = tar.TypeSymlink)) as [Hsym|Hsym].
  { assert (tar.Typeflag h ≠ tar.TypeDir) as Hnd
      by (intros E; rewrite E in Hsym; discriminate).
    destruct Hr as [content ->]; [tauto|].
    eexists. split; [reflexivity|].
    simpl. now destruct (decide (tar.Typeflag h = tar.TypeDir)). }
  destruct (decide (tar.Typeflag h = tar.TypeDir)) as [Hdir|Hdir];
    eexists; (split; [reflexivity | reflexivity]).
Qed.

Lemma addFileEntry_dir t updir basename now :
  addFileEntry encode t updir
    (HeaderFileInfo (directoryHeader basename now)) None
  = insertFile t (mkFile (addedDirHeader updir basename now) None).
Proof. reflexivity. Qed.

Lemma addsDirs_refl t : addsDirs t t.
Proof. split; [apply extends_refl | congruence]. Qed.

Lemma addsDirs_trans t1 t2 t3 :
  addsDirs t1 t2 -> addsDirs t2 t3 -> addsDirs t1 t3.
Proof.
  intros [E1 D1] [E2 D2]. split; [eapply extends_trans; eassumption|].
  intros p f H3 H1. destruct (files t2 !! p) as [g|] eqn:H2.
  - destruct E2 as (_ & _ & _ & E2). rewrite (E2 _ _ H2) in H3.
    injection H3 as <-. eauto.
  - eauto.
Qed.

Lemma insertFile_addsDirs t f t' err :
  isDirEntry f -> insertFile t f = (t', err) -> addsDirs t t'.
Proof.
  intros Hf H. split; [eapply insertFile_extends; eassumption|].
  intros p g Hp Hn.
  destruct (insertFile_new _ _ _ _ _ _ H Hp Hn) as [-> _]. exact Hf.
Qed.

Lemma addedDir_isDirEntry updir basename now :
  isDirEntry (mkFile (addedDirHeader updir basename now) None).
Proof. repeat split. Qed.

(** The directory step only adds directories. *)
Lemma addDirStep_addsDirs fuel :
  ∀ clock t dir t' err,
    addDirStep encode fuel clock t dir = (t', err) -> addsDirs t t'.
Proof.
  induction fuel as [|fuel IH]; intros clock t dir t' err; simpl.
  - intros [= <- <-]. apply addsDirs_refl.
  - unfold addDir. destruct (path.Split (path.Clean dir)) as [updir base].
    destruct (String.eqb updir "");
      [intros [= <- <-]; apply addsDirs_refl|].
    destruct (String.eqb base "");
      [intros [= <- <-]; apply addsDirs_refl|].
    rewrite AddFile_rec_eq.
    destruct (addDirStep encode fuel (fun n => clock (S n)) t updir)
      as [t1 e1] eqn:E1.
    apply IH in E1. rewrite addFileEntry_dir.
    assert (∀ t' err,
      insertFile t1 (mkFile (addedDirHeader updir base (clock 0%nat)) None)
      = (t', err) -> addsDirs t t') as Hins.
    { intros t2 e2 H2. eapply addsDirs_trans; [exact E1|].
      eapply insertFile_addsDirs; [apply addedDir_isDirEntry | exact H2]. }
    destruct e1 as [e|]; [|apply Hins].
    destruct (decide (e = ErrExist)); [apply Hins|].
    intros [= <- <-]. exact E1.
Qed.

Lemma take_drop (n : nat) (p : string) :
  strings.take n p +:+ strings.drop n p = p.
Proof.
  revert p. induction n as [|n IH]; intros [|c p]; try reflexivity.
  simpl. rewrite strings_facts.app_cons. now rewrite IH.
Qed.

Lemma Split_app (p d b : string) : path.Split p = (d, b) -> p = d +:+ b.
Proof.
  unfold path.Split. destruct (path.LastIndexByte p "/") as [i|].
  - intros [= <- <-]. symmetry. apply (take_drop (S i) p).
  - intros [= <- <-]. reflexivity.
Qed.

Lemma Split_IsAbs (p d b : string) :
  path.IsAbs p = true -> path.Split p = (d, b) -> path.IsAbs d = true.
Proof.
  intros Hp. destruct (HasPrefix_slash_inv p Hp) as [q ->].
  unfold path.Split. simpl.
  destruct (path.LastIndexByte q "/"); intros [= <- <-]; reflexivity.
Qed.

(** The parent directory that [addDir] recurses on is shorter. *)
Lemma Split_Clean_shorter (dir updir base : string) :
  path.Split (path.Clean dir) = (updir, base) ->
  updir ≠ "" -> base ≠ "" ->
  (String.length updir < String.length dir)%nat.
Proof.
  intros HS Hu Hb. pose proof (Split_app _ _ _ HS) as Happ.
  assert (String.length updir < String.length (path.Clean dir))%nat as Hlt.
  { rewrite Happ, strings_facts.length_app. destruct base; [congruence|].
    simpl. lia. }
  destruct (String.eqb_spec dir "") as [->|Hd].
  - vm_compute in HS. injection HS as <- <-. congruence.
  - pose proof (path_facts.Clean_length dir Hd). lia.
Qed.

(** The bound of [AddFile] is enough: a larger one changes nothing. *)
Lemma AddFile_rec_fuel (n : nat) :
  ∀ m clock t dir info r,
    (String.length dir < n)%nat -> (String.length dir < m)%nat ->
    AddFile_rec encode n clock t dir info r
    = AddFile_rec encode m clock t dir info r.
Proof.
  induction n as [|n IH]; intros m clock t dir info r Hn Hm; [lia|].
  destruct m as [|m]; [lia|]. destruct info as [info|]; [|reflexivity].
  rewrite !AddFile_rec_eq. simpl. unfold addDir.
  destruct (path.Split (path.Clean dir)) as [updir base] eqn:HS.
  destruct (String.eqb_spec updir ""); [reflexivity|].
  destruct (String.eqb_spec base ""); [reflexivity|].
  pose proof (Split_Clean_shorter _ _ _ HS ltac:(assumption)
                ltac:(assumption)).
  rewrite (IH m) by lia. reflexivity.
Qed.

Lemma AddFile_fuel (fuel : nat) clock t dir info r :
  (String.length dir < fuel)%nat ->
  AddFile_rec encode fuel clock t dir info r
  = AddFile encode clock t dir info r.
Proof. intros H. unfold AddFile. apply AddFile_rec_fuel; lia. Qed.

(** On an absolute directory the directory step succeeds or finds the
    directory present. *)
Lemma addDirStep_abs (fuel : nat) :
  ∀ clock t dir t' err,
    path.IsAbs dir = true -> (String.length dir < fuel)%nat ->
    addDirStep encode fuel clock t dir = (t', err) ->
    err = None ∨ err = Some ErrExist.
Proof.
  induction fuel as [|fuel IH]; intros clock t dir t' err Habs Hlen; [lia|].
  simpl. unfold addDir.
  destruct (path.Split (path.Clean dir)) as [updir base] eqn:HS.
  assert (path.IsAbs updir = true) as Hup.
  { eapply Split_IsAbs; [|exact HS]. now rewrite path_facts.Clean_IsAbs. }
  destruct (String.eqb_spec updir "") as [->|Hu]; [discriminate|].
  destruct (String.eqb_spec base "") as [->|Hb]; [intros [= <- <-]; auto|].
  pose proof (Split_Clean_shorter _ _ _ HS Hu Hb).
  rewrite AddFile_rec_eq.
  destruct (addDirStep encode fuel (fun n => clock (S n)) t updir)
    as [t1 e1] eqn:E1.
  apply IH in E1; [|assumption|lia].
  rewrite addFileEntry_dir.
  assert (∀ t' err,
    insertFile t1 (mkFile (addedDirHeader updir base (clock 0%nat)) None)
    = (t', err) -> err = None ∨ err = Some ErrExist) as Hins.
  { intros t2 e2 H2.
    apply insertFile_spec in H2 as [(_ & -> & _)|(-> & _)]; auto. }
  destruct E1 as [->| ->]; [apply Hins|].
  destruct (decide (ErrExist = ErrExist)); [apply Hins | congruence].
Qed.

End AddFileFacts.

(** *** Directories that are present *)

Section Ancestors.

Variable encode : Data -> string.

#[local] Arguments String.concat _ _ : simpl never.

Lemma cleanStack_plain (p : string) : Forall plain (path.cleanStack true p).
Proof.
  eapply Forall_impl; [apply path_facts.cleanStack_proper|].
  intros e [(H1 & H2 & H3) H4]. repeat split; auto.
Qed.

Lemma Clean_rooted (p : string) :
  path.IsAbs p = true -> path.Clean p = render (path.cleanStack true p).
Proof.
  intros Hp. unfold path.Clean, render. unfold path.IsAbs in Hp. rewrite Hp.
  destruct (String.eqb_spec p "") as [->|]; [discriminate | reflexivity].
Qed.

Lemma elements_app (x y : string) :
  path.elements (x +:+ "/" +:+ y) = path.elements x ++ path.elements y.
Proof.
  induction x as [|c x IH]; [reflexivity|].
  rewrite strings_facts.app_cons. simpl. rewrite IH.
  destruct (Ascii.eqb c "/"); [reflexivity|].
  pose proof (path_facts.elements_not_nil x).
  destruct (path.elements x); [congruence | reflexivity].
Qed.

Lemma elements_noSlash_id (c : string) :
  noSlash c -> path.elements c = [c].
Proof.
  unfold noSlash. induction c as [|a c IH]; [reflexivity|].
  simpl. destruct (Ascii.eqb a "/"); [discriminate|].
  intros H. now rewrite IH.
Qed.

Lemma step_plain (rooted : bool) (out : list string) (e : string) :
  plain e -> path.step rooted out e = e :: out.
Proof.
  intros (H1 & H2 & H3 & _). unfold path.step.
  destruct (String.eqb_spec e ""); [congruence|].
  destruct (String.eqb_spec e "."); [congruence|].
  destruct (String.eqb_spec e ".."); [congruence|]. reflexivity.
Qed.

Lemma cleanStack_app (x y : string) :
  path.cleanStack true (x +:+ "/" +:+ y)
  = rev (fold_left (path.step true) (path.elements y)
                   (rev (path.cleanStack true x))).
Proof.
  unfold path.cleanStack. rewrite elements_app, fold_left_app.
  now rewrite List.rev_involutive.
Qed.

(** Appending a name to a path appends it to the cleaned elements. *)
Lemma cleanStack_snoc (x c : string) :
  plain c ->
  path.cleanStack true (x +:+ "/" +:+ c) = path.cleanStack true x ++ [c].
Proof.
  intros Hc. rewrite cleanStack_app.
  rewrite elements_noSlash_id by apply Hc. simpl.
  rewrite step_plain by assumption. simpl. rewrite List.rev_involutive. reflexivity.
Qed.

(** A slash at the end changes nothing. *)
Lemma cleanStack_slash (x : string) :
  path.cleanStack true (x +:+ "/") = path.cleanStack true x.
Proof.
  rewrite <- (strings_facts.app_empty_r (x +:+ "/")), strings_facts.app_assoc.
  rewrite cleanStack_app. simpl fold_left.
  change (path.step true (rev (path.cleanStack true x)) "")
    with (rev (path.cleanStack true x)).
  now rewrite List.rev_involutive.
Qed.

Lemma LastIndexByte_noSlash (c : string) :
  noSlash c -> path.LastIndexByte c "/" = None.
Proof.
  unfold noSlash. induction c as [|a c IH]; [reflexivity|].
  simpl. destruct (Ascii.eqb a "/"); [discriminate|].
  intros H. now rewrite IH.
Qed.

Lemma LastIndexByte_app (x c : string) :
  noSlash c ->
  path.LastIndexByte (x +:+ "/" +:+ c) "/" = Some (String.length x).
Proof.
  intros Hc. induction x as [|a x IH].
  - rewrite strings_facts.app_nil_l. change ("/" +:+ c) with (String "/" c).
    simpl. now rewrite LastIndexByte_noSlash.
  - rewrite strings_facts.app_cons. simpl. now rewrite IH.
Qed.

Lemma take_app_length (x y : string) :
  strings.take (String.length x) (x +:+ y) = x.
Proof.
  induction x as [|a x IH]; [now destruct y|].
  rewrite strings_facts.app_cons. simpl. now rewrite IH.
Qed.

Lemma drop_app_length (x y : string) :
  strings.drop (String.length x) (x +:+ y) = y.
Proof.
  induction x as [|a x IH]; [reflexivity|].
  rewrite strings_facts.app_cons. simpl. exact IH.
Qed.

Lemma Split_snoc (x c : string) :
  noSlash c -> path.Split (x +:+ "/" +:+ c) = (x +:+ "/", c).
Proof.
  intros Hc. unfold path.Split. rewrite LastIndexByte_app by assumption.
  assert (S (String.length x) = String.length (x +:+ "/")) as ->
    by (rewrite strings_facts.length_app; simpl; lia).
  rewrite <- strings_facts.app_assoc.
  now rewrite take_app_length, drop_app_length.
Qed.

Lemma concat_snoc (st : list string) (c : string) :
  st ≠ [] ->
  String.concat "/" (st ++ [c]) = String.concat "/" st +:+ "/" +:+ c.
Proof.
  induction st as [|e st IH]; [congruence|]. intros _.
  destruct st as [|e' st]; [reflexivity|].
  change ((e :: e' :: st) ++ [c]) with (e :: ((e' :: st) ++ [c])).
  rewrite path_facts.concat_cons by (destruct st; discriminate).
  rewrite IH by discriminate.
  rewrite (path_facts.concat_cons "/" e (e' :: st)) by discriminate.
  now rewrite !strings_facts.app_assoc.
Qed.

Lemma render_snoc (st : list string) (c : string) :
  render (st ++ [c]) = parentPath st +:+ "/" +:+ c.
Proof.
  unfold render, parentPath. destruct st as [|e st]; [reflexivity|].
  rewrite concat_snoc by discriminate. unfold render.
  now rewrite !strings_facts.app_assoc.
Qed.

Lemma cleanStack_parentPath (st : list string) :
  Forall plain st -> path.cleanStack true (parentPath st) = st.
Proof.
  induction st as [|c st IH] using rev_ind; intros Hst; [reflexivity|].
  apply Forall_app in Hst as [Hst Hc]. inversion Hc as [|? ? Hc' _]; subst.
  assert (parentPath (st ++ [c]) = render (st ++ [c])) as ->
    by (unfold parentPath; destruct st; reflexivity).
  rewrite render_snoc, cleanStack_snoc by assumption.
  now rewrite IH.
Qed.

Lemma cleanStack_render (st : list string) :
  Forall plain st -> path.cleanStack true (render st) = st.
Proof.
  intros Hst. destruct st as [|e st]; [reflexivity|].
  now apply (cleanStack_parentPath (e :: st)).
Qed.

Lemma stripTrailingSlashes_plain (c : string) :
  c ≠ "" -> noSlash c -> path.stripTrailingSlashes c = c.
Proof.
  unfold noSlash. induction c as [|a c IH]; [congruence|].
  intros _ Hns. simpl in Hns.
  destruct (Ascii.eqb a "/") eqn:Ha; [discriminate|].
  destruct c as [|b c].
  - simpl. now rewrite Ha.
  - change (path.stripTrailingSlashes (String a (String b c)))
      with (match path.stripTrailingSlashes (String b c) with
            | EmptyString => if Ascii.eqb a "/" then EmptyString
                             else String a EmptyString
            | rest' => String a rest'
            end).
    rewrite IH by (congruence || assumption). reflexivity.
Qed.

Lemma Base_plain (c : string) : plain c -> path.Base c = c.
Proof.
  intros (H1 & _ & _ & H4). unfold path.Base.
  destruct (String.eqb_spec c ""); [congruence|].
  rewrite stripTrailingSlashes_plain by assumption.
  rewrite LastIndexByte_noSlash by assumption.
  destruct (String.eqb_spec c ""); [congruence | reflexivity].
Qed.

Lemma HasPrefix_noSlash (c : string) :
  noSlash c -> strings.HasPrefix c "/" = false.
Proof.
  unfold noSlash. destruct c as [|a c]; [reflexivity|].
  simpl. destruct (Ascii.eqb a "/"); [discriminate | reflexivity].
Qed.

Lemma Clean_plain (c : string) : plain c -> path.Clean c = c.
Proof.
  intros Hc. pose proof Hc as (H1 & _ & _ & H4). unfold path.Clean.
  destruct (String.eqb_spec c ""); [congruence|].
  rewrite HasPrefix_noSlash by assumption.
  unfold path.cleanStack. rewrite elements_noSlash_id by assumption.
  simpl. rewrite step_plain by assumption. reflexivity.
Qed.

Lemma snoc_case {A} (l : list A) : l = [] ∨ ∃ l' x, l = l' ++ [x].
Proof. induction l using rev_ind; [left | right]; eauto. Qed.

Lemma parentPath_slash_IsAbs (st : list string) :
  path.IsAbs (parentPath st +:+ "/") = true.
Proof. destruct st; reflexivity. Qed.

Lemma Join_parent (st : list string) (c : string) :
  Forall plain st -> plain c ->
  path.Join (parentPath st +:+ "/") c = render (st ++ [c]).
Proof.
  intros Hst Hc. unfold path.Join.
  assert (String.eqb (parentPath st +:+ "/") "" = false) as ->.
  { apply String.eqb_neq. intros H.
    apply (f_equal String.length) in H.
    rewrite strings_facts.length_app in H. simpl in H. lia. }
  cbn [andb].
  assert (path.IsAbs ((parentPath st +:+ "/") +:+ "/" +:+ c) = true) as Habs
    by (destruct st; reflexivity).
  rewrite (Clean_rooted _ Habs). f_equal.
  rewrite cleanStack_snoc by assumption. f_equal.
  rewrite cleanStack_slash. now apply cleanStack_parentPath.
Qed.

(** When the directories are present, the directory step finds them and
    leaves the package as it is. *)
Lemma addDirStep_present (fuel : nat) :
  ∀ clock t dir,
    path.IsAbs dir = true -> (String.length dir < fuel)%nat ->
    ancestorsPresent t dir ->
    addDirStep encode fuel clock t dir = (t, Some ErrExist).
Proof.
  induction fuel as [|fuel IH]; intros clock t dir Habs Hlen Hpres; [lia|].
  simpl. unfold addDir.
  destruct (path.Split (path.Clean dir)) as [updir base] eqn:HS.
  pose proof (cleanStack_plain dir) as Hplain.
  unfold ancestorsPresent in Hpres.
  rewrite (Clean_rooted dir Habs) in HS.
  destruct (snoc_case (path.cleanStack true dir)) as [E|(st & c & E)];
    rewrite E in *.
  - vm_compute in HS. injection HS as <- <-. reflexivity.
  - apply Forall_app in Hplain as [Hst Hc].
    inversion Hc as [|? ? Hc' _]; subst.
    rewrite render_snoc, Split_snoc in HS by apply Hc'.
    injection HS as <- <-.
    destruct (String.eqb_spec (parentPath st +:+ "/") "") as [H|Hu].
    { apply (f_equal String.length) in H.
      rewrite strings_facts.length_app in H. simpl in H. lia. }
    destruct (String.eqb_spec c "") as [H|Hb]; [now destruct Hc'|].
    assert (path.Split (path.Clean dir) = (parentPath st +:+ "/", c)) as HS.
    { rewrite (Clean_rooted dir Habs), E, render_snoc.
      apply Split_snoc, Hc'. }
    pose proof (Split_Clean_shorter _ _ _ HS Hu Hb) as Hshort.
    rewrite AddFile_rec_eq.
    rewrite IH; [| apply parentPath_slash_IsAbs | lia |].
    + destruct (decide (ErrExist = ErrExist)); [|congruence].
      rewrite addFileEntry_dir. unfold insertFile, addedDirHeader. simpl.
      rewrite Clean_plain, Base_plain, Join_parent by assumption.
      destruct (Hpres (length (st ++ [c]))) as [f Hf].
      { rewrite length_app. simpl. lia. }
      rewrite firstn_all in Hf. unfold dirKey in Hf. rewrite Hf.
      reflexivity.
    + unfold ancestorsPresent.
      rewrite cleanStack_slash, cleanStack_parentPath by assumption.
      intros n Hn. specialize (Hpres n).
      rewrite length_app in Hpres. simpl in Hpres.
      rewrite take_app_le in Hpres by lia. apply Hpres. lia.
Qed.

End Ancestors.

(** ** The control file *)

Section ControlText.

Lemma isMandatory_cons (y : string) (l : list string) (x : string) :
  isMandatory (y :: l) x =
    if String.ltb y x then isMandatory l x else String.eqb y x.
Proof.
  unfold isMandatory. simpl. destruct (String.ltb y x); reflexivity.
Qed.

Lemma isMandatory_elem (l : list string) (x : string) :
  isMandatory l x = true -> x ∈ l.
Proof.
  induction l as [|y l IH]; [discriminate|].
  rewrite isMandatory_cons. destruct (String.ltb y x).
  - intros H. right. auto.
  - intros H. apply String.eqb_eq in H. subst. left.
Qed.

Lemma sorted_mandatoryFields :
  sort.Strings mandatoryFields
  = [ControlArch; ControlDesc; ControlMaintainer; ControlPackage;
     ControlVersion].
Proof. vm_compute. reflexivity. Qed.

Lemma isMandatory_spec (x : string) :
  isMandatory (sort.Strings mandatoryFields) x = true
  <-> x ∈ mandatoryFields.
Proof.
  split.
  - intros H. apply isMandatory_elem in H.
    rewrite sorted_mandatoryFields in H. unfold mandatoryFields.
    apply list_elem_of_In. apply list_elem_of_In in H.
    simpl in *. tauto.
  - unfold mandatoryFields. intros H.
    repeat (apply elem_of_cons in H as [->|H]; [vm_compute; reflexivity|]).
    now apply elem_of_nil in H.
Qed.

Lemma writeRemaining_spec (sorted : list string)
    (kvs : list (string * string)) (buf : string) :
  writeRemaining sorted kvs buf
  = buf +:+ fieldText
              (filter (fun kv => isMandatory sorted kv.1 = false) kvs).
Proof.
  unfold writeRemaining. revert buf.
  induction kvs as [|kv kvs IH]; intros buf; simpl.
  - now rewrite strings_facts.app_empty_r.
  - rewrite IH. rewrite filter_cons.
    destruct (isMandatory sorted kv.1) eqn:E.
    + rewrite decide_False by discriminate. reflexivity.
    + rewrite decide_True by reflexivity. simpl.
      now rewrite strings_facts.app_assoc.
Qed.

Lemma range_map_to_list {A} (m : gmap string A) :
  range m (map_to_list m).*1 = map_to_list m.
Proof.
  unfold range.
  assert (∀ l : list (string * A),
            (∀ k v, (k, v) ∈ l -> m !! k = Some v) ->
            omap (fun k => (fun v => (k, v)) <$> m !! k) l.*1 = l) as H.
  { induction l as [|[k v] l IH]; intros Hl; [reflexivity|].
    simpl. rewrite (Hl k v) by left. simpl. f_equal.
    apply IH. intros k' v' Hin. apply Hl. now right. }
  apply H. intros k v. apply elem_of_map_to_list.
Qed.

(** A walk over the keys visits the pairs of the map, each once. *)
Lemma range_Permutation {A} (m : gmap string A) (order : list string) :
  range_order m order -> range m order ≡ₚ map_to_list m.
Proof.
  unfold range_order. intros H.
  transitivity (range m (map_to_list m).*1).
  - unfold range. now rewrite H.
  - now rewrite range_map_to_list.
Qed.

Lemma filter_mandatory (kvs : list (string * string)) :
  filter (fun kv => isMandatory (sort.Strings mandatoryFields) kv.1 = false)
         kvs
  = filter (fun kv => kv.1 ∉ mandatoryFields) kvs.
Proof.
  apply list_filter_iff. intros kv.
  rewrite <- isMandatory_spec.
  destruct (isMandatory (sort.Strings mandatoryFields) kv.1); split;
    congruence.
Qed.

End ControlText.

(** C4 (as the code has it).  The control file of a package with the five
    mandatory fields begins with their lines, [Name: value] each, in the
    fixed order Package, Version, Architecture, Maintainer, Description.
    The lines of the remaining fields follow, one for each field, in the
    order in which the runtime walks the field map for this serialization.
    Two serializations may differ in the order of these lines, and only in
    it: they agree when there is at most one field that is not
    mandatory. *)
Theorem C4_controlText (t : T) (order : list string)
    (vP vV vA vM vD : string) :
  range_order (fields t) order ->
  fields t !! ControlPackage = Some vP ->
  fields t !! ControlVersion = Some vV ->
  fields t !! ControlArch = Some vA ->
  fields t !! ControlMaintainer = Some vM ->
  fields t !! ControlDesc = Some vD ->
  ∃ rest,
    controlText t order = inl (mandatoryText vP vV vA vM vD +:+ fieldText rest)
    ∧ rest = filter (fun kv => kv.1 ∉ mandatoryFields)
                    (range (fields t) order)
    ∧ rest ≡ₚ filter (fun kv => kv.1 ∉ mandatoryFields)
                     (map_to_list (fields t))
    ∧ ((length (filter (fun kv => kv.1 ∉ mandatoryFields)
                       (map_to_list (fields t))) <= 1)%nat ->
       ∀ order', range_order (fields t) order' ->
                 controlText t order' = controlText t order).
Proof.
  intros Horder HP HV HA HM HD.
  assert (∀ o, controlText t o
               = inl (mandatoryText vP vV vA vM vD
                      +:+ fieldText (filter (fun kv => kv.1 ∉ mandatoryFields)
                                            (range (fields t) o)))) as Htext.
  { intros o. unfold controlText, mandatoryFields. simpl writeMandatory.
    rewrite HP, HV, HA, HM, HD. rewrite writeRemaining_spec.
    fold mandatoryFields. rewrite filter_mandatory.
    unfold mandatoryText. rewrite strings_facts.app_nil_l.
    now rewrite !strings_facts.app_assoc. }
  eexists. split; [apply Htext|]. split; [reflexivity|].
  split; [now rewrite (range_Permutation _ _ Horder)|].
  intros Hlen order' Horder'. rewrite !Htext. do 3 f_equal.
  pose proof (range_Permutation _ _ Horder) as P1.
  pose proof (range_Permutation _ _ Horder') as P2.
  assert (filter (fun kv => kv.1 ∉ mandatoryFields) (range (fields t) order')
          ≡ₚ filter (fun kv => kv.1 ∉ mandatoryFields) (range (fields t) order))
    as P by (now rewrite P1, P2).
  assert (length (filter (fun kv => kv.1 ∉ mandatoryFields)
                         (range (fields t) order)) <= 1)%nat as Hl
    by (now rewrite P1).
  destruct (filter (fun kv => kv.1 ∉ mandatoryFields) (range (fields t) order))
    as [|x [|y l]].
  - now apply Permutation_nil_r in P.
  - now apply Permutation_singleton_r in P.
  - simpl in Hl. lia.
Qed.

Lemma C4_order1_ok : range_order (fields C4_example.t0) C4_example.order1.
Proof. unfold range_order. apply (bool_decide_unpack _). vm_compute. exact I. Qed.

Lemma C4_order2_ok : range_order (fields C4_example.t0) C4_example.order2.
Proof. unfold range_order. apply (bool_decide_unpack _). vm_compute. exact I. Qed.

Lemma C4_controlText_witness :
  ∃ rest,
    controlText C4_example.t0 C4_example.order2
    = inl (mandatoryText "foo" "1.2.3" "all" "A <a@b.c>" "d"
           +:+ fieldText rest)
    ∧ rest = filter (fun kv => kv.1 ∉ mandatoryFields)
                    (range (fields C4_example.t0) C4_example.order2)
    ∧ rest ≡ₚ filter (fun kv => kv.1 ∉ mandatoryFields)
                     (map_to_list (fields C4_example.t0))
    ∧ ((length (filter (fun kv => kv.1 ∉ mandatoryFields)
                       (map_to_list (fields C4_example.t0))) <= 1)%nat ->
       ∀ order', range_order (fields C4_example.t0) order' ->
                 controlText C4_example.t0 order'
                 = controlText C4_example.t0 C4_example.order2).
Proof.
  apply (C4_controlText C4_example.t0 C4_example.order2).
  - exact C4_order2_ok.
  - reflexivity.
  - reflexivity.
  - reflexivity.
  - reflexivity.
  - reflexivity.
Defined.

(** C4 as stated fails: the package [t0] has the two further fields
    Depends and Homepage, and the two walks [order1] and [order2] of its
    field map give control files that differ. *)
Lemma C4_counterexample :
  ¬ (∀ (t : T) (order1 order2 : list string),
       range_order (fields t) order1 -> range_order (fields t) order2 ->
       controlText t order1 = controlText t order2).
Proof.
  intros H.
  specialize (H C4_example.t0 C4_example.order1 C4_example.order2
                C4_order1_ok C4_order2_ok).
  vm_compute in H. discriminate.
Qed.

(** ** Mandatory fields *)

Section Mandatory.

Variable encode : Data -> string.

Lemma writeMandatory_missing (flds : gmap string string)
    (names : list string) (buf : string) (field : string) :
  field ∈ names -> flds !! field = None ->
  ∃ e, writeMandatory flds names buf = inr e.
Proof.
  revert buf. induction names as [|n names IH]; intros buf Hin Hnone.
  - now apply elem_of_nil in Hin.
  - simpl. destruct (flds !! n) as [content|] eqn:E; [|eauto].
    apply elem_of_cons in Hin as [->|Hin]; [congruence|]. now apply IH.
Qed.

Lemma writeMandatory_present (flds : gmap string string)
    (names : list string) (buf : string) :
  (∀ field, field ∈ names -> is_Some (flds !! field)) ->
  ∃ text, writeMandatory flds names buf = inl text.
Proof.
  revert buf. induction names as [|n names IH]; intros buf Hall.
  - simpl. eauto.
  - simpl. destruct (Hall n ltac:(left)) as [content ->].
    apply IH. intros f Hf. apply Hall. now right.
Qed.

Lemma controlText_missing (t : T) (order : list string) (field : string) :
  field ∈ mandatoryFields -> fields t !! field = None ->
  ∃ e, controlText t order = inr e.
Proof.
  intros Hin Hnone. unfold controlText.
  destruct (writeMandatory_missing (fields t) mandatoryFields "" field
              Hin Hnone) as [e ->]. eauto.
Qed.

Lemma createControlArchive_missing (t : T) (o : Orders) (compress : bool)
    (modTime : Z) (field : string) :
  field ∈ mandatoryFields -> fields t !! field = None ->
  ∃ r e, createControlArchive encode t o compress modTime = (t, r, Some e).
Proof.
  intros Hin Hnone.
  destruct (controlText_missing t (fieldOrder o) field Hin Hnone) as [e He].
  unfold createControlArchive, fillControlArchive, addControl.
  rewrite He. simpl. eauto.
Qed.

Lemma Write_missing (t : T) (o : Orders) (now format : Z) (field : string) :
  field ∈ mandatoryFields -> fields t !! field = None ->
  ∃ e, Write encode t o now format = (t, inr e).
Proof.
  intros Hin Hnone. unfold Write.
  destruct (negb (Z.ldiff format formatGZip =? FormatTar)); [eauto|].
  unfold writeTar, writeControlArchive.
  destruct (createControlArchive_missing t o
              (Z.land format formatGZip =? 0) now field Hin Hnone)
    as (r & e & ->). destruct r. simpl. eauto.
Qed.

Lemma range_empty {A} (order : list string) :
  range (∅ : gmap string A) order = [].
Proof.
  unfold range. induction order as [|k order IH]; [reflexivity|].
  simpl. now rewrite lookup_empty.
Qed.

End Mandatory.

(** C5.  Producing the control sub-archive fails when one of the five
    mandatory fields is absent from the field map, and so does the write
    of the package.  Writing a package whose field map holds exactly the
    five mandatory fields, with no conffile, script or file, succeeds in
    both formats. *)
Theorem C5_mandatory_fields (encode : Data -> string) (t : T) (o : Orders) :
  (∀ field, field ∈ mandatoryFields -> fields t !! field = None ->
     (∀ compress modTime,
         ∃ r e, createControlArchive encode t o compress modTime
                = (t, r, Some e))
     ∧ (∀ now format, ∃ e, Write encode t o now format = (t, inr e)))
  ∧ (dom (fields t) = list_to_set mandatoryFields ->
     conffiles t = [] -> scripts t = ∅ -> files t = ∅ ->
     ∀ now format, format = FormatTar ∨ format = FormatTarGZip ->
       ∃ d, Write encode t o now format = (t, inl d)).
Proof.
  split.
  - intros field Hin Hnone. split.
    + intros compress modTime.
      now apply createControlArchive_missing with (field := field).
    + intros now format. now apply Write_missing with (field := field).
  - intros Hdom Hconf Hscripts Hfiles now format Hformat.
    assert (∃ text, controlText t (fieldOrder o) = inl text) as [text Htext].
    { unfold controlText.
      destruct (writeMandatory_present (fields t) mandatoryFields "")
        as [buf ->]; [|eauto].
      intros f Hf. apply elem_of_dom. rewrite Hdom.
      now apply elem_of_list_to_set. }
    destruct t as [flds confs scr fls]. simpl in *. subst confs scr fls.
    unfold Write, writeTar, writeControlArchive, createControlArchive,
      fillControlArchive, addControl, writeDataArchive, createDataArchive,
      fillDataArchive.
    rewrite Htext. simpl. rewrite !range_empty. simpl.
    rewrite !range_empty. change (sort.Strings ([] : list (string * file)).*1)
      with ([] : list string). simpl.
    destruct Hformat as [-> | ->]; simpl; eauto.
Qed.

Lemma C5_mandatory_fields_witness :
  (∃ e, Write C5_example.enc New C5_example.o 0 FormatTar = (New, inr e))
  ∧ (∃ d, Write C5_example.enc C5_example.t0 C5_example.o 0 FormatTarGZip
          = (C5_example.t0, inl d)).
Proof.
  split.
  - apply (proj1 (C5_mandatory_fields C5_example.enc New C5_example.o)
             ControlPackage).
    + vm_compute. constructor.
    + reflexivity.
  - apply (proj2 (C5_mandatory_fields C5_example.enc C5_example.t0
                    C5_example.o)).
    + apply (bool_decide_unpack _). vm_compute. exact I.
    + reflexivity.
    + reflexivity.
    + reflexivity.
    + right. reflexivity.
Defined.

(** ** Reading the outer container *)

Section ReadTar.

Variable encode : Data -> string.

#[local] Arguments AddField : simpl never.
#[local] Arguments AddConffile : simpl never.
#[local] Arguments AddScript : simpl never.
#[local] Arguments readControl : simpl never.
#[local] Arguments readConffiles : simpl never.
#[local] Arguments readControlArchive : simpl never.
#[local] Arguments readDataArchive : simpl never.
#[local] Arguments unslash : simpl never.
#[local] Arguments path.Clean : simpl never.
#[local] Arguments isRegular : simpl never.

Lemma AddField_files t name content t' err :
  AddField t name content = (t', err) -> files t' = files t.
Proof.
  unfold AddField. destruct (negb (allowedFieldNames name));
    [now intros [= <- <-]|].
  destruct (strings.ContainsRune _ _); [now intros [= <- <-]|].
  destruct (fields t !! name); now intros [= <- <-].
Qed.

Lemma AddConffile_files t pathname t' err :
  AddConffile t pathname = (t', err) -> files t' = files t.
Proof.
  unfold AddConffile. destruct (negb _); [now intros [= <- <-]|].
  destruct (String.eqb _ _); now intros [= <- <-].
Qed.

Lemma AddScript_files t name r t' err :
  AddScript encode t name r = (t', err) -> files t' = files t.
Proof.
  unfold AddScript. destruct r as [r|]; [|now intros [= <- <-]].
  destruct (_ || _); [now intros [= <- <-]|].
  destruct (scripts t !! name); [now intros [= <- <-]|].
  destruct r; now intros [= <- <-].
Qed.

Lemma scanLoop_files readLine what lines :
  (∀ t line t' err, readLine t line = (t', err) -> files t' = files t) ->
  ∀ t i t' err,
    scanLoop readLine what t i lines = (t', err) -> files t' = files t.
Proof.
  intros Hline. induction lines as [|line lines IH]; intros t i t' err;
    simpl; [now intros [= <- <-]|].
  destruct (readLine t line) as [t1 [e|]] eqn:E1.
  - intros [= <- <-]. eauto.
  - intros H. apply IH in H. apply Hline in E1. congruence.
Qed.

Lemma readControl_files t r t' err :
  readControl encode t r = (t', err) -> files t' = files t.
Proof.
  unfold readControl.
  destruct (Scanner.Scan (bytesOf encode r)) as [lines serr].
  destruct (scanLoop readControlLine "control file" t 1 lines)
    as [t1 e1] eqn:E1.
  apply scanLoop_files in E1.
  2:{ intros t0 line t2 e. unfold readControlLine.
      destruct (strings.IndexByte line ":"); [|now intros [= <- <-]].
      destruct (AddField _ _ _) as [t3 [e3|]] eqn:E; intros [= <- <-];
        eapply AddField_files; eassumption. }
  destruct e1 as [e|]; [now intros [= <- <-]|].
  destruct serr; now intros [= <- <-].
Qed.

Lemma readConffiles_files t r t' err :
  readConffiles encode t r = (t', err) -> files t' = files t.
Proof.
  unfold readConffiles.
  destruct (Scanner.Scan (bytesOf encode r)) as [lines serr].
  destruct (scanLoop readConffile "conffiles" t 1 lines) as [t1 e1] eqn:E1.
  apply scanLoop_files in E1.
  2:{ intros t0 line t2 e2. unfold readConffile.
      destruct (String.eqb line ""); [now intros [= <- <-]|].
      apply AddConffile_files. }
  destruct e1 as [e|]; [now intros [= <- <-]|].
  destruct serr; now intros [= <- <-].
Qed.

Lemma readControlEntries_files es tl :
  ∀ t c1 c2 t' err,
    readControlEntries encode t c1 c2 es tl = (t', err) ->
    files t' = files t.
Proof.
  induction es as [|[hdr content] es IH]; intros t c1 c2 t' err; simpl.
  - destruct tl; [|now intros [= <- <-]].
    destruct (negb c1); now intros [= <- <-].
  - destruct (negb (isRegular hdr)); [apply IH|].
    destruct (String.eqb (path.Clean (unslash (tar.Name hdr))) controlName).
    { destruct c1; [now intros [= <- <-]|].
      destruct (readControl encode t content) as [t1 [e|]] eqn:E.
      - intros [= <- <-]. eapply readControl_files; eassumption.
      - intros H. apply IH in H. apply readControl_files in E.
        congruence. }
    destruct (String.eqb (path.Clean (unslash (tar.Name hdr))) confName).
    { destruct c2; [now intros [= <- <-]|].
      destruct (readConffiles encode t content) as [t1 [e|]] eqn:E.
      - intros [= <- <-]. eapply readConffiles_files; eassumption.
      - intros H. apply IH in H. apply readConffiles_files in E.
        congruence. }
    destruct (AddScript encode t (path.Clean (unslash (tar.Name hdr)))
                        (Some (Rd content))) as [t1 [e|]] eqn:E.
    + apply AddScript_files in E.
      destruct (decide (e = ErrBadScriptName)).
      * intros H. apply IH in H. congruence.
      * now intros [= <- <-].
    + apply AddScript_files in E. intros H. apply IH in H. congruence.
Qed.

(** Reading the control archive leaves the file tree alone. *)
Lemma readControlArchive_files t r t' err :
  readControlArchive encode t r = (t', err) -> files t' = files t.
Proof.
  unfold readControlArchive. destruct (gzip.decode r) as [inner|];
    [|now intros [= <- <-]].
  destruct (tarEntries inner) as [es tl]. apply readControlEntries_files.
Qed.

(** The cases of one round of the loop of [readTar]. *)
Ltac round hdr :=
  simpl;
  destruct (isRegular hdr) eqn:?Hreg; simpl;
  [ destruct (String.eqb_spec (unslash (tar.Name hdr)) controlArchiveName)
      as [?Hc|?Hc];
    [ | destruct (String.eqb_spec (unslash (tar.Name hdr)) dataArchiveName)
          as [?Hd|?Hd] ]
  | ].

Lemma readTarEntries_no_control es tl :
  (∀ e, e ∈ es -> ¬ isArchiveEntry controlArchiveName e) ->
  ∀ result dataRead,
    ∃ err, readTarEntries encode result dataRead false es tl = inr err.
Proof.
  induction es as [|[hdr content] es IH]; intros Hno result dataRead.
  - simpl. destruct tl; eauto.
  - assert (∀ e, e ∈ es -> ¬ isArchiveEntry controlArchiveName e) as Hno'
      by (intros e He; apply Hno; now right).
    round hdr.
    + exfalso. apply (Hno (hdr, content)); [left|]. now split.
    + destruct dataRead; [eauto|].
      destruct (readDataArchive result content) as [t1 [e|]];
        [eauto|]. now apply IH.
    + now apply IH.
    + now apply IH.
Qed.

Lemma readTarEntries_no_data es tl :
  (∀ e, e ∈ es -> ¬ isArchiveEntry dataArchiveName e) ->
  ∀ result dataRead controlRead t,
    readTarEntries encode result dataRead controlRead es tl = inl t ->
    files t = files result.
Proof.
  induction es as [|[hdr content] es IH];
    intros Hno result dataRead controlRead t.
  - simpl. destruct tl; [|discriminate].
    destruct (negb controlRead); [discriminate|]. now intros [= <-].
  - assert (∀ e, e ∈ es -> ¬ isArchiveEntry dataArchiveName e) as Hno'
      by (intros e He; apply Hno; now right).
    round hdr.
    + destruct controlRead; [discriminate|].
      destruct (readControlArchive encode result content)
        as [t1 [e|]] eqn:E; [discriminate|].
      intros H. apply IH in H; [|assumption].
      apply readControlArchive_files in E. congruence.
    + exfalso. apply (Hno (hdr, content)); [left|]. now split.
    + now apply IH.
    + now apply IH.
Qed.

Lemma readTarEntries_control_again es tl :
  (∃ e, e ∈ es ∧ isArchiveEntry controlArchiveName e) ->
  ∀ result dataRead,
    ∃ err, readTarEntries encode result dataRead true es tl = inr err.
Proof.
  induction es as [|[hdr content] es IH]; intros (e & He & Hreg & Hname).
  - now apply elem_of_nil in He.
  - intros result dataRead.
    assert (isRegular hdr = false ∨ unslash (tar.Name hdr)
                                     ≠ controlArchiveName ->
            ∃ e, e ∈ es ∧ isArchiveEntry controlArchiveName e) as Hrest.
    { intros Hhd. apply elem_of_cons in He as [->|He].
      - simpl in *. destruct Hhd; congruence.
      - exists e. repeat split; assumption. }
    round hdr.
    + eauto.
    + destruct dataRead; [eauto|].
      destruct (readDataArchive result content) as [t1 [e'|]];
        [eauto|]. apply IH. auto.
    + apply IH. auto.
    + apply IH. auto.
Qed.

Lemma readTarEntries_data_again es tl :
  (∃ e, e ∈ es ∧ isArchiveEntry dataArchiveName e) ->
  ∀ result controlRead,
    ∃ err, readTarEntries encode result true controlRead es tl = inr err.
Proof.
  induction es as [|[hdr content] es IH]; intros (e & He & Hreg & Hname).
  - now apply elem_of_nil in He.
  - intros result controlRead.
    assert (isRegular hdr = false ∨ unslash (tar.Name hdr)
                                     ≠ dataArchiveName ->
            ∃ e, e ∈ es ∧ isArchiveEntry dataArchiveName e) as Hrest.
    { intros Hhd. apply elem_of_cons in He as [->|He].
      - simpl in *. destruct Hhd; congruence.
      - exists e. repeat split; assumption. }
    round hdr.
    + destruct controlRead; [eauto|].
      destruct (readControlArchive encode result content) as [t1 [e'|]];
        [eauto|]. apply IH. apply Hrest. right. rewrite Hc. discriminate.
    + eauto.
    + apply IH. auto.
    + apply IH. auto.
Qed.

(** Two entries for the same sub-archive: the read fails, at the second
    one or before. *)
Lemma readTarEntries_repeat name es1 e1 rest tl :
  name = controlArchiveName ∨ name = dataArchiveName ->
  isArchiveEntry name e1 ->
  (∃ e2, e2 ∈ rest ∧ isArchiveEntry name e2) ->
  ∀ result dataRead controlRead,
    ∃ err, readTarEntries encode result dataRead controlRead
                          (es1 ++ e1 :: rest) tl = inr err.
Proof.
  intros Hname [Hreg1 Hn1] Hrest.
  induction es1 as [|[hdr content] es1 IH];
    intros result dataRead controlRead.
  - destruct e1 as [hdr content]. simpl in Hreg1, Hn1.
    simpl. rewrite Hreg1. simpl. rewrite Hn1.
    destruct Hname as [-> | ->]; simpl.
    + destruct controlRead; [eauto|].
      destruct (readControlArchive encode result content) as [t1 [e|]];
        [eauto|]. now apply readTarEntries_control_again.
    + destruct dataRead; [eauto|].
      destruct (readDataArchive result content) as [t1 [e|]];
        [eauto|]. now apply readTarEntries_data_again.
  - rewrite <- app_comm_cons. round hdr.
    + destruct controlRead; [eauto|].
      destruct (readControlArchive encode result content) as [t1 [e|]];
        [eauto|]. apply IH.
    + destruct dataRead; [eauto|].
      destruct (readDataArchive result content) as [t1 [e|]];
        [eauto|]. apply IH.
    + apply IH.
    + apply IH.
Qed.

(** Entries that are for neither sub-archive are passed over. *)
Lemma readTarEntries_skip es1 rest tl :
  (∀ e, e ∈ es1 -> ¬ isArchiveEntry controlArchiveName e
                   ∧ ¬ isArchiveEntry dataArchiveName e) ->
  ∀ result dataRead controlRead,
    readTarEntries encode result dataRead controlRead (es1 ++ rest) tl
    = readTarEntries encode result dataRead controlRead rest tl.
Proof.
  induction es1 as [|[hdr content] es1 IH];
    intros Hno result dataRead controlRead; [reflexivity|].
  assert (∀ e, e ∈ es1 -> ¬ isArchiveEntry controlArchiveName e
                          ∧ ¬ isArchiveEntry dataArchiveName e) as Hno'
    by (intros e He; apply Hno; now right).
  destruct (Hno (hdr, content) ltac:(left)) as [N1 N2].
  rewrite <- app_comm_cons. round hdr.
  - exfalso. apply N1. now split.
  - exfalso. apply N2. now split.
  - now apply IH.
  - now apply IH.
Qed.

End ReadTar.

(** C6.  Reading the outer container [Tar es tl]:
    - when no regular entry has the name of the control sub-archive, the
      read fails;
    - when no regular entry has the name of the data sub-archive, a read
      that returns a package returns it with an empty file tree, and the
      read does return the package of the control sub-archive when that
      one is there once and reads without error;
    - when two regular entries have the name of the same sub-archive, the
      read fails. *)
Theorem C6_readTar (encode : Data -> string)
    (es : list (tar.Header * Data)) (tl : tar.Tail) :
  ((∀ e, e ∈ es -> ¬ isArchiveEntry controlArchiveName e) ->
   ∃ err, readTar encode (Tar es tl) = inr err)
  ∧ ((∀ e, e ∈ es -> ¬ isArchiveEntry dataArchiveName e) ->
     (∀ t, readTar encode (Tar es tl) = inl t -> files t = ∅)
     ∧ (∀ es1 hdr content es2 t,
          es = es1 ++ (hdr, content) :: es2 -> tl = tar.EOF ->
          isArchiveEntry controlArchiveName (hdr, content) ->
          (∀ e, e ∈ es1 ++ es2 -> ¬ isArchiveEntry controlArchiveName e) ->
          readControlArchive encode New content = (t, None) ->
          readTar encode (Tar es tl) = inl t))
  ∧ (∀ name es1 e1 es2 e2 es3,
       name = controlArchiveName ∨ name = dataArchiveName ->
       es = es1 ++ e1 :: es2 ++ e2 :: es3 ->
       isArchiveEntry name e1 -> isArchiveEntry name e2 ->
       ∃ err, readTar encode (Tar es tl) = inr err).
Proof.
  unfold readTar. simpl tarEntries. cbv iota beta.
  split; [|split].
  - intros Hno. now apply readTarEntries_no_control.
  - intros Hno. split.
    + intros t Ht. apply readTarEntries_no_data in Ht; [|assumption].
      rewrite Ht. reflexivity.
    + intros es1 hdr content es2 t -> -> [Hreg Hname] Hnc Hread.
      assert (∀ l : list (tar.Header * Data),
                   (∀ e, e ∈ l -> e ∈ es1 ++ es2) ->
                   ∀ e, e ∈ l -> ¬ isArchiveEntry controlArchiveName e
                               ∧ ¬ isArchiveEntry dataArchiveName e) as Hskip.
      { intros l Hl e He. split.
        - apply Hnc. now apply Hl.
        - apply Hno. specialize (Hl e He).
          apply elem_of_app in Hl as [Hl|Hl]; apply elem_of_app;
            [left | right; right]; assumption. }
      rewrite readTarEntries_skip
        by (apply Hskip; intros e He; apply elem_of_app; now left).
      simpl in Hreg, Hname. simpl. rewrite Hreg, Hname. simpl.
      rewrite Hread.
      rewrite <- (app_nil_r es2).
      rewrite readTarEntries_skip
        by (apply Hskip; intros e He; apply elem_of_app; now right).
      reflexivity.
  - intros name es1 e1 es2 e2 es3 Hname -> H1 H2.
    apply readTarEntries_repeat with (name := name); try assumption.
    exists e2. split; [|assumption].
    apply elem_of_app. right. left.
Qed.

Lemma C6_readTar_witness :
  (∃ err, readTar C6_example.enc (Tar [C6_example.marker] tar.EOF) = inr err)
  ∧ readTar C6_example.enc
            (Tar [C6_example.marker; C6_example.controlEntry] tar.EOF)
    = inl C6_example.t0
  ∧ (∃ err, readTar C6_example.enc
              (Tar [C6_example.controlEntry; C6_example.marker;
                    C6_example.controlEntry] tar.EOF) = inr err).
Proof.
  split; [|split].
  - apply (proj1 (C6_readTar C6_example.enc [C6_example.marker] tar.EOF)).
    intros e He [_ Hname]. apply list_elem_of_singleton in He. subst e.
    vm_compute in Hname. discriminate.
  - apply (proj2 (proj1 (proj2 (C6_readTar C6_example.enc
             [C6_example.marker; C6_example.controlEntry] tar.EOF))
             ltac:(intros e He [_ Hname];
                   apply elem_of_cons in He as [->|He];
                   [|apply list_elem_of_singleton in He; subst e];
                   vm_compute in Hname; discriminate))
           [C6_example.marker] C6_example.controlEntry.1 C6_example.control
           [] C6_example.t0).
    + reflexivity.
    + reflexivity.
    + split; reflexivity.
    + intros e He [_ Hname]. apply list_elem_of_singleton in He. subst e.
      vm_compute in Hname. discriminate.
    + vm_compute. reflexivity.
  - apply (proj2 (proj2 (C6_readTar C6_example.enc
             [C6_example.controlEntry; C6_example.marker;
              C6_example.controlEntry] tar.EOF))
           controlArchiveName [] C6_example.controlEntry
           [C6_example.marker] C6_example.controlEntry []).
    + now left.
    + reflexivity.
    + split; reflexivity.
    + split; reflexivity.
Defined.

(** ** Reading the data sub-archive *)

Section ReadData.

(** The name under which [readDataArchive] looks an entry up is
    relative: [unslash] leaves no leading slash and [Clean] adds none. *)
Lemma lookup_name_relative (n : string) :
  path.IsAbs (path.Clean (unslash n)) = false.
Proof.
  rewrite path_facts.Clean_IsAbs. unfold path.IsAbs.
  apply unslash_no_prefix.
Qed.

(** On a file tree with absolute keys, which is every tree the package
    builds, the lookup of [readDataArchive] finds nothing: the loop
    stores every entry that is not skipped, and fails only where the
    stream is corrupt. *)
Lemma readDataEntries_no_duplicate_error es tl :
  ∀ t t' err,
    absoluteKeys t ->
    readDataEntries t es tl = (t', err) ->
    absoluteKeys t'
    ∧ (err = None
       ∨ (tl = tar.Corrupt
          ∧ err = Some (errorString "Unable to read data tar header"))).
Proof.
  induction es as [|[hdr content] es IH]; intros t t' err Habs; simpl.
  - destruct tl; intros [= <- <-]; auto.
  - destruct (_ || _ || _); [now apply IH|].
    destruct (files t !! path.Clean (unslash (tar.Name hdr))) as [f|] eqn:E.
    + specialize (Habs _ (mk_is_Some _ _ E)).
      rewrite lookup_name_relative in Habs. discriminate.
    + apply IH. intros k [f Hk]. simpl in Hk.
      destruct (decide ("/" +:+ path.Clean (unslash (tar.Name hdr)) = k))
        as [<-|Hne].
      * reflexivity.
      * rewrite lookup_insert_ne in Hk by assumption. apply Habs. eauto.
Qed.

End ReadData.

(** C2 at the failing input: the data sub-archive has two entries named
    [./a].  The read returns no error, and the tree holds one entry for
    [/a], with the content of the second. *)
Theorem C2_duplicate_not_rejected :
  ∃ t, readDataArchive New C2_example.archive = (t, None)
       ∧ files t
         = {[ "/a" := mkFile C2_example.hdr
                             (Some (Gz gzip.BestCompression (Raw "y"))) ]}.
Proof.
  eexists. split; [reflexivity|].
  apply map_eq. intros k. simpl.
  rewrite insert_insert_eq. reflexivity.
Qed.

(** ** Compression of the sub-archives *)

Section Compression.

Variable encode : Data -> string.

Lemma dataLen_nonneg (d : Data) : 0 <= dataLen encode d.
Proof. unfold dataLen. lia. Qed.

Lemma fileHeader_regular (name : string) (size modTime : Z) :
  0 <= size ->
  fileHeader name size modTime
  = tar.mkHeader tar.TypeReg name "" size 420 archiveOwner archiveOwner
                 modTime tar.FormatUSTAR.
Proof.
  intros H. unfold fileHeader, specialHeader.
  destruct (Z.leb_spec 0 size); [reflexivity | lia].
Qed.

Lemma createControlArchive_level t o compress modTime t' r size err :
  createControlArchive encode t o compress modTime = (t', (r, size), err) ->
  0 <= size
  ∧ ∃ entries, r = Gz (compressionLevel compress) (Tar entries tar.EOF).
Proof.
  unfold createControlArchive.
  destruct (fillControlArchive t o _ modTime) as [[t1 w] e].
  unfold Finish. simpl. intros [= <- <- <- <-].
  split; [apply dataLen_nonneg | eauto].
Qed.

Lemma createDataArchive_level t o compress modTime t' r size err :
  createDataArchive encode t o compress modTime = (t', (r, size), err) ->
  0 <= size
  ∧ ∃ entries, r = Gz (compressionLevel compress) (Tar entries tar.EOF).
Proof.
  unfold createDataArchive.
  destruct (fillDataArchive t o _ modTime) as [[t1 w] e].
  unfold Finish. simpl. intros [= <- <- <- <-].
  split; [apply dataLen_nonneg | eauto].
Qed.

(** What [writeTar] appends to an empty outer archive: three regular
    entries, the marker and the two sub-archives. *)
Lemma writeTar_entries t o compress now t' w :
  writeTar encode t o [] compress now = (t', w, None) ->
  ∃ marker hc control hd data,
    w = [marker;
         (hc, Gz (compressionLevel compress) (Tar control tar.EOF));
         (hd, Gz (compressionLevel compress) (Tar data tar.EOF))]
    ∧ tar.Name marker.1 = "./debian-binary"
    ∧ isArchiveEntry controlArchiveName
        (hc, Gz (compressionLevel compress) (Tar control tar.EOF))
    ∧ isArchiveEntry dataArchiveName
        (hd, Gz (compressionLevel compress) (Tar data tar.EOF)).
Proof.
  unfold writeTar, writeControlArchive, writeDataArchive.
  destruct (createControlArchive encode t o compress now)
    as [[t1 [r1 s1]] e1] eqn:E1.
  destruct e1; [discriminate|].
  destruct (createDataArchive encode t1 o compress now)
    as [[t2 [r2 s2]] e2] eqn:E2.
  destruct e2; [discriminate|].
  apply createControlArchive_level in E1 as [Hs1 [control ->]].
  apply createDataArchive_level in E2 as [Hs2 [data ->]].
  intros [= <- <-]. eexists _, _, control, _, data.
  split; [reflexivity|].
  rewrite !fileHeader_regular by (assumption || lia).
  repeat split.
Qed.

End Compression.

(** C10.  A successful [Write] with [FormatTarGZip] produces a gzip stream
    at the best level around the outer archive, whose control and data
    entries (regular entries under the two sub-archive names) are gzip
    streams at level [NoCompression]; a successful
    [Write] with [FormatTar] produces the bare outer archive, whose
    control and data entries are gzip streams at level
    [BestCompression]. *)
Theorem C10_inner_compression (encode : Data -> string) (t : T) (o : Orders)
    (now : Z) :
  (∀ t' d, Write encode t o now FormatTarGZip = (t', inl d) ->
     ∃ marker hc control hd data,
       d = Gz gzip.BestCompression
             (Tar [marker;
                   (hc, Gz gzip.NoCompression (Tar control tar.EOF));
                   (hd, Gz gzip.NoCompression (Tar data tar.EOF))] tar.EOF)
       ∧ isArchiveEntry controlArchiveName
           (hc, Gz gzip.NoCompression (Tar control tar.EOF))
       ∧ isArchiveEntry dataArchiveName
           (hd, Gz gzip.NoCompression (Tar data tar.EOF)))
  ∧ (∀ t' d, Write encode t o now FormatTar = (t', inl d) ->
     ∃ marker hc control hd data,
       d = Tar [marker;
                (hc, Gz gzip.BestCompression (Tar control tar.EOF));
                (hd, Gz gzip.BestCompression (Tar data tar.EOF))] tar.EOF
       ∧ isArchiveEntry controlArchiveName
           (hc, Gz gzip.BestCompression (Tar control tar.EOF))
       ∧ isArchiveEntry dataArchiveName
           (hd, Gz gzip.BestCompression (Tar data tar.EOF)))
  ∧ compressionLevel (Z.land FormatTarGZip formatGZip =? 0)
    = gzip.NoCompression
  ∧ compressionLevel (Z.land FormatTar formatGZip =? 0)
    = gzip.BestCompression.
Proof.
  split; [|split; [|split; reflexivity]].
  - intros t' d. unfold Write.
    change (negb (Z.ldiff FormatTarGZip formatGZip =? FormatTar)) with false.
    change (Z.land FormatTarGZip formatGZip =? 0) with false.
    cbv iota.
    destruct (writeTar encode t o [] false now) as [[t1 w] e] eqn:E.
    destruct e; [discriminate|]. intros [= <- <-].
    apply writeTar_entries in E
      as (marker & hc & control & hd & data & -> & _ & H1 & H2).
    exists marker, hc, control, hd, data. auto.
  - intros t' d. unfold Write.
    change (negb (Z.ldiff FormatTar formatGZip =? FormatTar)) with false.
    change (Z.land FormatTar formatGZip =? 0) with true.
    cbv iota.
    destruct (writeTar encode t o [] true now) as [[t1 w] e] eqn:E.
    destruct e; [discriminate|]. intros [= <- <-].
    apply writeTar_entries in E
      as (marker & hc & control & hd & data & -> & _ & H1 & H2).
    exists marker, hc, control, hd, data. auto.
Qed.

Lemma C10_inner_compression_witness :
  ∃ t' d,
    Write C5_example.enc C5_example.t0 C5_example.o 0 FormatTarGZip
    = (t', inl d)
    ∧ ∃ marker hc control hd data,
        d = Gz gzip.BestCompression
              (Tar [marker;
                    (hc, Gz gzip.NoCompression (Tar control tar.EOF));
                    (hd, Gz gzip.NoCompression (Tar data tar.EOF))] tar.EOF)
        ∧ isArchiveEntry controlArchiveName
            (hc, Gz gzip.NoCompression (Tar control tar.EOF))
        ∧ isArchiveEntry dataArchiveName
            (hd, Gz gzip.NoCompression (Tar data tar.EOF)).
Proof.
  eexists _, _. split.
  - vm_compute. reflexivity.
  - eapply (proj1 (C10_inner_compression C5_example.enc C5_example.t0
                     C5_example.o 0)).
    vm_compute. reflexivity.
Defined.

(** ** [Conffiles] on backing arrays *)

Module SliceStore_facts.

Lemma elems_length h s : SliceStore.valid h s -> length (SliceStore.elems h s) = SliceStore.len s.
Proof.
  unfold SliceStore.valid, SliceStore.elems. intros H. rewrite length_take, length_drop. lia.
Qed.

Lemma elems_other h s a l :
  (SliceStore.len s = 0%nat ∨ a ≠ SliceStore.array s) -> SliceStore.elems (<[a := l]> h) s = SliceStore.elems h s.
Proof.
  unfold SliceStore.elems, SliceStore.backing. intros [H|H].
  - rewrite H. reflexivity.
  - now rewrite lookup_insert_ne.
Qed.

Lemma fresh_other (h : SliceStore.store) (s : SliceStore.slice) :
  SliceStore.valid h s -> SliceStore.len s = 0%nat ∨ fresh (dom h) ≠ SliceStore.array s.
Proof.
  unfold SliceStore.valid, SliceStore.backing. intros H.
  destruct (h !! SliceStore.array s) as [a|] eqn:E.
  - right. intros Heq. apply (is_fresh (dom h)). rewrite Heq.
    apply elem_of_dom. eauto.
  - left. simpl in H. lia.
Qed.

End SliceStore_facts.

(** C9.  [Conffiles] returns a slice with the elements of the stored
    conffile list at the time of the call, which is the list [Conffiles]
    of the package model returns.  The stored list is as before after
    the call, after an assignment to an element of the returned slice,
    and after any other change to the backing array of the returned
    slice. *)
Theorem C9_Conffiles_copy (h : SliceStore.store) (cf : SliceStore.slice)
    (t : T) :
  SliceStore.valid h cf ->
  conffiles t = SliceStore.elems h cf ->
  ∃ h' result,
    SliceStore.Conffiles h cf = (h', result)
    ∧ SliceStore.elems h' result = Conffiles t
    ∧ SliceStore.len result = length (conffiles t)
    ∧ SliceStore.elems h' cf = conffiles t
    ∧ (∀ i v h'', SliceStore.set h' result i v = Some h'' ->
         SliceStore.elems h'' cf = conffiles t
         ∧ SliceStore.elems h'' result = <[i := v]> (conffiles t))
    ∧ (∀ l, SliceStore.elems (<[SliceStore.array result := l]> h') cf
            = conffiles t).
Proof.
  intros Hvalid Hconf.
  pose proof (SliceStore_facts.fresh_other h cf Hvalid) as Hfresh.
  pose proof (SliceStore_facts.elems_length h cf Hvalid) as Hlen.
  unfold SliceStore.Conffiles, SliceStore.make, SliceStore.copy.
  set (a := fresh (dom h)) in *.
  set (n := SliceStore.len cf) in *.
  cbn [SliceStore.len SliceStore.offset SliceStore.array].
  rewrite Nat.min_id.
  rewrite (SliceStore_facts.elems_other h cf a _ Hfresh).
  rewrite alter_insert_eq. cbn [take drop app]. rewrite Nat.add_0_l.
  rewrite drop_ge by (rewrite length_replicate; lia).
  rewrite app_nil_r.
  rewrite take_0, app_nil_l. rewrite take_ge by lia. rewrite <- Hconf.
  set (h' := <[a := conffiles t]> h).
  assert (SliceStore.elems h' (SliceStore.mkSlice a 0 n n) = conffiles t)
    as Hres.
  { unfold SliceStore.elems, SliceStore.backing, h'. simpl.
    rewrite lookup_insert_eq. simpl. apply take_ge. rewrite Hconf. lia. }
  assert (SliceStore.elems h' cf = conffiles t) as Hcf.
  { unfold h'. rewrite SliceStore_facts.elems_other by assumption.
    now symmetry. }
  exists h', (SliceStore.mkSlice a 0 n n).
  split; [reflexivity|]. split; [exact Hres|].
  split; [simpl; rewrite Hconf; lia|]. split; [exact Hcf|]. split.
  - intros i v h''. unfold SliceStore.set. simpl.
    destruct (decide (i < n)%nat) as [Hi|]; [|discriminate].
    intros [= <-]. unfold h'. rewrite alter_insert_eq. split.
    + rewrite SliceStore_facts.elems_other by assumption. now symmetry.
    + unfold SliceStore.elems, SliceStore.backing. simpl.
      rewrite lookup_insert_eq. simpl. apply take_ge.
      rewrite length_insert, Hconf. lia.
  - intros l. unfold h'. simpl. rewrite insert_insert_eq.
    rewrite SliceStore_facts.elems_other by assumption. now symmetry.
Qed.

Lemma C9_Conffiles_copy_witness :
  ∃ h' result,
    SliceStore.Conffiles C9_example.h C9_example.cf = (h', result)
    ∧ SliceStore.elems h' result = Conffiles C9_example.t0
    ∧ SliceStore.len result = length (conffiles C9_example.t0)
    ∧ SliceStore.elems h' C9_example.cf = conffiles C9_example.t0
    ∧ (∀ i v h'', SliceStore.set h' result i v = Some h'' ->
         SliceStore.elems h'' C9_example.cf = conffiles C9_example.t0
         ∧ SliceStore.elems h'' result
           = <[i := v]> (conffiles C9_example.t0))
    ∧ (∀ l, SliceStore.elems (<[SliceStore.array result := l]> h')
                             C9_example.cf
            = conffiles C9_example.t0).
Proof.
  apply (C9_Conffiles_copy C9_example.h C9_example.cf C9_example.t0).
  - unfold SliceStore.valid. vm_compute. lia.
  - reflexivity.
Defined.

(** ** Writing a package and reading it back *)

Lemma C1_orders_ok : orders_of C1_example.p C1_example.o.
Proof.
  repeat split; unfold range_order; apply (bool_decide_unpack _);
    vm_compute; exact I.
Qed.

(** C1 at the failing input: the package [p] is written in the format
    [FormatTarGZip] and read back.  Both steps succeed, the fields and the
    conffiles come back as they were, and so does the regular file, but
    the directories do not: [p] has them under [/etc/] and [/etc/foo/],
    the package read back has them under [/etc] and [/etc/foo]. *)
Theorem C1_roundtrip_directory_paths :
  ∃ p' d q,
    orders_of C1_example.p C1_example.o
    ∧ Write C1_example.enc C1_example.p C1_example.o 5 FormatTarGZip
      = (p', inl d)
    ∧ Read C1_example.enc (Some d) FormatTarGZip = inl q
    ∧ fields q = fields C1_example.p
    ∧ conffiles q = conffiles C1_example.p
    ∧ data <$> files q !! "/etc/foo/x.conf"
      = data <$> files C1_example.p !! "/etc/foo/x.conf"
    ∧ is_Some (files C1_example.p !! "/etc/")
    ∧ is_Some (files C1_example.p !! "/etc/foo/")
    ∧ files q !! "/etc/" = None
    ∧ files q !! "/etc/foo/" = None
    ∧ is_Some (files q !! "/etc")
    ∧ is_Some (files q !! "/etc/foo").
Proof.
  eexists _, _, _.
  split; [exact C1_orders_ok|].
  split; [vm_compute; reflexivity|].
  split; [vm_compute; reflexivity|].
  split; [apply map_eq; intros k; vm_compute; reflexivity|].
  split; [vm_compute; reflexivity|].
  split; [vm_compute; reflexivity|].
  repeat split; vm_compute; eauto.
Qed.

(** * Further properties *)

(** ** Trimmed values and lines *)

Module strings_more.
Import strings_facts.

Lemma trimRunes_suffix sp2 sp3 (l : list ascii) :
  strings.trimRunes sp2 sp3 l `suffix_of` l.
Proof.
  assert (∀ n l, (length l <= n)%nat ->
                 strings.trimRunes sp2 sp3 l `suffix_of` l) as H.
  { intros n. induction n as [|n IH]; intros [|a l1] Hn; simpl in *;
      try reflexivity; [lia|].
    destruct (strings.isSpace a).
    { apply suffix_cons_r, IH. lia. }
    destruct l1 as [|b l2]; [reflexivity|].
    destruct (sp2 a b).
    { do 2 apply suffix_cons_r. apply IH. simpl in Hn. lia. }
    destruct l2 as [|c l3]; [reflexivity|].
    destruct (sp3 a b c); [|reflexivity].
    do 3 apply suffix_cons_r. apply IH. simpl in Hn. lia. }
  now apply (H (length l)).
Qed.

Lemma trimRunes_length sp2 sp3 (l : list ascii) :
  (length (strings.trimRunes sp2 sp3 l) <= length l)%nat.
Proof. apply suffix_length, trimRunes_suffix. Qed.

(** What [trimRunes] leaves does not begin with white space. *)
Lemma trimRunes_idem sp2 sp3 (l : list ascii) :
  strings.trimRunes sp2 sp3 (strings.trimRunes sp2 sp3 l)
  = strings.trimRunes sp2 sp3 l.
Proof.
  assert (∀ n l, (length l <= n)%nat ->
                 strings.trimRunes sp2 sp3 (strings.trimRunes sp2 sp3 l)
                 = strings.trimRunes sp2 sp3 l) as H.
  { intros n. induction n as [|n IH]; intros [|a l1] Hn; simpl in *;
      try reflexivity; [lia|].
    destruct (strings.isSpace a) eqn:Ea.
    { apply IH. lia. }
    destruct l1 as [|b l2]; [simpl; now rewrite Ea|].
    destruct (sp2 a b) eqn:Eb.
    { apply IH. simpl in Hn. lia. }
    destruct l2 as [|c l3]; [simpl; now rewrite Ea, Eb|].
    destruct (sp3 a b c) eqn:Ec.
    { apply IH. simpl in Hn. lia. }
    simpl. now rewrite Ea, Eb, Ec. }
  now apply (H (length l)).
Qed.

(** A string that [trimRunes] leaves as it is does not begin with white
    space. *)
Lemma trimRunes_fixed sp2 sp3 (l : list ascii) :
  strings.trimRunes sp2 sp3 l = l ->
  match l with
  | a :: l1 =>
      strings.isSpace a = false
      ∧ match l1 with
        | b :: l2 =>
            sp2 a b = false
            ∧ match l2 with
              | c :: _ => sp3 a b c = false
              | [] => True
              end
        | [] => True
        end
  | [] => True
  end.
Proof.
  assert (∀ k : list ascii,
            (length (strings.trimRunes sp2 sp3 k) < S (length k))%nat) as Hlt
    by (intros k; pose proof (trimRunes_length sp2 sp3 k); lia).
  destruct l as [|a l1]; [trivial|]. simpl.
  destruct (strings.isSpace a).
  { intros H. apply (f_equal length) in H. specialize (Hlt l1).
    simpl in H. lia. }
  intros H. split; [reflexivity|]. destruct l1 as [|b l2]; [trivial|].
  destruct (sp2 a b).
  { apply (f_equal length) in H. specialize (Hlt l2). simpl in H. lia. }
  split; [reflexivity|]. destruct l2 as [|c l3]; [trivial|].
  destruct (sp3 a b c); [|reflexivity].
  apply (f_equal length) in H. specialize (Hlt l3). simpl in H. lia.
Qed.

(** A string that does not begin with white space has no prefix that
    does. *)
Lemma trimRunes_prefix sp2 sp3 (l l' : list ascii) :
  strings.trimRunes sp2 sp3 l = l -> l' `prefix_of` l ->
  strings.trimRunes sp2 sp3 l' = l'.
Proof.
  intros Hl [k ->]. apply trimRunes_fixed in Hl.
  destruct l' as [|a [|b [|c l3]]]; simpl in *; try reflexivity.
  - destruct Hl as [-> _]. reflexivity.
  - destruct Hl as (-> & -> & _). reflexivity.
  - destruct Hl as (-> & -> & ->). reflexivity.
Qed.

Lemma TrimSpace_idem (s : string) :
  strings.TrimSpace (strings.TrimSpace s) = strings.TrimSpace s.
Proof.
  unfold strings.TrimSpace, strings.TrimRight, strings.TrimLeft.
  rewrite !list_ascii_of_string_of_list_ascii.
  set (A := strings.trimRunes strings.isSpace2 strings.isSpace3
              (list_ascii_of_string s)).
  set (R := strings.trimRunes _ _ (rev A)).
  assert (strings.trimRunes strings.isSpace2 strings.isSpace3 (rev R)
          = rev R) as ->.
  { apply (trimRunes_prefix _ _ A); [apply trimRunes_idem|].
    destruct (trimRunes_suffix (fun a b => strings.isSpace2 b a)
                (fun a b c => strings.isSpace3 c b a) (rev A)) as [k Hk].
    fold R in Hk. exists (rev k).
    rewrite <- (rev_involutive A), Hk, rev_app_distr. reflexivity. }
  rewrite rev_involutive. unfold R. now rewrite trimRunes_idem.
Qed.

(** A trimmed string does not end with white space. *)
Lemma trimmed_end (v : string) :
  trimmed v ->
  strings.trimRunes (fun a b => strings.isSpace2 b a)
                    (fun a b c => strings.isSpace3 c b a)
                    (rev (list_ascii_of_string v))
  = rev (list_ascii_of_string v).
Proof.
  unfold trimmed, strings.TrimSpace, strings.TrimRight, strings.TrimLeft.
  rewrite list_ascii_of_string_of_list_ascii.
  set (L := list_ascii_of_string v).
  set (A := strings.trimRunes strings.isSpace2 strings.isSpace3 L).
  set (R := strings.trimRunes _ _ (rev A)). intros H.
  apply (f_equal list_ascii_of_string) in H.
  rewrite list_ascii_of_string_of_list_ascii in H. fold L in H.
  pose proof (trimRunes_suffix strings.isSpace2 strings.isSpace3 L) as HA.
  fold A in HA.
  pose proof (trimRunes_length (fun a b => strings.isSpace2 b a)
                (fun a b c => strings.isSpace3 c b a) (rev A)) as HR.
  fold R in HR. rewrite List.length_rev in HR.
  pose proof (suffix_length _ _ HA) as HA'.
  assert (length R = length L) as HRL
    by (rewrite <- H; now rewrite List.length_rev).
  assert (A = L) as HAL.
  { destruct HA as [k Hk]. assert (length k = 0%nat) as Hk0.
    { apply (f_equal length) in Hk. rewrite List.length_app in Hk. lia. }
    destruct k; [symmetry; exact Hk|discriminate]. }
  unfold R in H. rewrite HAL in H.
  apply (f_equal (@rev ascii)) in H. now rewrite rev_involutive in H.
Qed.

Lemma ContainsRune_app (a b : string) (c : ascii) :
  strings.ContainsRune (a +:+ b) c
  = strings.ContainsRune a c || strings.ContainsRune b c.
Proof.
  induction a as [|x a IH]; [reflexivity|].
  rewrite app_cons. simpl. destruct (Ascii.eqb x c); [reflexivity|exact IH].
Qed.

Lemma all_ContainsRune (f : ascii -> bool) (s : string) (c : ascii) :
  regexp.all f s = true -> f c = false -> strings.ContainsRune s c = false.
Proof.
  intros Hall Hc. induction s as [|x s IH]; [reflexivity|].
  simpl in *. apply andb_true_iff in Hall as [Hx Hs].
  destruct (Ascii.eqb_spec x c) as [->|_]; [congruence|]. now apply IH.
Qed.

End strings_more.

Module bufio_facts.
Import strings_facts strings_more.

Lemma pieces_not_nil (s : string) : bufio.pieces s ≠ [].
Proof.
  induction s as [|c s IH]; [discriminate|].
  simpl. destruct (Ascii.eqb c bufio.LF); [discriminate|].
  destruct (bufio.pieces s); [contradiction|discriminate].
Qed.

(** A line without line feed, followed by a line feed, is the first
    piece. *)
Lemma pieces_line (l rest : string) :
  singleLine l ->
  bufio.pieces (l +:+ String bufio.LF rest) = l :: bufio.pieces rest.
Proof.
  unfold singleLine. induction l as [|c l IH]; intros Hl.
  - reflexivity.
  - rewrite app_cons. simpl in *.
    destruct (Ascii.eqb c bufio.LF); [discriminate|].
    now rewrite IH.
Qed.

Lemma dropLastIfEmpty_cons (x : string) (l : list string) :
  l ≠ [] -> bufio.dropLastIfEmpty (x :: l) = x :: bufio.dropLastIfEmpty l.
Proof. destruct l; [contradiction|reflexivity]. Qed.

(** The text of a list of lines, each followed by a line feed. *)
Lemma ScanLines_lines (ls : list string) :
  Forall singleLine ls ->
  bufio.ScanLines (fold_right (fun l text => l +:+ String bufio.LF text) "" ls)
  = map bufio.dropCR ls.
Proof.
  unfold bufio.ScanLines. intros H. f_equal.
  induction H as [|l ls Hl Hls IH]; [reflexivity|].
  simpl fold_right. rewrite pieces_line by exact Hl.
  rewrite dropLastIfEmpty_cons by apply pieces_not_nil. now rewrite IH.
Qed.

Lemma pieces_lines (ls : list string) :
  Forall singleLine ls ->
  bufio.pieces (fold_right (fun l text => l +:+ String bufio.LF text) "" ls)
  = ls ++ [""].
Proof.
  intros H. induction H as [|l ls Hl Hls IH]; [reflexivity|].
  simpl fold_right. rewrite pieces_line by exact Hl. now rewrite IH.
Qed.

Lemma scan_cons (p q : string) (r : list string) :
  Scanner.scan (p :: q :: r)
  = if Z.of_nat (String.length p) <? Scanner.MaxScanTokenSize
    then let '(tokens, err) := Scanner.scan (q :: r) in
         (bufio.dropCR p :: tokens, err)
    else ([], Some Scanner.ErrTooLong).
Proof. reflexivity. Qed.

(** When every line fits, the scanner yields the tokens of the line
    splitter and ends without error. *)
Lemma scan_fits (ps : list string) :
  Forall fitsLine ps ->
  Scanner.scan ps = (map bufio.dropCR (bufio.dropLastIfEmpty ps), None).
Proof.
  unfold fitsLine. induction ps as [|p [|q r] IH]; intros H.
  - reflexivity.
  - apply Forall_cons in H as [Hp _]. simpl.
    destruct (String.eqb p ""); [reflexivity|].
    destruct (Z.leb_spec (Z.of_nat (String.length p))
                         Scanner.MaxScanTokenSize); [reflexivity|lia].
  - apply Forall_cons in H as [Hp H]. rewrite scan_cons, IH by exact H.
    destruct (Z.ltb_spec (Z.of_nat (String.length p))
                         Scanner.MaxScanTokenSize); [reflexivity|lia].
Qed.

Lemma Scan_ScanLines (s : string) :
  Forall fitsLine (bufio.pieces s) ->
  Scanner.Scan s = (bufio.ScanLines s, None).
Proof. apply scan_fits. Qed.

(** The scanner on the text of a list of lines, each followed by a line
    feed. *)
Lemma Scan_lines (ls : list string) :
  Forall singleLine ls -> Forall fitsLine ls ->
  Scanner.Scan
    (fold_right (fun l text => l +:+ String bufio.LF text) "" ls)
  = (map bufio.dropCR ls, None).
Proof.
  intros Hl Hf. rewrite Scan_ScanLines.
  - now rewrite ScanLines_lines.
  - rewrite pieces_lines by exact Hl. apply Forall_app. split; [exact Hf|].
    now repeat constructor.
Qed.

Lemma dropCR_cons (c : ascii) (s : string) :
  s ≠ "" -> bufio.dropCR (String c s) = String c (bufio.dropCR s).
Proof. destruct s; [contradiction|reflexivity]. Qed.

Lemma dropCR_end (v : string) :
  bufio.dropCR v = v
  ∨ ∃ p, list_ascii_of_string v = p ++ [bufio.CR].
Proof.
  induction v as [|c v IH]; [now left|].
  destruct v as [|d v].
  - simpl. destruct (Ascii.eqb_spec c bufio.CR) as [->|_]; [|now left].
    right. now exists [].
  - rewrite dropCR_cons by discriminate.
    destruct IH as [->|[p Hp]]; [now left|].
    right. exists (c :: p). cbn [list_ascii_of_string] in *.
    now rewrite Hp.
Qed.

Lemma dropCR_trimmed (v : string) : trimmed v -> bufio.dropCR v = v.
Proof.
  intros Hv. destruct (dropCR_end v) as [H|[p Hp]]; [exact H|].
  apply trimmed_end in Hv. rewrite Hp, rev_app_distr in Hv.
  pose proof (trimRunes_length (fun a b => strings.isSpace2 b a)
                (fun a b c => strings.isSpace3 c b a) (rev p)) as Hlen.
  simpl in Hv. rewrite Hv in Hlen. simpl in Hlen. lia.
Qed.

Lemma dropCR_app (a b : string) :
  b ≠ "" -> bufio.dropCR (a +:+ b) = a +:+ bufio.dropCR b.
Proof.
  intros Hb. induction a as [|c a IH]; [reflexivity|].
  rewrite !app_cons. rewrite dropCR_cons; [now rewrite IH|].
  destruct a; [exact Hb|discriminate].
Qed.

(** A line that ends with a trimmed value after a space loses nothing
    when the scanner drops a trailing carriage return. *)
Lemma dropCR_line (k v : string) :
  trimmed v -> bufio.dropCR (k +:+ ": " +:+ v) = k +:+ ": " +:+ v.
Proof.
  intros Hv. rewrite dropCR_app by discriminate. f_equal.
  change (": " +:+ v) with (String ":" (String " " v)).
  rewrite dropCR_cons by discriminate. f_equal.
  destruct v as [|c v]; [reflexivity|].
  rewrite dropCR_cons by discriminate. f_equal.
  now apply dropCR_trimmed.
Qed.

End bufio_facts.

Section Fields.

Import strings_facts strings_more bufio_facts.

#[local] Arguments AddField : simpl never.

Lemma fieldName_no (c : ascii) (k : string) :
  allowedFieldNames k = true ->
  (regexp.isLower c || regexp.isUpper c || Ascii.eqb c "-") = false ->
  strings.ContainsRune k c = false.
Proof.
  unfold allowedFieldNames, regexp.plus. intros H Hc.
  apply andb_true_iff in H as [_ H].
  now apply (all_ContainsRune _ _ _ H).
Qed.

Lemma AddField_ok t name content :
  allowedFieldNames name = true ->
  singleLine (strings.TrimSpace content) ->
  fields t !! name = None ->
  AddField t name content
  = (mkT (<[name := strings.TrimSpace content]> (fields t)) (conffiles t)
         (scripts t) (files t), None).
Proof.
  unfold AddField, singleLine. intros -> -> ->. reflexivity.
Qed.

Lemma AddField_inv t name content t' :
  AddField t name content = (t', None) ->
  allowedFieldNames name = true
  ∧ singleLine (strings.TrimSpace content)
  ∧ fields t !! name = None
  ∧ t' = mkT (<[name := strings.TrimSpace content]> (fields t)) (conffiles t)
             (scripts t) (files t).
Proof.
  unfold AddField, singleLine.
  destruct (allowedFieldNames name); [|discriminate]. simpl.
  destruct (strings.ContainsRune _ _); [discriminate|].
  destruct (fields t !! name); [discriminate|].
  intros [= <-]. auto.
Qed.

Lemma AddField_err t name content t' e :
  AddField t name content = (t', Some e) -> t' = t.
Proof.
  unfold AddField.
  destruct (allowedFieldNames name); simpl; [|congruence].
  destruct (strings.ContainsRune _ _); [congruence|].
  destruct (fields t !! name); congruence.
Qed.

Lemma AddField_fieldsOK t name content :
  fieldsOK (fields t) -> fieldsOK (fields (AddField t name content).1).
Proof.
  intros Hok. destruct (AddField t name content) as [t' [e|]] eqn:E.
  - apply AddField_err in E. now subst.
  - apply AddField_inv in E as (Hn & Hl & Hnone & ->). simpl.
    intros k v. destruct (decide (k = name)) as [->|Hk].
    + rewrite lookup_insert_eq. intros [= <-].
      repeat split; [exact Hn| |exact Hl]. apply TrimSpace_idem.
    + rewrite lookup_insert_ne by congruence. apply Hok.
Qed.

Lemma IndexByte_app (k rest : string) (c : ascii) :
  strings.ContainsRune k c = false ->
  strings.IndexByte (k +:+ String c rest) c = Some (String.length k).
Proof.
  induction k as [|x k IH]; intros H.
  - simpl. now rewrite Ascii.eqb_refl.
  - rewrite app_cons. simpl in *.
    destruct (Ascii.eqb x c); [discriminate|]. now rewrite IH.
Qed.

Lemma strings_take_app (x y : string) :
  strings.take (String.length x) (x +:+ y) = x.
Proof.
  induction x as [|c x IH]; [now destruct y|].
  rewrite app_cons. simpl. now rewrite IH.
Qed.

Lemma strings_drop_app (x y : string) :
  strings.drop (String.length x) (x +:+ y) = y.
Proof.
  induction x as [|c x IH]; [reflexivity|].
  rewrite app_cons. simpl. exact IH.
Qed.

Lemma strings_drop_S_app (x y : string) (c : ascii) :
  strings.drop (S (String.length x)) (x +:+ String c y) = y.
Proof.
  induction x as [|d x IH]; [reflexivity|].
  rewrite app_cons. simpl. exact IH.
Qed.

Lemma AddField_space t k v : AddField t k (" " +:+ v) = AddField t k v.
Proof. reflexivity. Qed.

(** Reading the line of a field adds the field. *)
Lemma readControlLine_line t k v :
  allowedFieldNames k = true ->
  readControlLine t (k +:+ ": " +:+ v) =
    match AddField t k v with
    | (t', Some e) =>
        (t', Some (errorString ("Unable to add field '" +:+ k +:+ "': "
                                +:+ Error e)))
    | r => r
    end.
Proof.
  intros Hk. unfold readControlLine.
  change (": " +:+ v) with (String ":" (" " +:+ v)).
  rewrite IndexByte_app by (apply fieldName_no; [exact Hk|reflexivity]).
  rewrite strings_take_app, strings_drop_S_app, AddField_space.
  now destruct (AddField t k v) as [t' [e|]].
Qed.

Lemma fieldLine_singleLine kv :
  fieldOK kv -> singleLine (kv.1 +:+ ": " +:+ kv.2).
Proof.
  intros (Hk & _ & Hv). unfold singleLine.
  rewrite !ContainsRune_app, Hv.
  rewrite (fieldName_no bufio.LF) by (exact Hk || reflexivity). reflexivity.
Qed.

Lemma fieldText_lines (kvs : list (string * string)) :
  fieldText kvs
  = fold_right (fun l text => l +:+ String bufio.LF text) ""
               (map (fun kv => kv.1 +:+ ": " +:+ kv.2) kvs).
Proof.
  induction kvs as [|kv kvs IH]; [reflexivity|].
  simpl. rewrite <- IH. unfold fieldLine, nl.
  rewrite !app_assoc. reflexivity.
Qed.

Lemma ScanLines_fieldText (kvs : list (string * string)) :
  Forall fieldOK kvs ->
  bufio.ScanLines (fieldText kvs)
  = map (fun kv => kv.1 +:+ ": " +:+ kv.2) kvs.
Proof.
  intros H. rewrite fieldText_lines, ScanLines_lines.
  - rewrite map_map. apply map_ext_Forall.
    eapply Forall_impl; [exact H|]. intros kv (_ & Hv & _).
    now apply dropCR_line.
  - apply Forall_map. eapply Forall_impl; [exact H|].
    apply fieldLine_singleLine.
Qed.

Lemma Scan_fieldText (kvs : list (string * string)) :
  Forall fieldOK kvs ->
  Forall (fun kv => fitsLine (kv.1 +:+ ": " +:+ kv.2)) kvs ->
  Scanner.Scan (fieldText kvs)
  = (map (fun kv => kv.1 +:+ ": " +:+ kv.2) kvs, None).
Proof.
  intros H Hfit. rewrite fieldText_lines, Scan_lines.
  - rewrite map_map. f_equal. apply map_ext_Forall.
    eapply Forall_impl; [exact H|]. intros kv (_ & Hv & _).
    now apply dropCR_line.
  - apply Forall_map. eapply Forall_impl; [exact H|].
    apply fieldLine_singleLine.
  - now apply Forall_map.
Qed.

(** The fields a scan of the lines of [kvs] adds. *)
Lemma scanLoop_fields what (kvs : list (string * string)) :
  ∀ t i,
  Forall fieldOK kvs -> NoDup kvs.*1 ->
  (∀ k, k ∈ kvs.*1 -> fields t !! k = None) ->
  scanLoop readControlLine what t i
           (map (fun kv => kv.1 +:+ ": " +:+ kv.2) kvs)
  = (mkT (fold_left (fun m kv => <[kv.1 := kv.2]> m) kvs (fields t))
         (conffiles t) (scripts t) (files t), None).
Proof.
  induction kvs as [|[k v] kvs IH]; intros t i Hok Hnd Hfresh.
  - simpl. now destruct t.
  - apply Forall_cons in Hok as [(Hk & Hv & Hl) Hok].
    apply NoDup_cons in Hnd as [Hnotin Hnd]. simpl in *.
    rewrite readControlLine_line by exact Hk.
    rewrite AddField_ok; [|exact Hk| |apply Hfresh; left].
    2:{ unfold trimmed in Hv. now rewrite Hv. }
    rewrite IH; [|exact Hok|exact Hnd|].
    + simpl. unfold trimmed in Hv. now rewrite Hv.
    + intros k' Hk'. simpl. rewrite lookup_insert_ne.
      * apply Hfresh. now right.
      * intros ->. contradiction.
Qed.

Lemma fold_insert_list_to_map {A} (kvs : list (string * A)) :
  NoDup kvs.*1 ->
  fold_left (fun m kv => <[kv.1 := kv.2]> m) kvs (∅ : gmap string A)
  = list_to_map kvs.
Proof.
  assert (∀ (m : gmap string A),
            NoDup kvs.*1 -> (∀ k, k ∈ kvs.*1 -> m !! k = None) ->
            fold_left (fun m kv => <[kv.1 := kv.2]> m) kvs m
            = list_to_map kvs ∪ m) as H.
  { induction kvs as [|[k v] kvs IH]; intros m Hnd Hfresh; simpl.
    - now rewrite (left_id_L ∅ (∪)).
    - apply NoDup_cons in Hnd as [Hnotin Hnd]. rewrite IH; [|exact Hnd|].
      + rewrite <- insert_union_r, insert_union_l; [reflexivity|].
        now apply not_elem_of_list_to_map_1.
      + intros k' Hk'. rewrite lookup_insert_ne; [apply Hfresh; now right|].
        intros ->. contradiction. }
  intros Hnd. rewrite H; [now rewrite (right_id_L ∅ (∪))|exact Hnd|].
  intros k _. apply lookup_empty.
Qed.

End Fields.

(** ** The control file, written and read *)

Section RangeFacts.

Context {A : Type}.

Lemma elem_of_range (m : gmap string A) (order : list string) k v :
  (k, v) ∈ range m order <-> k ∈ order ∧ m !! k = Some v.
Proof.
  unfold range. induction order as [|x order IH]; simpl.
  - split; [intros H; now apply elem_of_nil in H|].
    intros [H _]. now apply elem_of_nil in H.
  - destruct (m !! x) as [w|] eqn:E; simpl.
    + rewrite elem_of_cons, IH, elem_of_cons. split.
      * intros [[= -> ->]|[H1 H2]]; auto.
      * intros [[->|H1] H2]; [left; congruence|right; auto].
    + rewrite IH, elem_of_cons. split.
      * intros [H1 H2]; auto.
      * intros [[->|H1] H2]; [congruence|auto].
Qed.

Lemma range_fst_elem (m : gmap string A) (order : list string) k :
  k ∈ (range m order).*1 -> k ∈ order.
Proof.
  intros H. apply list_elem_of_fmap in H as ([k' v] & -> & H).
  now apply elem_of_range in H as [H _].
Qed.

Lemma NoDup_range (m : gmap string A) (order : list string) :
  NoDup order -> NoDup (range m order).*1.
Proof.
  induction 1 as [|x order Hx Hnd IH]; [constructor|].
  unfold range in *. simpl. destruct (m !! x) as [w|]; simpl; [|exact IH].
  constructor; [|exact IH]. intros H. apply Hx.
  now apply (range_fst_elem m).
Qed.

Lemma range_order_NoDup (m : gmap string A) (order : list string) :
  range_order m order -> NoDup order.
Proof.
  unfold range_order. intros ->. apply NoDup_fst_map_to_list.
Qed.

Lemma range_order_elem (m : gmap string A) (order : list string) k :
  range_order m order -> k ∈ order <-> is_Some (m !! k).
Proof.
  unfold range_order. intros ->. rewrite list_elem_of_fmap. split.
  - intros ([k' v] & -> & H). apply elem_of_map_to_list in H. eauto.
  - intros [v H]. exists (k, v). split; [reflexivity|].
    now apply elem_of_map_to_list.
Qed.

End RangeFacts.

Section ControlRoundTrip.

Import strings_facts strings_more bufio_facts.

Lemma fieldText_app (a b : list (string * string)) :
  fieldText (a ++ b) = fieldText a +:+ fieldText b.
Proof.
  induction a as [|kv a IH]; [reflexivity|].
  simpl. now rewrite IH, app_assoc.
Qed.

Lemma writeMandatory_range (flds : gmap string string)
    (names : list string) (buf text : string) :
  writeMandatory flds names buf = inl text ->
  text = buf +:+ fieldText (range flds names)
  ∧ ∀ k, k ∈ names -> is_Some (flds !! k).
Proof.
  revert buf. induction names as [|n names IH]; intros buf; simpl.
  - intros [= <-]. split; [now rewrite app_empty_r|].
    intros k H. now apply elem_of_nil in H.
  - unfold range. simpl. destruct (flds !! n) as [content|] eqn:E;
      [|discriminate].
    intros H. apply IH in H as [-> Hall]. split.
    + simpl. now rewrite app_assoc.
    + intros k [->|Hk]%elem_of_cons; eauto.
Qed.

(** The pairs whose lines make up the control file. *)
Lemma controlText_pairs (t : T) (order : list string) (text : string) :
  controlText t order = inl text ->
  text = fieldText (controlPairs t order)
  ∧ ∀ k, k ∈ mandatoryFields -> is_Some (fields t !! k).
Proof.
  unfold controlText, controlPairs.
  destruct (writeMandatory (fields t) mandatoryFields "") as [buf|e] eqn:E;
    [|discriminate].
  intros [= <-]. apply writeMandatory_range in E as [-> Hall].
  split; [|exact Hall].
  rewrite writeRemaining_spec, filter_mandatory, fieldText_app.
  reflexivity.
Qed.

Lemma NoDup_mandatoryFields : NoDup mandatoryFields.
Proof. apply (bool_decide_unpack _). vm_compute. exact I. Qed.

Lemma elem_of_controlPairs (t : T) (order : list string) k v :
  range_order (fields t) order ->
  (k, v) ∈ controlPairs t order <-> fields t !! k = Some v.
Proof.
  intros Horder. unfold controlPairs.
  rewrite elem_of_app, list_elem_of_filter, !elem_of_range. simpl.
  rewrite (range_order_elem _ _ k Horder). split.
  - intros [[_ H]|(_ & _ & H)]; exact H.
  - intros H. destruct (decide (k ∈ mandatoryFields)); [left|right]; eauto.
Qed.

Lemma NoDup_controlPairs (t : T) (order : list string) :
  range_order (fields t) order -> NoDup (controlPairs t order).*1.
Proof.
  intros Horder. unfold controlPairs. rewrite fmap_app.
  apply NoDup_app. split; [|split].
  - apply NoDup_range, NoDup_mandatoryFields.
  - intros k H1 H2. apply range_fst_elem in H1.
    apply list_elem_of_fmap in H2 as ([k' v] & -> & H2).
    apply list_elem_of_filter in H2 as [H2 _]. contradiction.
  - eapply sublist_NoDup;
      [apply (NoDup_range (fields t) order), (range_order_NoDup _ _ Horder)|].
    apply fmap_sublist, sublist_filter.
Qed.

Lemma list_to_map_controlPairs (t : T) (order : list string) :
  range_order (fields t) order ->
  list_to_map (controlPairs t order) = fields t.
Proof.
  intros Horder. apply map_eq. intros k. apply option_eq. intros v.
  rewrite <- elem_of_list_to_map by now apply NoDup_controlPairs.
  now apply elem_of_controlPairs.
Qed.

Lemma readControl_controlText encode (t t0 : T) (order : list string)
    (text : string) :
  fieldsOK (fields t) -> fieldsFit (fields t) ->
  range_order (fields t) order ->
  controlText t order = inl text -> fields t0 = ∅ ->
  readControl encode t0 (Raw text)
  = (mkT (fields t) (conffiles t0) (scripts t0) (files t0), None).
Proof.
  intros Hok Hfit Horder Htext Hempty.
  apply controlText_pairs in Htext as [-> _].
  assert (Forall fieldOK (controlPairs t order)) as Hall.
  { apply Forall_forall. intros [k v] H.
    apply (elem_of_controlPairs _ _ _ _ Horder) in H. now apply Hok. }
  assert (Forall (fun kv => fitsLine (kv.1 +:+ ": " +:+ kv.2))
                 (controlPairs t order)) as Hfits.
  { apply Forall_forall. intros [k v] H.
    apply (elem_of_controlPairs _ _ _ _ Horder) in H. now apply Hfit. }
  unfold readControl. simpl bytesOf.
  rewrite Scan_fieldText by assumption.
  rewrite scanLoop_fields;
    [|exact Hall|now apply NoDup_controlPairs|].
  - rewrite Hempty, fold_insert_list_to_map by now apply NoDup_controlPairs.
    now rewrite list_to_map_controlPairs.
  - intros k _. rewrite Hempty. apply lookup_empty.
Qed.

End ControlRoundTrip.

(** ** Sorting, and the conffiles file *)

Section SortFacts.

Lemma Strings_Sorted (l : list string) : Sorted String.le (sort.Strings l).
Proof. apply Sorted_merge_sort. apply _. Qed.

Lemma Strings_Permutation (l : list string) : sort.Strings l ≡ₚ l.
Proof. apply merge_sort_Permutation. Qed.

(** Sorting forgets the order of its input. *)
Lemma Strings_perm (l1 l2 : list string) :
  l1 ≡ₚ l2 -> sort.Strings l1 = sort.Strings l2.
Proof.
  intros H. apply (Sorted_unique String.le); try apply Strings_Sorted.
  now rewrite !Strings_Permutation.
Qed.

Lemma Strings_idem (l : list string) :
  sort.Strings (sort.Strings l) = sort.Strings l.
Proof. apply Strings_perm, Strings_Permutation. Qed.

End SortFacts.

Section Conffiles.

Import strings_facts strings_more bufio_facts.

#[local] Arguments AddConffile : simpl never.

Lemma Clean_idem_abs (p : string) :
  path.IsAbs p = true -> path.Clean (path.Clean p) = path.Clean p.
Proof.
  intros Hp. rewrite (Clean_rooted p Hp).
  rewrite Clean_rooted by reflexivity.
  now rewrite cleanStack_render by apply cleanStack_plain.
Qed.

Lemma AddConffile_ok t c :
  conffileOK c ->
  AddConffile t c
  = (mkT (fields t) (conffiles t ++ [c]) (scripts t) (files t), None).
Proof.
  intros (H1 & H2 & H3). unfold AddConffile. rewrite H1, H2. simpl.
  destruct (String.eqb_spec c "/"); [contradiction|reflexivity].
Qed.

Lemma AddConffile_conffileOK t pathname :
  Forall conffileOK (conffiles t) ->
  Forall conffileOK (conffiles (AddConffile t pathname).1).
Proof.
  intros H. unfold AddConffile.
  destruct (path.IsAbs (path.Clean pathname)) eqn:E1; simpl; [|exact H].
  destruct (String.eqb_spec (path.Clean pathname) "/") as [|E2]; [exact H|].
  simpl. apply Forall_app. split; [exact H|]. constructor; [|constructor].
  rewrite path_facts.Clean_IsAbs in E1.
  refine (conj _ (conj _ E2)).
  - now apply Clean_idem_abs.
  - now rewrite path_facts.Clean_IsAbs.
Qed.

Lemma conffilesText_lines (cs : list string) :
  conffilesText cs
  = fold_right (fun l text => l +:+ String bufio.LF text) "" cs.
Proof.
  unfold conffilesText.
  assert (∀ buf, fold_left (fun buf f => buf +:+ f +:+ nl) cs buf
                 = buf +:+ fold_right
                             (fun l text => l +:+ String bufio.LF text) "" cs)
    as H; [|apply H].
  induction cs as [|c cs IH]; intros buf; simpl.
  - now rewrite app_empty_r.
  - rewrite IH. unfold nl. now rewrite !strings_facts.app_assoc.
Qed.

Lemma scanLoop_conffiles (cs : list string) :
  ∀ t i, Forall conffileOK cs ->
  scanLoop readConffile "conffiles" t i cs
  = (mkT (fields t) (conffiles t ++ cs) (scripts t) (files t), None).
Proof.
  induction cs as [|c cs IH]; intros t i Hcs; simpl.
  - rewrite app_nil_r. now destruct t.
  - apply Forall_cons in Hcs as [Hc Hcs]. unfold readConffile.
    destruct (String.eqb_spec c "") as [->|_].
    { destruct Hc as (H & _). discriminate H. }
    rewrite AddConffile_ok by exact Hc. rewrite IH by exact Hcs.
    simpl. now rewrite <- List.app_assoc.
Qed.

Lemma readConffiles_text encode (t : T) (cs : list string) :
  Forall conffileOK cs -> Forall lineSafe cs ->
  readConffiles encode t (Raw (conffilesText cs))
  = (mkT (fields t) (sort.Strings (conffiles t ++ cs)) (scripts t) (files t),
     None).
Proof.
  intros Hok Hsafe. unfold readConffiles. simpl bytesOf.
  rewrite conffilesText_lines, Scan_lines.
  - assert (map bufio.dropCR cs = cs) as ->.
    { rewrite <- (map_id cs) at 2. apply map_ext_Forall.
      eapply Forall_impl; [exact Hsafe|]. now intros c (_ & H & _). }
    now rewrite scanLoop_conffiles.
  - eapply Forall_impl; [exact Hsafe|]. now intros c (H & _).
  - eapply Forall_impl; [exact Hsafe|]. now intros c (_ & _ & H).
Qed.

End Conffiles.

(** ** Scripts in the control sub-archive *)

Section Scripts.

Variable encode : Data -> string.

#[local] Arguments AddScript : simpl never.
#[local] Arguments unslash : simpl never.
#[local] Arguments path.Clean : simpl never.
#[local] Arguments slash : simpl never.




Lemma AddScript_scriptsOK t name r :
  scriptsOK encode (scripts t) ->
  scriptsOK encode (scripts (AddScript encode t name r).1).
Proof.
  intros Hok. unfold AddScript. destruct r as [r|]; [|exact Hok].
  destruct (String.eqb_spec name controlName) as [|H1]; [exact Hok|].
  destruct (String.eqb_spec name confName) as [|H2]; [exact Hok|].
  destruct (allowedScriptNames name) eqn:H3; [|exact Hok]. simpl.
  destruct (scripts t !! name) eqn:E; [exact Hok|].
  destruct r as [content|e]; [|exact Hok]. simpl.
  intros k f. destruct (decide (k = name)) as [->|Hk].
  - rewrite lookup_insert_eq. intros [= <-].
    refine (conj H3 (conj H1 (conj H2 _))). eauto.
  - rewrite lookup_insert_ne by congruence. apply Hok.
Qed.



End Scripts.

(** ** The control sub-archive, written and read *)

Section ControlArchive.

Variable encode : Data -> string.

#[local] Arguments readControl : simpl never.
#[local] Arguments readConffiles : simpl never.
#[local] Arguments AddScript : simpl never.
#[local] Arguments unslash : simpl never.
#[local] Arguments path.Clean : simpl never.
#[local] Arguments slash : simpl never.
#[local] Arguments sort.Strings : simpl never.

Lemma addConffiles_text t w modTime :
  conffiles t ≠ [] ->
  addConffiles t w modTime
  = (mkT (fields t) (sort.Strings (conffiles t)) (scripts t) (files t),
     w ++ [(fileHeader (slash confName)
              (Z.of_nat (String.length
                           (conffilesText (sort.Strings (conffiles t)))))
              modTime,
            Raw (conffilesText (sort.Strings (conffiles t))))], None).
Proof.
  unfold addConffiles. destruct (conffiles t); [contradiction|reflexivity].
Qed.


Lemma Forall_Strings (P : string -> Prop) (l : list string) :
  Forall P l -> Forall P (sort.Strings l).
Proof.
  intros H. now rewrite Strings_Permutation.
Qed.


End ControlArchive.

(** ** Relative paths *)

Section RelativePaths.

#[local] Arguments String.concat _ _ : simpl never.

Lemma fold_step_plain (rooted : bool) (st out : list string) :
  Forall plain st -> fold_left (path.step rooted) st out = rev st ++ out.
Proof.
  revert out. induction st as [|e st IH]; intros out Hst; [reflexivity|].
  apply Forall_cons in Hst as [He Hst]. simpl.
  rewrite step_plain by exact He. rewrite IH by exact Hst.
  now rewrite <- List.app_assoc.
Qed.

Lemma plain_noSlash (st : list string) : Forall plain st -> Forall noSlash st.
Proof.
  intros H. eapply Forall_impl; [exact H|]. now intros e (_ & _ & _ & He).
Qed.

Lemma elements_concat (st : list string) :
  st ≠ [] -> Forall noSlash st ->
  path.elements (String.concat "/" st) = st.
Proof.
  induction st as [|e st IH]; [congruence|]. intros _ Hst.
  apply Forall_cons in Hst as [He Hst].
  destruct st as [|e' st]; [now apply elements_noSlash_id|].
  rewrite path_facts.concat_cons by discriminate.
  rewrite elements_app, elements_noSlash_id by exact He.
  now rewrite IH.
Qed.

Lemma elements_concat_slash (st : list string) :
  st ≠ [] -> Forall noSlash st ->
  path.elements (String.concat "/" st +:+ "/") = st ++ [""].
Proof.
  intros Hne Hst.
  rewrite <- (strings_facts.app_empty_r (_ +:+ "/")), strings_facts.app_assoc.
  rewrite elements_app. now rewrite elements_concat.
Qed.

Lemma cleanStack_concat (rooted : bool) (st : list string) :
  st ≠ [] -> Forall plain st ->
  path.cleanStack rooted (String.concat "/" st) = st.
Proof.
  intros Hne Hst. unfold path.cleanStack.
  rewrite elements_concat by (try apply plain_noSlash; assumption).
  rewrite fold_step_plain by exact Hst.
  now rewrite app_nil_r, List.rev_involutive.
Qed.

Lemma cleanStack_concat_slash (rooted : bool) (st : list string) :
  st ≠ [] -> Forall plain st ->
  path.cleanStack rooted (String.concat "/" st +:+ "/") = st.
Proof.
  intros Hne Hst. unfold path.cleanStack.
  rewrite elements_concat_slash by (try apply plain_noSlash; assumption).
  rewrite fold_left_app, (fold_step_plain rooted st) by exact Hst. simpl.
  change (path.step rooted (rev st ++ []) "") with (rev st ++ []).
  now rewrite app_nil_r, List.rev_involutive.
Qed.

(** A path that begins with the element [x] and a slash has [x] as its
    first element. *)
Lemma HasPrefix_elem (x : string) :
  ∀ e r, noSlash e -> noSlash x ->
         r = "" ∨ strings.HasPrefix r "/" = true ->
         strings.HasPrefix (e +:+ r) (x +:+ "/") = true -> e = x.
Proof.
  unfold noSlash.
  induction x as [|a x IH]; intros e r He Hx Hr H.
  - destruct e as [|c e]; [reflexivity|].
    rewrite strings_facts.app_cons in H. simpl in H, He.
    destruct (Ascii.eqb c "/"); [discriminate|]. discriminate.
  - rewrite strings_facts.app_cons in H. simpl in Hx.
    destruct (Ascii.eqb_spec a "/") as [|Ha]; [discriminate|].
    destruct e as [|c e].
    + rewrite strings_facts.app_nil_l in H.
      destruct Hr as [->|Hr]; [discriminate|].
      destruct r as [|b r]; [discriminate|]. simpl in Hr, H.
      apply andb_true_iff in Hr as [Hb _]. apply Ascii.eqb_eq in Hb.
      apply andb_true_iff in H as [Hba _]. apply Ascii.eqb_eq in Hba.
      congruence.
    + rewrite strings_facts.app_cons in H. simpl in H, He.
      apply andb_true_iff in H as [Hc H]. apply Ascii.eqb_eq in Hc. subst c.
      destruct (Ascii.eqb a "/"); [discriminate|].
      f_equal. now apply (IH e r).
Qed.

Lemma concat_head (e : string) (st : list string) :
  ∃ r, String.concat "/" (e :: st) = e +:+ r
       ∧ (r = "" ∨ strings.HasPrefix r "/" = true).
Proof.
  destruct st as [|e' st].
  - exists "". split; [|now left]. unfold String.concat.
    now rewrite strings_facts.app_empty_r.
  - exists ("/" +:+ String.concat "/" (e' :: st)). split; [|now right].
    now rewrite path_facts.concat_cons by discriminate.
Qed.

Lemma concat_eq_elem (x : string) (e : string) (st : list string) :
  noSlash e -> noSlash x -> String.concat "/" (e :: st) = x -> e = x.
Proof.
  intros He Hx H. destruct (concat_head e st) as (r & Hr & Hcase).
  rewrite Hr in H. apply (HasPrefix_elem x e (r +:+ "/")); try assumption.
  - right. destruct Hcase as [->|Hcase]; [reflexivity|].
    destruct r as [|b r]; [discriminate|]. exact Hcase.
  - rewrite <- strings_facts.app_assoc, H.
    rewrite <- (strings_facts.app_empty_r (x +:+ "/")) at 1.
    apply HasPrefix_app.
Qed.

(** The relative name with the elements [st] is none of the names that
    [readDataArchive] skips, and has no prefix that [unslash] removes. *)
Lemma concat_plain_name (st : list string) :
  st ≠ [] -> Forall plain st ->
  String.concat "/" st ≠ "" ∧ String.concat "/" st ≠ "."
  ∧ String.concat "/" st ≠ ".."
  ∧ strings.HasPrefix (String.concat "/" st) "../" = false
  ∧ strings.HasPrefix (String.concat "/" st) "./" = false
  ∧ strings.HasPrefix (String.concat "/" st) "/" = false.
Proof.
  destruct st as [|e st]; [congruence|]. intros _ Hst.
  apply Forall_cons in Hst as [(H1 & H2 & H3 & H4) _].
  destruct (concat_head e st) as (r & Hr & Hcase).
  assert (∀ x, noSlash x -> e ≠ x ->
               strings.HasPrefix (String.concat "/" (e :: st)) (x +:+ "/")
               = false) as Hpre.
  { intros x Hx Hne.
    rewrite Hr.
    destruct (strings.HasPrefix (e +:+ r) (x +:+ "/")) eqn:E; [|reflexivity].
    now apply HasPrefix_elem in E. }
  repeat split.
  - intros H. now apply concat_eq_elem in H.
  - intros H. now apply concat_eq_elem in H.
  - intros H. now apply concat_eq_elem in H.
  - now apply (Hpre "..").
  - now apply (Hpre ".").
  - now apply (Hpre "").
Qed.

Lemma Clean_concat (st : list string) :
  st ≠ [] -> Forall plain st ->
  path.Clean (String.concat "/" st) = String.concat "/" st.
Proof.
  intros Hne Hst.
  destruct (concat_plain_name st Hne Hst) as (H1 & _ & _ & _ & _ & H6).
  unfold path.Clean.
  destruct (String.eqb_spec (String.concat "/" st) ""); [contradiction|].
  rewrite H6, cleanStack_concat by assumption.
  destruct st; [contradiction|reflexivity].
Qed.

Lemma Clean_concat_slash (st : list string) :
  st ≠ [] -> Forall plain st ->
  path.Clean (String.concat "/" st +:+ "/") = String.concat "/" st.
Proof.
  intros Hne Hst.
  destruct (concat_plain_name st Hne Hst) as (H1 & _ & _ & _ & _ & H6).
  unfold path.Clean.
  destruct (String.eqb_spec (String.concat "/" st +:+ "/") "") as [E|_].
  { destruct (String.concat "/" st); [contradiction|discriminate]. }
  assert (strings.HasPrefix (String.concat "/" st +:+ "/") "/" = false) as ->.
  { destruct (String.concat "/" st) as [|c s]; [contradiction|].
    exact H6. }
  rewrite cleanStack_concat_slash by assumption.
  destruct st; [contradiction|reflexivity].
Qed.

Lemma slash_abs (q : string) : slash ("/" +:+ q) = "./" +:+ q.
Proof. reflexivity. Qed.

Lemma unslash_dotslash (q : string) : unslash ("./" +:+ q) = unslash q.
Proof. reflexivity. Qed.

(** The name under which a path of the tree is read back. *)
Lemma readName_render (st : list string) :
  st ≠ [] -> Forall plain st ->
  path.Clean (unslash (slash (render st))) = String.concat "/" st.
Proof.
  intros Hne Hst. unfold render. rewrite slash_abs, unslash_dotslash.
  destruct (concat_plain_name st Hne Hst) as (_ & _ & _ & _ & H5 & H6).
  rewrite unslash_fixed by assumption. now apply Clean_concat.
Qed.

Lemma concat_slash_no_prefix (st : list string) :
  st ≠ [] -> Forall plain st ->
  strings.HasPrefix (String.concat "/" st +:+ "/") "./" = false
  ∧ strings.HasPrefix (String.concat "/" st +:+ "/") "/" = false.
Proof.
  destruct st as [|e st]; [congruence|]. intros _ Hst.
  apply Forall_cons in Hst as [(H1 & H2 & H3 & H4) _].
  destruct (concat_head e st) as (r & -> & Hcase).
  rewrite strings_facts.app_assoc.
  assert (r +:+ "/" = "" ∨ strings.HasPrefix (r +:+ "/") "/" = true) as Hr.
  { right. destruct Hcase as [->|Hcase]; [reflexivity|].
    destruct r as [|b r]; [discriminate|]. exact Hcase. }
  split.
  - destruct (strings.HasPrefix (e +:+ r +:+ "/") "./") eqn:E;
      [|reflexivity].
    apply (HasPrefix_elem "." e (r +:+ "/") H4 eq_refl Hr) in E.
    contradiction.
  - destruct (strings.HasPrefix (e +:+ r +:+ "/") "/") eqn:E;
      [|reflexivity].
    apply (HasPrefix_elem "" e (r +:+ "/") H4 eq_refl Hr) in E.
    contradiction.
Qed.

Lemma readName_dirKey (st : list string) :
  st ≠ [] -> Forall plain st ->
  path.Clean (unslash (slash (dirKey st))) = String.concat "/" st.
Proof.
  intros Hne Hst. unfold dirKey, render.
  rewrite strings_facts.app_assoc, slash_abs, unslash_dotslash.
  destruct (concat_slash_no_prefix st Hne Hst) as [H5 H6].
  rewrite unslash_fixed by assumption.
  now apply Clean_concat_slash.
Qed.

End RelativePaths.

(** ** The paths of a data sub-archive *)

Section CleanRelative.

#[local] Arguments String.concat _ _ : simpl never.

(** The buffer of [Clean] on a relative path: names on top of a run of
    [..] elements. *)
Lemma step_shape (out : list string) (e : string) :
  noSlash e ->
  (∃ st k, out = st ++ replicate k ".." ∧ Forall plain st) ->
  ∃ st k, path.step false out e = st ++ replicate k ".." ∧ Forall plain st.
Proof.
  intros He (st & k & -> & Hst). unfold path.step.
  destruct (String.eqb_spec e "") as [|H1]; [eauto|].
  destruct (String.eqb_spec e ".") as [|H2]; [eauto|].
  destruct (String.eqb_spec e "..") as [|H3].
  - destruct st as [|top st].
    + simpl. destruct k as [|k]; simpl.
      * exists [], 1%nat. split; [reflexivity|constructor].
      * exists [], (S (S k)). split; [reflexivity|constructor].
    + apply Forall_cons in Hst as [(_ & _ & Htop & _) Hst]. simpl.
      destruct (String.eqb_spec top ".."); [contradiction|]. simpl. eauto.
  - exists (e :: st), k. split; [reflexivity|].
    constructor; [|exact Hst]. repeat split; assumption.
Qed.

Lemma fold_step_shape (es out : list string) :
  Forall noSlash es ->
  (∃ st k, out = st ++ replicate k ".." ∧ Forall plain st) ->
  ∃ st k, fold_left (path.step false) es out = st ++ replicate k ".."
          ∧ Forall plain st.
Proof.
  revert out. induction es as [|e es IH]; intros out Hes Hout; [exact Hout|].
  apply Forall_cons in Hes as [He Hes]. simpl. apply IH; [exact Hes|].
  now apply step_shape.
Qed.

Lemma rev_replicate {A} (k : nat) (x : A) :
  rev (replicate k x) = replicate k x.
Proof.
  induction k as [|k IH]; [reflexivity|].
  simpl. rewrite IH. symmetry. apply replicate_cons_app.
Qed.

Lemma cleanStack_relative (p : string) :
  ∃ st k, path.cleanStack false p = replicate k ".." ++ st ∧ Forall plain st.
Proof.
  unfold path.cleanStack.
  destruct (fold_step_shape (path.elements p) [])
    as (st & k & -> & Hst).
  - apply path_facts.elements_noSlash.
  - exists [], 0%nat. split; [reflexivity|constructor].
  - exists (rev st), k. rewrite rev_app_distr, rev_replicate.
    split; [reflexivity|]. now apply Forall_rev.
Qed.

(** The cleaned form of a relative path is [.], or climbs out of its
    directory, or is a name below it. *)
Lemma Clean_relative (p : string) :
  strings.HasPrefix p "/" = false ->
  path.Clean p = "." ∨ path.Clean p = ".."
  ∨ strings.HasPrefix (path.Clean p) "../" = true
  ∨ ∃ st, st ≠ [] ∧ Forall plain st ∧ path.Clean p = String.concat "/" st.
Proof.
  intros Hp. unfold path.Clean.
  destruct (String.eqb_spec p ""); [now left|]. rewrite Hp.
  destruct (cleanStack_relative p) as (st & k & -> & Hst).
  destruct k as [|k].
  - simpl. destruct st as [|e st]; [now left|].
    right; right; right. exists (e :: st). now repeat split.
  - simpl. right. destruct (replicate k ".." ++ st) as [|e l].
    + now left.
    + right; left. now rewrite path_facts.concat_cons by discriminate.
Qed.

End CleanRelative.

Section ReadKeys.

#[local] Arguments strings.HasPrefix : simpl never.
#[local] Arguments unslash : simpl never.
#[local] Arguments path.Clean : simpl never.

Lemma readDataEntries_keys es tl :
  ∀ t t' err,
    readDataEntries t es tl = (t', err) ->
    fields t' = fields t ∧ conffiles t' = conffiles t
    ∧ scripts t' = scripts t
    ∧ ∀ k, is_Some (files t' !! k) -> is_Some (files t !! k) ∨ treeKey k.
Proof.
  induction es as [|[hdr content] es IH]; intros t t' err; simpl.
  - destruct tl; intros [= <- <-]; auto.
  - destruct (String.eqb_spec (path.Clean (unslash (tar.Name hdr))) ".")
      as [|H1]; [apply IH|].
    destruct (String.eqb_spec (path.Clean (unslash (tar.Name hdr))) "..")
      as [|H2]; [apply IH|].
    destruct (strings.HasPrefix (path.Clean (unslash (tar.Name hdr))) "../")
      eqn:H3; [apply IH|]. simpl.
    destruct (files t !! path.Clean (unslash (tar.Name hdr)));
      [intros [= <- <-]; auto|].
    intros H. apply IH in H as (F1 & F2 & F3 & F4). simpl in *.
    refine (conj F1 (conj F2 (conj F3 _))).
    intros k Hk. apply F4 in Hk as [Hk|Hk]; [|now right].
    destruct (decide ("/" +:+ path.Clean (unslash (tar.Name hdr)) = k))
      as [<-|Hne].
    + right.
      destruct (Clean_relative (unslash (tar.Name hdr)))
        as [H|[H|[H|(st & Hne & Hst & H)]]];
        try congruence.
      * apply unslash_no_prefix.
      * exists st. rewrite H. now repeat split.
    + left. now rewrite lookup_insert_ne in Hk.
Qed.

End ReadKeys.

(** ** Writing the data sub-archive *)

Section StringOrder.

Lemma Ascii_compare_refl (c : ascii) : Ascii.compare c c = Eq.
Proof.
  pose proof (Ascii.compare_antisym c c) as H.
  destruct (Ascii.compare c c); simpl in H; congruence.
Qed.

(** A string is not above its extensions. *)
Lemma le_prefix (s x : string) : String.le s (s +:+ x).
Proof.
  unfold String.le, String.leb.
  induction s as [|c s IH]; [now destruct x|].
  rewrite strings_facts.app_cons. simpl. now rewrite Ascii_compare_refl.
Qed.

Lemma app_ne_self (s x : string) : x ≠ "" -> s +:+ x ≠ s.
Proof.
  intros Hx H. apply (f_equal String.length) in H.
  rewrite strings_facts.length_app in H. destruct x; [congruence|].
  simpl in H. lia.
Qed.

End StringOrder.

Section FoldInsert.

Context {A B : Type}.
Variable g : A -> string.
Variable h : A -> B.

Lemma fold_insert_none (l : list A) (m : gmap string B) (K : string) :
  (∀ y, y ∈ l -> g y ≠ K) ->
  fold_left (fun m a => <[g a := h a]> m) l m !! K = m !! K.
Proof.
  revert m. induction l as [|a l IH]; intros m Hl; [reflexivity|].
  simpl. rewrite IH by (intros y Hy; apply Hl; now right).
  apply lookup_insert_ne. apply Hl. now left.
Qed.

(** The last insertion under a key is what the lookup finds. *)
Lemma fold_insert_last (l1 l2 : list A) (x : A) (m : gmap string B) :
  (∀ y, y ∈ l2 -> g y ≠ g x) ->
  fold_left (fun m a => <[g a := h a]> m) (l1 ++ x :: l2) m !! g x
  = Some (h x).
Proof.
  intros Hl2. rewrite fold_left_app. simpl.
  rewrite fold_insert_none by exact Hl2. apply lookup_insert_eq.
Qed.

End FoldInsert.

Section DataArchive.

Variable encode : Data -> string.

#[local] Arguments slash : simpl never.
#[local] Arguments unslash : simpl never.
#[local] Arguments path.Clean : simpl never.
#[local] Arguments strings.HasPrefix : simpl never.
#[local] Arguments sort.Strings : simpl never.
#[local] Arguments isRegular : simpl never.

Lemma range_fst_present {A} (m : gmap string A) (l : list string) :
  (∀ k, k ∈ l -> is_Some (m !! k)) -> (range m l).*1 = l.
Proof.
  unfold range. induction l as [|k l IH]; intros H; [reflexivity|].
  simpl. destruct (H k ltac:(left)) as [v ->]. simpl. f_equal.
  apply IH. intros k' Hk'. apply H. now right.
Qed.

(** The paths of the data archive do not depend on the walk over the
    file map. *)
Lemma sortedPaths_order (t : T) (order : list string) :
  range_order (files t) order ->
  sort.Strings (range (files t) order).*1 = sortedPaths t.
Proof.
  intros H. apply Strings_perm.
  now rewrite (range_Permutation _ _ H).
Qed.

Lemma elem_of_sortedPaths (t : T) (k : string) :
  k ∈ sortedPaths t <-> is_Some (files t !! k).
Proof.
  unfold sortedPaths. rewrite Strings_Permutation.
  apply range_order_elem. unfold range_order. reflexivity.
Qed.

Lemma NoDup_sortedPaths (t : T) : NoDup (sortedPaths t).
Proof.
  unfold sortedPaths. rewrite Strings_Permutation.
  apply NoDup_fst_map_to_list.
Qed.

Lemma fileOK_data k f :
  fileOK encode k f ->
  data f = None ∨ ∃ c, data f = Some (Gz gzip.BestCompression c).
Proof.
  intros (_ & _ & H). destruct (isRegular (header f)); [|now left].
  destruct H as (c & -> & _). eauto.
Qed.

(** The loop over the sorted paths writes the entry of each file and
    leaves the file in the package with the name in its header
    changed. *)
Lemma addEntries_entries (kvs : list (string * file)) :
  ∀ t w,
  NoDup kvs.*1 ->
  (∀ k f, (k, f) ∈ kvs -> files t !! k = Some f ∧ fileOK encode k f) ->
  addEntries t w kvs.*1
  = (mkT (fields t) (conffiles t) (scripts t)
         (fold_left (fun m kv => <[kv.1 := written kv.2]> m) kvs (files t)),
     w ++ map (fun kv => dataEntry kv.2) kvs, None).
Proof.
  induction kvs as [|[k f] kvs IH]; intros t w Hnd Hall.
  - simpl. rewrite app_nil_r. now destruct t.
  - rewrite fmap_cons in Hnd |- *.
    apply NoDup_cons in Hnd as [Hnotin Hnd]. cbn [fst snd] in *.
    destruct (Hall k f ltac:(left)) as [Hk Hok].
    cbn [addEntries]. rewrite Hk. unfold addArchiveEntry.
    assert (∀ hdr' w',
      addEntries (mkT (fields t) (conffiles t) (scripts t)
                      (<[k := mkFile hdr' (data f)]> (files t))) w' kvs.*1
      = (mkT (fields t) (conffiles t) (scripts t)
           (fold_left (fun m kv => <[kv.1 := written kv.2]> m) kvs
              (<[k := mkFile hdr' (data f)]> (files t))),
         w' ++ map (fun kv => dataEntry kv.2) kvs, None)) as Hrest.
    { intros hdr' w'. rewrite IH; [reflexivity|exact Hnd|].
      intros k' f' Hin. cbn [files]. split.
      - rewrite lookup_insert_ne.
        + apply Hall. now right.
        + intros ->. apply Hnotin.
          apply list_elem_of_fmap. exists (k', f'). auto.
      - apply Hall. now right. }
    cbn [map fold_left fst snd].
    destruct (fileOK_data k f Hok) as [E|[c E]].
    + assert (written f
              = mkFile (tar.setName (slash (tar.Name (header f))) (header f))
                       None) as -> by (unfold written; now rewrite E).
      assert (dataEntry f
              = (tar.setName (slash (tar.Name (header f))) (header f),
                 Raw "")) as -> by (unfold dataEntry; now rewrite E).
      rewrite E. rewrite E in Hrest. rewrite Hrest.
      now rewrite <- List.app_assoc.
    + assert (written f
              = mkFile (tar.setName (slash (tar.Name (header f))) (header f))
                       (Some (Gz gzip.BestCompression c))) as ->
        by (unfold written; now rewrite E).
      assert (dataEntry f
              = (tar.setName (slash (tar.Name (header f))) (header f), c))
        as -> by (unfold dataEntry; now rewrite E).
      rewrite E. rewrite E in Hrest. cbn [gzip.decode]. rewrite Hrest.
      now rewrite <- List.app_assoc.
Qed.

(** The files of the tree, in the order of the data archive. *)
Lemma sortedFiles_spec (t : T) k f :
  (k, f) ∈ range (files t) (sortedPaths t) <-> files t !! k = Some f.
Proof.
  rewrite elem_of_range, elem_of_sortedPaths. split; [tauto|eauto].
Qed.

Lemma sortedFiles_fst (t : T) :
  (range (files t) (sortedPaths t)).*1 = sortedPaths t.
Proof.
  apply range_fst_present. intros k. apply elem_of_sortedPaths.
Qed.

Lemma fillDataArchive_entries t o modTime :
  treeOK encode t -> range_order (files t) (fileOrder o) ->
  fillDataArchive t o [] modTime
  = (mkT (fields t) (conffiles t) (scripts t)
         (fold_left (fun m kv => <[kv.1 := written kv.2]> m)
                    (range (files t) (sortedPaths t)) (files t)),
     (directoryHeader "./" modTime, Raw "")
       :: map (fun kv => dataEntry kv.2) (range (files t) (sortedPaths t)),
     None).
Proof.
  intros Hok Horder. unfold fillDataArchive, addArchiveEntry.
  rewrite (sortedPaths_order t _ Horder).
  rewrite <- (sortedFiles_fst t) at 1.
  rewrite addEntries_entries.
  - reflexivity.
  - rewrite sortedFiles_fst. apply NoDup_sortedPaths.
  - intros k f H. apply sortedFiles_spec in H. split; [exact H|].
    now apply Hok.
Qed.

End DataArchive.

(** ** Reading the written data sub-archive *)

Section DataRoundTrip.

Variable encode : Data -> string.

#[local] Arguments slash : simpl never.
#[local] Arguments unslash : simpl never.
#[local] Arguments path.Clean : simpl never.
#[local] Arguments strings.HasPrefix : simpl never.
#[local] Arguments sort.Strings : simpl never.
#[local] Arguments isRegular : simpl never.
#[local] Arguments String.concat _ _ : simpl never.

Lemma treePath_render (st : list string) :
  st ≠ [] -> Forall plain st -> treePath (render st) = render st.
Proof. intros. unfold treePath. now rewrite readName_render. Qed.

Lemma treePath_dirKey (st : list string) :
  st ≠ [] -> Forall plain st -> treePath (dirKey st) = render st.
Proof. intros. unfold treePath. now rewrite readName_dirKey. Qed.

Lemma render_inj (st st' : list string) :
  Forall plain st -> Forall plain st' -> render st = render st' -> st = st'.
Proof.
  intros H H' E. rewrite <- (cleanStack_render st H).
  rewrite <- (cleanStack_render st' H'). now rewrite E.
Qed.

Lemma fileOK_treePath k f :
  fileOK encode k f ->
  ∃ st, st ≠ [] ∧ Forall plain st ∧ treePath k = render st
        ∧ (k = render st ∨ k = dirKey st).
Proof.
  intros (_ & (st & Hne & Hst & Hk) & _). exists st.
  refine (conj Hne (conj Hst (conj _ Hk))).
  destruct Hk as [-> | ->];
    [now apply treePath_render | now apply treePath_dirKey].
Qed.

Lemma isRegular_setName n h : isRegular (tar.setName n h) = isRegular h.
Proof. reflexivity. Qed.

(** Reading the entries written for the files [kvs] stores each under
    its path. *)
Lemma readDataEntries_entries (kvs : list (string * file)) :
  ∀ t0,
  (∀ k f, (k, f) ∈ kvs -> fileOK encode k f) ->
  absoluteKeys t0 ->
  readDataEntries t0 (map (fun kv => dataEntry kv.2) kvs) tar.EOF
  = (mkT (fields t0) (conffiles t0) (scripts t0)
         (fold_left (fun m kv => <[treePath kv.1 := written kv.2]> m) kvs
                    (files t0)), None).
Proof.
  induction kvs as [|[k f] kvs IH]; intros t0 Hall Habs.
  - simpl. now destruct t0.
  - pose proof (Hall k f ltac:(left)) as Hok.
    destruct Hok as (Hname & (st & Hne & Hst & Hk) & Hdata).
    cbn [map readDataEntries fst snd fold_left]. unfold dataEntry at 1.
    cbn [tar.Name tar.setName].
    assert (path.Clean (unslash (slash (tar.Name (header f))))
            = String.concat "/" st) as Hn.
    { rewrite Hname. destruct Hk as [-> | ->];
        [now apply readName_render | now apply readName_dirKey]. }
    assert (treePath k = "/" +:+ String.concat "/" st) as Hkey.
    { unfold treePath. now rewrite <- Hname, Hn. }
    rewrite Hn.
    destruct (concat_plain_name st Hne Hst) as (_ & H2 & H3 & H4 & _ & H6).
    destruct (String.eqb_spec (String.concat "/" st) "."); [contradiction|].
    destruct (String.eqb_spec (String.concat "/" st) ".."); [contradiction|].
    rewrite H4. cbn [orb].
    destruct (files t0 !! String.concat "/" st) as [g|] eqn:E.
    { specialize (Habs _ (mk_is_Some _ _ E)). unfold path.IsAbs in Habs.
      congruence. }
    unfold setFileData. rewrite isRegular_setName.
    assert ((if isRegular (header f)
             then Some (Gz gzip.BestCompression
                          (default (Raw "") (data f ≫= gzip.decode)))
             else None) = data f) as ->.
    { destruct (isRegular (header f)); [|now rewrite Hdata].
      destruct Hdata as (c & -> & _). reflexivity. }
    rewrite IH.
    + cbn [fields conffiles scripts files]. rewrite Hkey. reflexivity.
    + intros k' f' Hin. apply Hall. now right.
    + intros k' [g Hk']. cbn [files] in Hk'.
      destruct (decide ("/" +:+ String.concat "/" st = k')) as [<-|Hne'];
        [reflexivity|].
      rewrite lookup_insert_ne in Hk' by exact Hne'. apply Habs. eauto.
Qed.

Lemma dirKey_ne_render (st st' : list string) : dirKey st ≠ render st.
Proof. unfold dirKey. apply app_ne_self. discriminate. Qed.

(** What the read finds under a path of the tree. *)
Lemma readBack_lookup (t : T) (st : list string) :
  treeOK encode t -> st ≠ [] -> Forall plain st ->
  fold_left (fun m kv => <[treePath kv.1 := written kv.2]> m)
            (range (files t) (sortedPaths t)) (∅ : gmap string file)
    !! render st
  = readBack (files t) (render st).
Proof.
  intros Hok Hne Hst. unfold readBack. fold (dirKey st).
  set (kvs := range (files t) (sortedPaths t)).
  assert (∀ k f, (k, f) ∈ kvs -> treePath k = render st ->
                 k = render st ∨ k = dirKey st) as Hcand.
  { intros k f Hin Hk. apply sortedFiles_spec in Hin.
    destruct (fileOK_treePath k f (Hok k f Hin))
      as (st' & Hne' & Hst' & Hk' & Hcase).
    rewrite Hk in Hk'. apply render_inj in Hk'; [|assumption..].
    now subst st'. }
  assert (StronglySorted String.le kvs.*1) as Hsorted.
  { unfold kvs. rewrite sortedFiles_fst. unfold sortedPaths.
    apply StronglySorted_merge_sort; apply _. }
  assert (NoDup kvs.*1) as Hnd.
  { unfold kvs. rewrite sortedFiles_fst. apply NoDup_sortedPaths. }
  assert (∀ k f l1 l2, kvs = l1 ++ (k, f) :: l2 ->
            ∀ k' f', (k', f') ∈ l2 -> k' ≠ k ∧ String.le k k') as Hafter.
  { intros k f l1 l2 E k' f' Hin. rewrite E in Hsorted, Hnd.
    rewrite fmap_app, fmap_cons in Hsorted, Hnd. cbn [fst] in *.
    apply NoDup_app in Hnd as (_ & _ & Hnd).
    apply NoDup_cons in Hnd as [Hnotin _].
    apply StronglySorted_app_1_r in Hsorted.
    apply StronglySorted_cons in Hsorted as [Hall _].
    assert (k' ∈ l2.*1) as Hk'
      by (apply list_elem_of_fmap; exists (k', f'); auto).
    split.
    - intros ->. contradiction.
    - rewrite Forall_forall in Hall. now apply Hall. }
  destruct (files t !! dirKey st) as [d|] eqn:Ed.
  - assert ((dirKey st, d) ∈ kvs) as Hin by now apply sortedFiles_spec.
    apply list_elem_of_split in Hin as (l1 & l2 & E). rewrite E.
    rewrite <- (treePath_dirKey st Hne Hst).
    apply (fold_insert_last (fun kv : string * file => treePath kv.1)
             (fun kv => written kv.2) l1 l2 (dirKey st, d)).
    intros [k' f'] Hin' Hk'. cbn [fst] in Hk'.
    rewrite treePath_dirKey in Hk' by assumption.
    destruct (Hafter _ _ _ _ E k' f' Hin') as [Hne' Hle].
    destruct (Hcand k' f') as [->| ->]; try assumption.
    + rewrite E. apply elem_of_app. right. now right.
    + apply (dirKey_ne_render st st).
      apply (anti_symm String.le); [exact Hle|apply le_prefix].
    + contradiction.
  - destruct (files t !! render st) as [f|] eqn:Ef.
    + assert ((render st, f) ∈ kvs) as Hin by now apply sortedFiles_spec.
      apply list_elem_of_split in Hin as (l1 & l2 & E). rewrite E.
      rewrite <- (treePath_render st Hne Hst) at 1.
      apply (fold_insert_last (fun kv : string * file => treePath kv.1)
               (fun kv => written kv.2) l1 l2 (render st, f)).
      intros [k' f'] Hin' Hk'. cbn [fst] in Hk'.
      rewrite treePath_render in Hk' by assumption.
      destruct (Hafter _ _ _ _ E k' f' Hin') as [Hne' Hle].
      assert ((k', f') ∈ kvs) as Hin''
        by (rewrite E; apply elem_of_app; right; now right).
      destruct (Hcand k' f' Hin'' Hk') as [->| ->]; [contradiction|].
      apply sortedFiles_spec in Hin''. congruence.
    + rewrite fold_insert_none; [apply lookup_empty|].
      intros [k' f'] Hin Hk'. cbn [fst] in Hk'.
      pose proof Hin as Hin'. apply sortedFiles_spec in Hin'.
      destruct (Hcand k' f' Hin Hk') as [->| ->]; congruence.
Qed.

End DataRoundTrip.

(** ** A package written and read *)

Section WriteRead.

Variable encode : Data -> string.

#[local] Arguments slash : simpl never.
#[local] Arguments unslash : simpl never.
#[local] Arguments path.Clean : simpl never.
#[local] Arguments strings.HasPrefix : simpl never.
#[local] Arguments sort.Strings : simpl never.
#[local] Arguments isRegular : simpl never.
#[local] Arguments String.concat _ _ : simpl never.
#[local] Arguments readControlArchive : simpl never.
#[local] Arguments readDataArchive : simpl never.
#[local] Arguments createControlArchive : simpl never.
#[local] Arguments createDataArchive : simpl never.

(** The files of the package after the loop of [fillDataArchive]. *)
Lemma fold_written (m : gmap string file) (kvs : list (string * file)) :
  NoDup kvs.*1 -> (∀ k f, (k, f) ∈ kvs <-> m !! k = Some f) ->
  fold_left (fun m kv => <[kv.1 := written kv.2]> m) kvs m = written <$> m.
Proof.
  intros Hnd Hall. apply map_eq. intros K. rewrite lookup_fmap.
  destruct (m !! K) as [f|] eqn:E.
  - apply Hall in E. apply list_elem_of_split in E as (l1 & l2 & E).
    rewrite E.
    apply (fold_insert_last (fun kv : string * file => kv.1)
             (fun kv => written kv.2) l1 l2 (K, f)).
    intros [k' f'] Hin Heq. cbn beta in Heq. cbn [fst] in Heq. subst k'.
    rewrite E in Hnd.
    rewrite fmap_app, fmap_cons in Hnd.
    apply NoDup_app in Hnd as (_ & _ & Hnd).
    apply NoDup_cons in Hnd as [Hnotin _]. apply Hnotin.
    apply list_elem_of_fmap. exists (K, f'). auto.
  - rewrite fold_insert_none; [now rewrite E|].
    intros [k' f'] Hin Heq. cbn [fst] in Heq. subst k'.
    apply Hall in Hin. congruence.
Qed.

Lemma createDataArchive_entries t o compress modTime :
  treeOK encode t -> range_order (files t) (fileOrder o) ->
  ∃ size,
    createDataArchive encode t o compress modTime
    = (mkT (fields t) (conffiles t) (scripts t) (written <$> files t),
       (Gz (compressionLevel compress)
           (Tar ((directoryHeader "./" modTime, Raw "")
                   :: map (fun kv => dataEntry kv.2)
                          (range (files t) (sortedPaths t))) tar.EOF),
        size), None)
    ∧ 0 <= size.
Proof.
  intros Hok Horder. unfold createDataArchive, newTempArchive.
  cbn [Writer gzipWriter].
  rewrite (fillDataArchive_entries encode) by assumption.
  unfold Finish. cbn [Writer gzipWriter]. eexists. split.
  - rewrite fold_written; [reflexivity| |].
    + rewrite sortedFiles_fst. apply NoDup_sortedPaths.
    + intros k f. apply sortedFiles_spec.
  - apply dataLen_nonneg.
Qed.

Lemma readDataArchive_written t modTime level t0 :
  treeOK encode t -> files t0 = ∅ ->
  ∃ q,
    readDataArchive t0
      (Gz level
          (Tar ((directoryHeader "./" modTime, Raw "")
                  :: map (fun kv => dataEntry kv.2)
                         (range (files t) (sortedPaths t))) tar.EOF))
    = (q, None)
    ∧ fields q = fields t0 ∧ conffiles q = conffiles t0
    ∧ scripts q = scripts t0
    ∧ (∀ k, is_Some (files q !! k) -> treeKey k)
    ∧ (∀ st, st ≠ [] -> Forall plain st ->
             files q !! render st = readBack (files t) (render st)).
Proof.
  intros Hok Hempty.
  assert (∀ k f, (k, f) ∈ range (files t) (sortedPaths t) ->
                 fileOK encode k f) as Hall.
  { intros k f H. apply sortedFiles_spec in H. now apply Hok. }
  assert (absoluteKeys t0) as Habs.
  { intros k [g Hg]. rewrite Hempty in Hg. now rewrite lookup_empty in Hg. }
  pose proof (readDataEntries_entries encode _ t0 Hall Habs) as Hread.
  unfold readDataArchive.
  cbn [gzip.decode tarEntries readDataEntries fst snd].
  change (path.Clean (unslash (tar.Name (directoryHeader "./" modTime))))
    with ".".
  cbn [String.eqb Ascii.eqb Bool.eqb orb].
  rewrite Hread.
  eexists. split; [reflexivity|]. cbn [fields conffiles scripts files].
  rewrite Hempty. repeat split.
  - intros k Hk.
    apply readDataEntries_keys in Hread as (_ & _ & _ & Hkeys).
    cbn [files] in Hkeys. rewrite Hempty in Hkeys.
    destruct (Hkeys k Hk) as [[g Hg]|H]; [|exact H].
    now rewrite lookup_empty in Hg.
  - intros st Hne Hst. now apply (readBack_lookup encode).
Qed.


Lemma readsAs_refl (x : option file) : readsAs x x.
Proof. destruct x as [f|]; [|exact I]. repeat split. Qed.



End WriteRead.

(** ** More on adding files *)

Section AddFileMore.

Variable encode : Data -> string.

#[local] Arguments String.concat _ _ : simpl never.

(** The cleaned form of a relative path splits into nothing and a name,
    or into a relative directory and a name. *)
Lemma Split_Clean_relative (dir updir base : string) :
  path.IsAbs dir = false ->
  path.Split (path.Clean dir) = (updir, base) ->
  updir = "" ∨ (base ≠ "" ∧ path.IsAbs updir = false).
Proof.
  intros Hrel. unfold path.Clean. unfold path.IsAbs in Hrel.
  destruct (String.eqb_spec dir "") as [->|Hd];
    [intros [= <- <-]; now left|].
  rewrite Hrel. pose proof (path_facts.cleanStack_proper false dir) as Hst.
  destruct (path.cleanStack false dir) as [|e0 l0] eqn:E;
    [intros [= <- <-]; now left|].
  rewrite <- E in *. clear E.
  destruct (snoc_case (path.cleanStack false dir)) as [E1|(st & c & E1)];
    rewrite E1 in *; [intros [= <- <-]; now left|].
  apply Forall_app in Hst as [Hst Hc].
  inversion Hc as [|? ? [(Hc1 & Hc2 & Hc3) _] _]; subst.
  destruct st as [|e st].
  - change (String.concat "/" ([] ++ [c])) with c.
    unfold path.Split. rewrite LastIndexByte_noSlash by exact Hc3.
    intros [= <- <-]. now left.
  - rewrite concat_snoc by discriminate. rewrite Split_snoc by exact Hc3.
    intros [= <- <-]. right. split; [exact Hc1|].
    unfold path.IsAbs.
    assert (Forall proper (e :: st)) as Hp.
    { eapply Forall_impl; [exact Hst|]. now intros x [Hx _]. }
    pose proof (path_facts.concat_proper_head (e :: st) Hp ltac:(discriminate))
      as Hhead.
    destruct (concat_head e st) as (r & Hr & _). rewrite Hr in *.
    inversion Hp as [|? ? (He & _) _]; subst.
    destruct e as [|a e]; [congruence|]. exact Hhead.
Qed.

(** On a relative directory the directory step fails, with an error
    that is not [os.ErrExist], and changes nothing. *)
Lemma addDirStep_relative (fuel : nat) :
  ∀ clock t dir,
    path.IsAbs dir = false ->
    ∃ e, addDirStep encode fuel clock t dir = (t, Some e) ∧ e ≠ ErrExist.
Proof.
  induction fuel as [|fuel IH]; intros clock t dir Hrel.
  - exists outOfFuel. split; [reflexivity|discriminate].
  - simpl. unfold addDir.
    destruct (path.Split (path.Clean dir)) as [updir base] eqn:HS.
    destruct (Split_Clean_relative _ _ _ Hrel HS) as [->|[Hb Hup]].
    + eexists. split; [reflexivity|discriminate].
    + destruct (String.eqb_spec updir "");
        [eexists; split; [reflexivity|discriminate]|].
      destruct (String.eqb_spec base ""); [contradiction|].
      rewrite AddFile_rec_eq.
      destruct (IH (fun n => clock (S n)) t updir Hup) as (e & -> & He).
      destruct (decide (e = ErrExist)); [contradiction|].
      eexists. split; [reflexivity|discriminate].
Qed.

Lemma AddFile_rec_relative (fuel : nat) clock t dir info r :
  path.IsAbs dir = false ->
  ∃ e, AddFile_rec encode fuel clock t dir info r = (t, Some e)
       ∧ e ≠ ErrExist.
Proof.
  intros Hrel. destruct info as [info|].
  - rewrite AddFile_rec_eq.
    destruct (addDirStep_relative fuel clock t dir Hrel) as (e & -> & He).
    destruct (decide (e = ErrExist)); [contradiction|].
    eexists. split; [reflexivity|discriminate].
  - destruct fuel; eexists; (split; [reflexivity|discriminate]).
Qed.

(** The shape of the split of an absolute directory. *)
Lemma Split_Clean_abs (dir : string) :
  path.IsAbs dir = true ->
  (path.cleanStack true dir = []
   ∧ path.Split (path.Clean dir) = ("/", ""))
  ∨ ∃ st c, path.cleanStack true dir = st ++ [c]
            ∧ Forall plain st ∧ plain c
            ∧ path.Split (path.Clean dir) = (parentPath st +:+ "/", c).
Proof.
  intros Habs. rewrite (Clean_rooted dir Habs).
  pose proof (cleanStack_plain dir) as Hplain.
  destruct (snoc_case (path.cleanStack true dir)) as [E|(st & c & E)];
    rewrite E in *.
  - left. split; reflexivity.
  - right. apply Forall_app in Hplain as [Hst Hc].
    inversion Hc as [|? ? Hc' _]; subst. exists st, c.
    refine (conj eq_refl (conj Hst (conj Hc' _))).
    rewrite render_snoc. apply Split_snoc, Hc'.
Qed.

Lemma Join_abs (dir c : string) :
  path.IsAbs dir = true -> plain c ->
  path.Join dir c = render (path.cleanStack true dir ++ [c]).
Proof.
  intros Habs Hc. unfold path.Join.
  destruct (String.eqb_spec dir "") as [->|_]; [discriminate|]. cbn [andb].
  assert (path.IsAbs (dir +:+ "/" +:+ c) = true) as Habs'.
  { destruct (HasPrefix_slash_inv dir Habs) as [q ->]. reflexivity. }
  rewrite (Clean_rooted _ Habs'). now rewrite cleanStack_snoc.
Qed.

Lemma addedDir_key (st : list string) (c : string) (now : Z) :
  Forall plain st -> plain c ->
  tar.Name (addedDirHeader (parentPath st +:+ "/") c now)
  = dirKey (st ++ [c]).
Proof.
  intros Hst Hc. unfold addedDirHeader. cbn [tar.Name].
  now rewrite Clean_plain, Base_plain, Join_parent.
Qed.

(** After the directory step on an absolute directory, the directory and
    the directories above it are in the file tree. *)
Lemma addDirStep_materializes (fuel : nat) :
  ∀ clock t dir t' err,
    path.IsAbs dir = true -> (String.length dir < fuel)%nat ->
    addDirStep encode fuel clock t dir = (t', err) ->
    ancestorsPresent t' dir.
Proof.
  induction fuel as [|fuel IH]; intros clock t dir t' err Habs Hlen; [lia|].
  simpl. unfold addDir, ancestorsPresent.
  destruct (Split_Clean_abs dir Habs)
    as [[E HS]|(st & c & E & Hst & Hc & HS)]; rewrite HS, E.
  - intros _ n Hn. simpl in Hn. lia.
  - destruct (String.eqb_spec (parentPath st +:+ "/") "") as [H|Hu].
    { apply (f_equal String.length) in H.
      rewrite strings_facts.length_app in H. simpl in H. lia. }
    destruct (String.eqb_spec c "") as [H|Hb]; [now destruct Hc|].
    pose proof (Split_Clean_shorter _ _ _ HS Hu Hb) as Hshort.
    rewrite AddFile_rec_eq.
    destruct (addDirStep encode fuel (fun n => clock (S n)) t
                (parentPath st +:+ "/")) as [t1 e1] eqn:E1.
    pose proof (IH _ _ _ _ _ (parentPath_slash_IsAbs st) ltac:(lia) E1)
      as Hpres.
    unfold ancestorsPresent in Hpres.
    rewrite cleanStack_slash, cleanStack_parentPath in Hpres by exact Hst.
    apply addDirStep_abs in E1; [|apply parentPath_slash_IsAbs|lia].
    rewrite addFileEntry_dir.
    assert (∀ t' err,
      insertFile t1 (mkFile (addedDirHeader (parentPath st +:+ "/") c
                               (clock 0%nat)) None) = (t', err) ->
      ∀ n, (0 < n <= length (st ++ [c]))%nat ->
           is_Some (files t' !! dirKey (take n (st ++ [c])))) as Hins.
    { intros t2 e2 H2 n Hn. rewrite length_app in Hn. simpl in Hn.
      pose proof (insertFile_extends _ _ _ _ H2) as (_ & _ & _ & Hext).
      destruct (decide (n <= length st)%nat) as [Hle|Hgt].
      - rewrite take_app_le by lia.
        destruct (Hpres n ltac:(lia)) as [g Hg]. eauto.
      - rewrite take_ge by (rewrite length_app; simpl; lia).
        apply insertFile_spec in H2 as [(-> & _ & Hex)|(_ & _ & ->)].
        + cbn [header] in Hex. now rewrite addedDir_key in Hex.
        + cbn [files header]. rewrite addedDir_key by assumption.
          rewrite lookup_insert_eq. eauto. }
    destruct E1 as [->| ->]; [apply Hins|].
    destruct (decide (ErrExist = ErrExist)); [apply Hins|congruence].
Qed.

(** Every entry that the directory step adds is stored under the name in
    its header, and this key is the key of the directory or of a
    directory above it. *)
Lemma addDirStep_newKeys (fuel : nat) :
  ∀ clock t dir t' err,
    path.IsAbs dir = true -> (String.length dir < fuel)%nat ->
    addDirStep encode fuel clock t dir = (t', err) ->
    ∀ p f, files t' !! p = Some f -> files t !! p = None ->
      tar.Name (header f) = p
      ∧ ∃ n, (0 < n <= length (path.cleanStack true dir))%nat
             ∧ p = dirKey (take n (path.cleanStack true dir)).
Proof.
  induction fuel as [|fuel IH]; intros clock t dir t' err Habs Hlen; [lia|].
  simpl. unfold addDir.
  destruct (Split_Clean_abs dir Habs)
    as [[E HS]|(st & c & E & Hst & Hc & HS)]; rewrite HS, E.
  - intros [= <- <-] p f Hp Hn. congruence.
  - destruct (String.eqb_spec (parentPath st +:+ "/") "") as [H|Hu].
    { apply (f_equal String.length) in H.
      rewrite strings_facts.length_app in H. simpl in H. lia. }
    destruct (String.eqb_spec c "") as [H|Hb]; [now destruct Hc|].
    pose proof (Split_Clean_shorter _ _ _ HS Hu Hb) as Hshort.
    rewrite AddFile_rec_eq.
    destruct (addDirStep encode fuel (fun n => clock (S n)) t
                (parentPath st +:+ "/")) as [t1 e1] eqn:E1.
    pose proof (IH _ _ _ _ _ (parentPath_slash_IsAbs st) ltac:(lia) E1)
      as Hkeys.
    rewrite cleanStack_slash, cleanStack_parentPath in Hkeys by exact Hst.
    assert (∀ p f, files t1 !! p = Some f -> files t !! p = None ->
              tar.Name (header f) = p
              ∧ ∃ n, (0 < n <= length (st ++ [c]))%nat
                     ∧ p = dirKey (take n (st ++ [c]))) as Hold.
    { intros p f Hp Hn. destruct (Hkeys p f Hp Hn) as (Hname & n & Hle & ->).
      split; [exact Hname|]. exists n. rewrite length_app. simpl.
      split; [lia|]. now rewrite take_app_le by lia. }
    rewrite addFileEntry_dir.
    assert (∀ t' err,
      insertFile t1 (mkFile (addedDirHeader (parentPath st +:+ "/") c
                               (clock 0%nat)) None) = (t', err) ->
      ∀ p f, files t' !! p = Some f -> files t !! p = None ->
        tar.Name (header f) = p
        ∧ ∃ n, (0 < n <= length (st ++ [c]))%nat
               ∧ p = dirKey (take n (st ++ [c]))) as Hins.
    { intros t2 e2 H2 p f Hp Hn.
      apply insertFile_spec in H2 as [(-> & _)|(_ & Hfree & ->)];
        [now apply Hold|].
      cbn [files header] in Hp, Hfree.
      rewrite addedDir_key in Hp, Hfree by assumption.
      destruct (decide (dirKey (st ++ [c]) = p)) as [<-|Hne].
      - rewrite lookup_insert_eq in Hp. injection Hp as <-.
        cbn [header]. split; [now apply addedDir_key|].
        exists (length (st ++ [c])). split.
        + rewrite length_app. simpl. lia.
        + now rewrite firstn_all.
      - rewrite lookup_insert_ne in Hp by exact Hne. now apply Hold. }
    destruct e1 as [e|]; [|apply Hins].
    destruct (decide (e = ErrExist)); [apply Hins|].
    intros [= <- <-]. exact Hold.
Qed.

Lemma isRegular_false (h : tar.Header) :
  ¬ (tar.Typeflag h = tar.TypeReg ∨ tar.Typeflag h = tar.TypeRegA) ->
  isRegular h = false.
Proof.
  intros H. unfold isRegular.
  rewrite !bool_decide_eq_false_2; [reflexivity|tauto|tauto].
Qed.

Lemma isRegular_true (h : tar.Header) :
  tar.Typeflag h = tar.TypeReg ∨ tar.Typeflag h = tar.TypeRegA ->
  isRegular h = true.
Proof.
  intros [H|H]; unfold isRegular.
  - now rewrite (bool_decide_eq_true_2 _ H).
  - rewrite (bool_decide_eq_true_2 _ H). apply orb_true_r.
Qed.

Lemma insertFile_treeOK t f :
  treeOK encode t -> fileOK encode (tar.Name (header f)) f ->
  treeOK encode (insertFile t f).1.
Proof.
  intros Ht Hf. unfold insertFile.
  destruct (files t !! tar.Name (header f)) eqn:E; [exact Ht|].
  intros k g. cbn [fst files].
  destruct (decide (k = tar.Name (header f))) as [->|Hne].
  - rewrite lookup_insert_eq. now intros [= <-].
  - rewrite lookup_insert_ne by congruence. apply Ht.
Qed.

(** The entry that [AddFile] makes for a file with a plain name in an
    absolute directory is well formed. *)
Lemma addFileEntry_treeOK t dir info r :
  treeOK encode t -> path.IsAbs dir = true -> plain (fiName info) ->
  treeOK encode (addFileEntry encode t dir info r).1.
Proof.
  intros Ht Habs Hname. unfold addFileEntry.
  destruct (FileInfoHeader info "/") as [h|e]; [|exact Ht].
  rewrite (Join_abs dir _ Habs Hname).
  set (st := path.cleanStack true dir ++ [fiName info]).
  assert (st ≠ []) as Hne by (unfold st; now destruct (path.cleanStack true dir)).
  assert (Forall plain st) as Hst.
  { unfold st. apply Forall_app. split; [apply cleanStack_plain|].
    now constructor. }
  cbn [tar.Typeflag tar.setName tar.Name].
  destruct (decide (tar.Typeflag h = tar.TypeReg
                    ∨ tar.Typeflag h = tar.TypeRegA)) as [Hreg|Hreg].
  { destruct r as [[content|e]|]; try exact Ht.
    apply insertFile_treeOK; [exact Ht|]. cbn [header tar.Name tar.setSize].
    refine (conj eq_refl (conj _ _)).
    - exists st. auto.
    - cbn [data]. rewrite isRegular_true by exact Hreg. eauto. }
  destruct (decide (tar.Typeflag h = tar.TypeSymlink)) as [Hsym|Hsym].
  { destruct r as [[content|e]|]; try exact Ht.
    apply insertFile_treeOK; [exact Ht|].
    cbn [header tar.Name tar.setLinkname].
    refine (conj eq_refl (conj _ _)).
    - exists st. auto.
    - cbn [data]. now rewrite isRegular_false by exact Hreg. }
  destruct (decide (tar.Typeflag h = tar.TypeDir)) as [Hdir|Hdir].
  - apply insertFile_treeOK; [exact Ht|]. cbn [header tar.Name tar.setName].
    refine (conj eq_refl (conj _ _)).
    + exists st. unfold dirKey. auto.
    + cbn [data]. now rewrite isRegular_false by exact Hreg.
  - apply insertFile_treeOK; [exact Ht|]. cbn [header tar.Name tar.setName].
    refine (conj eq_refl (conj _ _)).
    + exists st. auto.
    + cbn [data]. now rewrite isRegular_false by exact Hreg.
Qed.

Lemma AddFile_rec_treeOK (fuel : nat) :
  ∀ clock t dir info r,
    treeOK encode t -> plain (fiName info) ->
    treeOK encode (AddFile_rec encode fuel clock t dir (Some info) r).1.
Proof.
  induction fuel as [|fuel IH]; intros clock t dir info r Ht Hname.
  - exact Ht.
  - destruct (path.IsAbs dir) eqn:Habs.
    2:{ destruct (AddFile_rec_relative (S fuel) clock t dir (Some info) r
                    Habs) as (e & -> & _). exact Ht. }
    rewrite AddFile_rec_eq.
    destruct (addDirStep encode (S fuel) clock t dir) as [t1 e1] eqn:E1.
    assert (treeOK encode t1) as Ht1.
    { revert E1. simpl. unfold addDir.
      destruct (Split_Clean_abs dir Habs)
        as [[E HS]|(st & c & E & Hst & Hc & HS)]; rewrite HS.
      - cbn. now intros [= <- _].
      - destruct (String.eqb (parentPath st +:+ "/") "");
          [now intros [= <- _]|].
        destruct (String.eqb c ""); [now intros [= <- _]|].
        intros H.
        pose proof (IH (fun n => clock (S n)) t (parentPath st +:+ "/")
                       (HeaderFileInfo (directoryHeader c (clock 0%nat)))
                       None Ht) as Hrec.
        rewrite H in Hrec. apply Hrec.
        cbn [HeaderFileInfo fiName]. cbn.
        now rewrite Clean_plain, Base_plain. }
    destruct e1 as [e|];
      [destruct (decide (e = ErrExist)); [|exact Ht1]|];
      now apply addFileEntry_treeOK.
Qed.

End AddFileMore.

(** C3 (as the code has it).  When the full path of an [AddFile] call is
    already a key of the file tree, the call returns an error; it is
    [os.ErrExist] when the directory is absolute and the reader, where one
    is read, is there and works.  Fields, conffiles and scripts are as
    before and every file entry present before is unchanged.  When the
    directory is absolute, the directory and every directory above it are
    in the file tree afterwards; every entry that was not there before is
    one of them, stored under the name in its header, the path of the
    directory with a slash at its end, and is a directory entry as
    [addDir] makes it.  So the package is left as it was when these
    directories were all present, and when the directory is not
    absolute; otherwise the missing ones, and nothing else, have been
    added. *)
Theorem C3_AddFile_existing (encode : Data -> string) (clock : nat -> Z)
    (t : T) (dir : string) (info : FileInfo) (r : option Reader)
    (key : string) :
  fileKey dir info = Some key ->
  is_Some (files t !! key) ->
  ∃ t' e,
    AddFile encode clock t dir (Some info) r = (t', Some e)
    ∧ fields t' = fields t ∧ conffiles t' = conffiles t
    ∧ scripts t' = scripts t
    ∧ (∀ p f, files t !! p = Some f -> files t' !! p = Some f)
    ∧ (∀ p f, files t' !! p = Some f -> files t !! p = None ->
         isDirEntry f ∧ tar.Name (header f) = p
         ∧ ∃ n, (0 < n <= length (path.cleanStack true dir))%nat
                ∧ p = dirKey (take n (path.cleanStack true dir)))
    ∧ (path.IsAbs dir = true -> ancestorsPresent t' dir)
    ∧ (path.IsAbs dir = false -> t' = t)
    ∧ (path.IsAbs dir = true -> readerUsable info r -> e = ErrExist)
    ∧ (path.IsAbs dir = true -> ancestorsPresent t dir -> t' = t).
Proof.
  intros Hkey [g Hg]. unfold AddFile. rewrite AddFile_rec_eq.
  destruct (addDirStep encode (S (String.length dir)) clock t dir)
    as [t1 e1] eqn:E1.
  pose proof (addDirStep_addsDirs _ _ _ _ _ _ _ E1) as [Hext Hdirs].
  pose proof Hext as (F1 & F2 & F3 & F4).
  assert (files t1 !! key = Some g) as Hg1 by auto.
  assert (path.IsAbs dir = true -> ancestorsPresent t dir -> t1 = t) as Hsame.
  { intros Habs Hpres.
    rewrite (addDirStep_present encode _ clock t dir Habs) in E1
      by (lia || assumption).
    congruence. }
  assert (path.IsAbs dir = false -> t1 = t) as Hrel.
  { intros Habs.
    destruct (addDirStep_relative encode (S (String.length dir)) clock t dir
                Habs) as (e & E & _).
    congruence. }
  assert (path.IsAbs dir = true -> ancestorsPresent t1 dir) as Hpres.
  { intros Habs.
    apply (addDirStep_materializes encode (S (String.length dir)) clock t
             dir t1 e1 Habs (Nat.lt_succ_diag_r _) E1). }
  assert (∀ p f, files t1 !! p = Some f -> files t !! p = None ->
            isDirEntry f ∧ tar.Name (header f) = p
            ∧ ∃ n, (0 < n <= length (path.cleanStack true dir))%nat
                   ∧ p = dirKey (take n (path.cleanStack true dir))) as Hnew.
  { intros p f Hp Hn. split; [now apply (Hdirs p)|].
    destruct (path.IsAbs dir) eqn:Habs.
    - apply (addDirStep_newKeys encode (S (String.length dir)) clock t dir
               t1 e1 Habs (Nat.lt_succ_diag_r _) E1 p f Hp Hn).
    - rewrite (Hrel eq_refl) in Hp. congruence. }
  assert (∀ t' err, addFileEntry encode t1 dir info r = (t', err) ->
                    t' = t1 ∧ is_Some err
                    ∧ (readerUsable info r -> err = Some ErrExist)) as Hentry.
  { intros t' err H. pose proof H as H0.
    apply addFileEntry_cases in H as [[-> Herr]|(f & Hins & Hk)].
    - repeat split; try assumption. intros Hr.
      destruct (addFileEntry_usable encode t1 dir info r key Hkey Hr)
        as (f & Hf & Hname).
      rewrite Hf in H0.
      apply insertFile_spec in H0 as [(_ & -> & _)|(_ & Hn & _)];
        [reflexivity|]. rewrite Hname in Hn. congruence.
    - rewrite Hkey in Hk. injection Hk as Hk.
      apply insertFile_spec in Hins as [(-> & -> & _)|(_ & Hn & _)].
      + repeat split; eauto.
      + rewrite <- Hk in Hn. congruence. }
  destruct e1 as [e1|].
  - destruct (decide (e1 = ErrExist)) as [->|Hne].
    + destruct (addFileEntry encode t1 dir info r) as [t' err] eqn:E2.
      destruct (Hentry _ _ eq_refl) as (-> & [e ->] & Hex).
      exists t1, e.
      refine (conj eq_refl (conj F1 (conj F2 (conj F3 (conj F4
                (conj Hnew (conj Hpres (conj Hrel (conj _ Hsame))))))))).
      intros _ Hr. specialize (Hex Hr). congruence.
    + eexists _, _.
      refine (conj eq_refl (conj F1 (conj F2 (conj F3 (conj F4
                (conj Hnew (conj Hpres (conj Hrel (conj _ Hsame))))))))).
      intros Habs _. exfalso.
      apply addDirStep_abs in E1 as [?|?]; [congruence|congruence|assumption|lia].
  - destruct (addFileEntry encode t1 dir info r) as [t' err] eqn:E2.
    destruct (Hentry _ _ eq_refl) as (-> & [e ->] & Hex).
    exists t1, e.
    refine (conj eq_refl (conj F1 (conj F2 (conj F3 (conj F4
              (conj Hnew (conj Hpres (conj Hrel (conj _ Hsame))))))))).
    intros _ Hr. specialize (Hex Hr). congruence.
Qed.

Lemma C3_AddFile_existing_witness :
  (∃ t' e,
    AddFile C3_example.enc C3_example.clock C3_example.t0 "/etc"
            (Some C3_example.info) C3_example.r = (t', Some e)
    ∧ fields t' = fields C3_example.t0
    ∧ conffiles t' = conffiles C3_example.t0
    ∧ scripts t' = scripts C3_example.t0
    ∧ (∀ p f, files C3_example.t0 !! p = Some f -> files t' !! p = Some f)
    ∧ (∀ p f, files t' !! p = Some f -> files C3_example.t0 !! p = None ->
         isDirEntry f ∧ tar.Name (header f) = p
         ∧ ∃ n, (0 < n <= length (path.cleanStack true "/etc"))%nat
                ∧ p = dirKey (take n (path.cleanStack true "/etc")))
    ∧ (path.IsAbs "/etc" = true -> ancestorsPresent t' "/etc")
    ∧ (path.IsAbs "/etc" = false -> t' = C3_example.t0)
    ∧ (path.IsAbs "/etc" = true
       -> readerUsable C3_example.info C3_example.r -> e = ErrExist)
    ∧ (path.IsAbs "/etc" = true -> ancestorsPresent C3_example.t0 "/etc"
       -> t' = C3_example.t0))
  ∧ AddFile C3_example.enc C3_example.clock C3_example.t1 "/etc"
            (Some C3_example.info) C3_example.r
    = (C3_example.t1, Some ErrExist).
Proof.
  split.
  - apply (C3_AddFile_existing C3_example.enc C3_example.clock
             C3_example.t0 "/etc" C3_example.info C3_example.r "/etc/x").
    + reflexivity.
    + vm_compute. eexists. reflexivity.
  - destruct (C3_AddFile_existing C3_example.enc C3_example.clock
                C3_example.t1 "/etc" C3_example.info C3_example.r "/etc/x"
                eq_refl)
      as (t' & e & Heq & _ & _ & _ & _ & _ & _ & _ & Herr & Hsame).
    + vm_compute. eexists. reflexivity.
    + rewrite Heq. rewrite Hsame, Herr.
      * reflexivity.
      * reflexivity.
      * intros _. eexists. reflexivity.
      * reflexivity.
      * intros n Hn. vm_compute in Hn.
        assert (n = 1%nat) as -> by lia.
        vm_compute. eexists. reflexivity.
Defined.

(** C3 as stated fails: on the package [t0] the call for [/etc/x] returns
    [os.ErrExist], and the directory [/etc/] has been added. *)
Lemma C3_counterexample :
  ¬ (∀ (encode : Data -> string) (clock : nat -> Z) (t : T) (dir : string)
       (info : FileInfo) (r : option Reader) (key : string),
        fileKey dir info = Some key -> is_Some (files t !! key) ->
        AddFile encode clock t dir (Some info) r = (t, Some ErrExist)).
Proof.
  intros H.
  specialize (H C3_example.enc C3_example.clock C3_example.t0 "/etc"
                C3_example.info C3_example.r "/etc/x" eq_refl).
  assert (is_Some (files C3_example.t0 !! "/etc/x")) as Hs
    by (vm_compute; eexists; reflexivity).
  specialize (H Hs).
  apply (f_equal (fun x => files x.1 !! "/etc/")) in H.
  vm_compute in H. discriminate.
Qed.

(** ** Dependencies *)

Section DependsFacts.

#[local] Arguments String.concat _ _ : simpl never.

(** depends_test.go *)
Example TestDisjunctiveDependency :
  DisjunctiveDependency [] = ""
  ∧ DisjunctiveDependency ["a"] = "a"
  ∧ DisjunctiveDependency ["a"; "b"; "c"] = "a | b | c".
Proof. repeat split. Qed.

Example TestConjunctiveDependency :
  map ConjunctiveDependency
      [[]; [""]; ["a"]; ["a"; "b"; "c"]; [""; "a"; ""; "b"; ""]]
  = [""; ""; "a"; "a, b, c"; "a, b"].
Proof. reflexivity. Qed.

Example TestVersionedDependency (allowed : string -> bool) :
  allowed "foo" = true ->
  map (fun c : string * string * string =>
         VersionedDependency allowed c.1.1 c.1.2 c.2)
      [("foo", "", ""); ("foo", "invalid", ""); ("foo", "", "1.2.3");
       ("foo", RelStrictlyEarlier, "1.2.3");
       ("foo", RelLaterEqual, "1.2.3")]
  = [inl "foo"; inl "foo"; inl "foo (= 1.2.3)"; inl "foo (<< 1.2.3)";
     inl "foo (>= 1.2.3)"]
  ∧ is_err (VersionedDependency allowed "foo" "invalid" "1.2.3").
Proof.
  intros H. unfold VersionedDependency. simpl. rewrite H. simpl.
  split; [reflexivity|exact I].
Qed.

Lemma concat_app_sep (sep : string) (l : list string) (d : string) :
  l ≠ [] ->
  String.concat sep (l ++ [d]) = (String.concat sep l +:+ sep) +:+ d.
Proof.
  induction l as [|e l IH]; [congruence|]. intros _.
  destruct l as [|e' l].
  { change ([e] ++ [d]) with [e; d].
    rewrite path_facts.concat_cons by discriminate.
    change (String.concat sep [e]) with e.
    change (String.concat sep [d]) with d.
    now rewrite strings_facts.app_assoc. }
  change ((e :: e' :: l) ++ [d]) with (e :: ((e' :: l) ++ [d])).
  rewrite path_facts.concat_cons by (destruct l; discriminate).
  rewrite IH by discriminate.
  rewrite (path_facts.concat_cons sep e (e' :: l)) by discriminate.
  now rewrite !strings_facts.app_assoc.
Qed.

Lemma fold_join (sep : string) (rest : list string) :
  ∀ done : list string, done ≠ [] ->
  fold_left (fun result dep => (result +:+ sep) +:+ dep) rest
            (String.concat sep done)
  = String.concat sep (done ++ rest).
Proof.
  induction rest as [|d rest IH]; intros done Hne; simpl.
  - now rewrite app_nil_r.
  - rewrite <- concat_app_sep by exact Hne.
    rewrite IH by (destruct done; discriminate).
    now rewrite <- List.app_assoc.
Qed.

Lemma DisjunctiveDependency_concat (deps : list string) :
  DisjunctiveDependency deps = String.concat " | " deps.
Proof.
  destruct deps as [|first rest]; [reflexivity|].
  unfold DisjunctiveDependency.
  change first with (String.concat " | " [first]) at 1.
  now rewrite fold_join.
Qed.

Lemma fold_join_nonempty (sep : string) (rest : list string) :
  ∀ done : list string, done ≠ [] ->
  fold_left (fun result dep =>
               if String.eqb dep "" then result
               else (result +:+ sep) +:+ dep) rest
            (String.concat sep done)
  = String.concat sep (done ++ filter (fun d => d ≠ "") rest).
Proof.
  induction rest as [|d rest IH]; intros done Hne; simpl.
  - now rewrite app_nil_r.
  - rewrite filter_cons. destruct (String.eqb_spec d "") as [->|Hd].
    + rewrite decide_False by tauto. now apply IH.
    + rewrite decide_True by exact Hd.
      rewrite <- concat_app_sep by exact Hne.
      rewrite IH by (destruct done; discriminate).
      now rewrite <- List.app_assoc.
Qed.

Lemma skipEmpty_filter (deps : list string) :
  filter (fun d => d ≠ "") (skipEmpty deps) = filter (fun d => d ≠ "") deps.
Proof.
  induction deps as [|d deps IH]; [reflexivity|]. simpl.
  destruct (String.eqb_spec d "") as [->|Hd]; [|reflexivity].
  rewrite IH, filter_cons. now rewrite decide_False by tauto.
Qed.

Lemma skipEmpty_head (deps : list string) :
  skipEmpty deps = [] ∨ ∃ d rest, skipEmpty deps = d :: rest ∧ d ≠ "".
Proof.
  induction deps as [|d deps IH]; [now left|]. simpl.
  destruct (String.eqb_spec d "") as [->|Hd]; [exact IH|]. right. eauto.
Qed.

Lemma ConjunctiveDependency_concat (deps : list string) :
  ConjunctiveDependency deps
  = String.concat ", " (filter (fun d => d ≠ "") deps).
Proof.
  unfold ConjunctiveDependency. rewrite <- skipEmpty_filter.
  destruct (skipEmpty_head deps) as [->|(d & rest & -> & Hd)];
    [reflexivity|].
  rewrite filter_cons, decide_True by exact Hd.
  change d with (String.concat ", " [d]) at 1.
  now rewrite fold_join_nonempty.
Qed.

Lemma concat_nonempty (sep : string) (l : list string) :
  Forall (fun d => d ≠ "") l -> l ≠ [] -> String.concat sep l ≠ "".
Proof.
  intros Hl Hne. destruct l as [|e l]; [congruence|].
  apply Forall_cons in Hl as [He _].
  destruct l as [|e' l]; [exact He|].
  rewrite path_facts.concat_cons by discriminate.
  destruct e; [congruence|discriminate].
Qed.

Lemma concat_app (sep : string) (l1 l2 : list string) :
  l1 ≠ [] -> l2 ≠ [] ->
  String.concat sep (l1 ++ l2)
  = String.concat sep l1 +:+ sep +:+ String.concat sep l2.
Proof.
  intros H1 H2. induction l1 as [|e l1 IH]; [congruence|].
  destruct l1 as [|e' l1].
  - simpl app. now rewrite path_facts.concat_cons.
  - change ((e :: e' :: l1) ++ l2) with (e :: ((e' :: l1) ++ l2)).
    rewrite path_facts.concat_cons by (destruct l1; discriminate).
    rewrite IH by discriminate.
    rewrite (path_facts.concat_cons sep e (e' :: l1)) by discriminate.
    now rewrite !strings_facts.app_assoc.
Qed.

Lemma Forall_filter_ne (l : list string) :
  Forall (fun d => d ≠ "") (filter (fun d => d ≠ "") l).
Proof.
  apply Forall_forall. intros d Hd.
  now apply list_elem_of_filter in Hd as [Hd _].
Qed.

Lemma ConjunctiveDependency_nested (a b : list string) :
  ConjunctiveDependency [ConjunctiveDependency a; ConjunctiveDependency b]
  = ConjunctiveDependency (a ++ b).
Proof.
  rewrite !ConjunctiveDependency_concat, filter_app.
  set (fa := filter (fun d => d ≠ "") a).
  set (fb := filter (fun d => d ≠ "") b).
  pose proof (Forall_filter_ne a) as Ha. fold fa in Ha.
  pose proof (Forall_filter_ne b) as Hb. fold fb in Hb.
  rewrite !filter_cons, filter_nil.
  destruct fa as [|x fa'] eqn:Ea; destruct fb as [|y fb'] eqn:Eb.
  - reflexivity.
  - change (String.concat ", " []) with "".
    rewrite decide_False by tauto.
    rewrite decide_True by (now apply concat_nonempty). reflexivity.
  - change (String.concat ", " []) with "".
    rewrite decide_True by (now apply concat_nonempty).
    rewrite decide_False by tauto. now rewrite app_nil_r.
  - rewrite !decide_True by (now apply concat_nonempty).
    rewrite concat_app by discriminate. reflexivity.
Qed.

End DependsFacts.

(** ** Formats *)

Section Formats.

Variable encode : Data -> string.

(** [format &^ formatGZip] clears the lowest bit. *)
Lemma ldiff_formatGZip (format : Z) :
  Z.ldiff format formatGZip = 2 * (format / 2).
Proof.
  change formatGZip with (Z.ones 1).
  rewrite Z.ldiff_ones_r by lia.
  rewrite Z.shiftr_div_pow2, Z.shiftl_mul_pow2 by lia.
  change (2 ^ 1) with 2. lia.
Qed.

(** The check of [Read] and [Write] lets the two tar formats through and
    nothing else. *)
Lemma format_supported (format : Z) :
  (Z.ldiff format formatGZip =? FormatTar) = true
  <-> format = FormatTar ∨ format = FormatTarGZip.
Proof.
  rewrite Z.eqb_eq, ldiff_formatGZip.
  change FormatTar with 2. change FormatTarGZip with 3.
  pose proof (Z.div_mod format 2 ltac:(lia)).
  pose proof (Z.mod_pos_bound format 2 ltac:(lia)). lia.
Qed.

Lemma format_unsupported (format : Z) :
  format ≠ FormatTar -> format ≠ FormatTarGZip ->
  negb (Z.ldiff format formatGZip =? FormatTar) = true.
Proof.
  intros H1 H2. apply negb_true_iff.
  destruct (Z.ldiff format formatGZip =? FormatTar) eqn:E; [|reflexivity].
  apply format_supported in E. tauto.
Qed.

Lemma Write_unsupported (t : T) (o : Orders) (now format : Z) :
  format ≠ FormatTar -> format ≠ FormatTarGZip ->
  Write encode t o now format = (t, inr (errorString "Unsupported format")).
Proof.
  intros H1 H2. unfold Write. now rewrite format_unsupported.
Qed.

Lemma Read_unsupported (d : Data) (format : Z) :
  format ≠ FormatTar -> format ≠ FormatTarGZip ->
  Read encode (Some d) format = inr (errorString "Unsupported format").
Proof.
  intros H1 H2. unfold Read. now rewrite format_unsupported.
Qed.

(** [ReadDetectFormat] reads a gzip stream as [FormatTarGZip] and
    everything else as [FormatTar]. *)
Lemma ReadDetectFormat_Read (d : Data) :
  ReadDetectFormat encode (Some d)
  = match gzip.decode d with
    | Some _ => Read encode (Some d) FormatTarGZip
    | None => Read encode (Some d) FormatTar
    end.
Proof.
  unfold ReadDetectFormat. destruct (gzip.decode d) as [gzr|] eqn:E.
  - unfold Read.
    change (negb (Z.ldiff FormatTar formatGZip =? FormatTar)) with false.
    change (negb (Z.land FormatTar formatGZip =? 0)) with false.
    change (negb (Z.ldiff FormatTarGZip formatGZip =? FormatTar)) with false.
    change (negb (Z.land FormatTarGZip formatGZip =? 0)) with true.
    cbv iota. now rewrite E.
  - reflexivity.
Qed.

End Formats.

(** ** What a write changes *)

Section WriteFrame.

Variable encode : Data -> string.

#[local] Arguments slash : simpl never.
#[local] Arguments sort.Strings : simpl never.

(** [slash] gives a name that begins with [./]. *)
Lemma slash_prefix (p : string) : strings.HasPrefix (slash p) "./" = true.
Proof.
  unfold slash. destruct (strings.HasPrefix p "./") eqn:H1; [exact H1|].
  destruct (strings.HasPrefix p "/") eqn:H2.
  - destruct (HasPrefix_slash_inv p H2) as [q ->]. reflexivity.
  - reflexivity.
Qed.

Lemma slash_idem (p : string) : slash (slash p) = slash p.
Proof. unfold slash at 1. now rewrite slash_prefix. Qed.

Lemma written_idem (f : file) : written (written f) = written f.
Proof.
  unfold written. cbn [header data tar.Name tar.setName].
  now rewrite slash_idem.
Qed.

Lemma addArchiveEntry_header w hdr gzdata :
  (addArchiveEntry w hdr gzdata).1.2
  = tar.setName (slash (tar.Name hdr)) hdr.
Proof.
  unfold addArchiveEntry. destruct gzdata as [buf|]; [|reflexivity].
  now destruct (gzip.decode buf).
Qed.

(** The loop of [fillDataArchive] changes the names in the headers of
    the files it visits, and nothing else. *)
Lemma addEntries_frame (paths : list string) :
  ∀ t w t' w' err,
    addEntries t w paths = (t', w', err) ->
    fields t' = fields t ∧ conffiles t' = conffiles t
    ∧ scripts t' = scripts t
    ∧ ∀ k, files t' !! k = files t !! k
           ∨ files t' !! k = written <$> files t !! k.
Proof.
  induction paths as [|p paths IH]; intros t w t' w' err.
  - intros [= <- _ _]. auto.
  - cbn [addEntries]. destruct (files t !! p) as [f|] eqn:Ef; [|apply IH].
    pose proof (addArchiveEntry_header w (header f) (data f)) as Hh.
    destruct (addArchiveEntry w (header f) (data f)) as [[w1 hdr] e1].
    cbn [fst snd] in Hh. subst hdr.
    fold (written f).
    assert (∀ k, <[p := written f]> (files t) !! k = files t !! k
                 ∨ <[p := written f]> (files t) !! k
                   = written <$> files t !! k) as Hstep.
    { intros k. destruct (decide (k = p)) as [->|Hne].
      - right. now rewrite lookup_insert_eq, Ef.
      - left. now rewrite lookup_insert_ne by congruence. }
    destruct e1 as [e|].
    + intros [= <- _ _]. cbn [fields conffiles scripts files]. auto.
    + intros H. apply IH in H as (F1 & F2 & F3 & F4).
      cbn [fields conffiles scripts files] in *.
      refine (conj F1 (conj F2 (conj F3 _))). intros k.
      destruct (decide (k = p)) as [->|Hne].
      * right. rewrite Ef. destruct (F4 p) as [H|H]; rewrite H.
        -- now rewrite lookup_insert_eq.
        -- rewrite lookup_insert_eq. cbn. now rewrite written_idem.
      * destruct (F4 k) as [H|H]; rewrite H;
          rewrite lookup_insert_ne by congruence; auto.
Qed.

Lemma fillControlArchive_frame t o w modTime t' w' err :
  fillControlArchive t o w modTime = (t', w', err) ->
  fields t' = fields t ∧ scripts t' = scripts t ∧ files t' = files t
  ∧ (conffiles t' = conffiles t ∨ conffiles t' = sort.Strings (conffiles t)).
Proof.
  unfold fillControlArchive.
  destruct (addControl t (fieldOrder o) _ modTime) as [w1 [e|]];
    [intros [= <- _ _]; auto|].
  unfold addConffiles. destruct (conffiles t) as [|c cs] eqn:Ec.
  - destruct (addScripts w1 modTime _) as [w2 e2].
    intros [= <- _ _]. auto.
  - cbn [scripts]. destruct (addScripts _ modTime _) as [w2 e2].
    intros [= <- _ _]. cbn [fields conffiles scripts files]. auto.
Qed.

Lemma writeTar_frame t o w compress now t' w' err :
  writeTar encode t o w compress now = (t', w', err) ->
  fields t' = fields t ∧ scripts t' = scripts t
  ∧ conffiles t' ≡ₚ conffiles t
  ∧ ∀ k, files t' !! k = files t !! k
         ∨ files t' !! k = written <$> files t !! k.
Proof.
  unfold writeTar, writeControlArchive, createControlArchive,
    writeDataArchive, createDataArchive, fillDataArchive.
  destruct (fillControlArchive t o _ now) as [[t1 w1] e1] eqn:E1.
  apply fillControlArchive_frame in E1 as (F1 & F2 & F3 & F4).
  assert (conffiles t1 ≡ₚ conffiles t) as F4'.
  { destruct F4 as [-> | ->]; [reflexivity|apply Strings_Permutation]. }
  cbn [Finish fst snd]. unfold Finish. cbn [Writer gzipWriter newTempArchive].
  destruct e1 as [e|].
  { intros [= <- _ _]. rewrite F3. auto. }
  unfold addArchiveEntry at 1.
  destruct (addEntries t1 _ _) as [[t2 w2] e2] eqn:E2.
  apply addEntries_frame in E2 as (G1 & G2 & G3 & G4).
  assert (fields t2 = fields t ∧ scripts t2 = scripts t
          ∧ conffiles t2 ≡ₚ conffiles t
          ∧ ∀ k, files t2 !! k = files t !! k
                 ∨ files t2 !! k = written <$> files t !! k) as Hres.
  { rewrite G1, G2, G3, F1, F2. repeat split; auto.
    intros k. rewrite <- F3. apply G4. }
  destruct e2; intros [= <- _ _]; exact Hres.
Qed.

Lemma Write_frame t o now format t' r :
  Write encode t o now format = (t', r) ->
  fields t' = fields t ∧ scripts t' = scripts t
  ∧ conffiles t' ≡ₚ conffiles t
  ∧ ∀ k, files t' !! k = files t !! k
         ∨ files t' !! k = written <$> files t !! k.
Proof.
  unfold Write. destruct (negb _); [intros [= <- _]; auto|].
  destruct (writeTar encode t o [] _ now) as [[t1 w1] e1] eqn:E1.
  apply writeTar_frame in E1. destruct e1; intros [= <- _]; exact E1.
Qed.

End WriteFrame.

(** ** What a read returns *)

Section ReadInvariants.

Variable encode : Data -> string.

#[local] Arguments AddField : simpl never.
#[local] Arguments AddConffile : simpl never.
#[local] Arguments AddScript : simpl never.
#[local] Arguments readControl : simpl never.
#[local] Arguments readConffiles : simpl never.
#[local] Arguments readControlArchive : simpl never.
#[local] Arguments readDataArchive : simpl never.
#[local] Arguments unslash : simpl never.
#[local] Arguments path.Clean : simpl never.
#[local] Arguments isRegular : simpl never.
#[local] Arguments strings.HasPrefix : simpl never.
#[local] Arguments sort.Strings : simpl never.

Lemma scanLoop_preserves (P : T -> Prop) readLine what :
  (∀ t line, P t -> P (readLine t line).1) ->
  ∀ lines t i, P t -> P (scanLoop readLine what t i lines).1.
Proof.
  intros Hstep. induction lines as [|line lines IH]; intros t i Ht;
    [exact Ht|].
  simpl. specialize (Hstep t line Ht).
  destruct (readLine t line) as [t1 [e|]]; [exact Hstep|].
  now apply IH.
Qed.

Lemma AddField_other t name content :
  conffiles (AddField t name content).1 = conffiles t
  ∧ scripts (AddField t name content).1 = scripts t
  ∧ files (AddField t name content).1 = files t.
Proof.
  unfold AddField. destruct (negb _); [auto|].
  destruct (strings.ContainsRune _ _); [auto|].
  destruct (fields t !! name); auto.
Qed.

Lemma AddConffile_other t pathname :
  fields (AddConffile t pathname).1 = fields t
  ∧ scripts (AddConffile t pathname).1 = scripts t
  ∧ files (AddConffile t pathname).1 = files t.
Proof.
  unfold AddConffile. destruct (negb _); [auto|].
  destruct (String.eqb _ "/"); auto.
Qed.

Lemma AddScript_other t name r :
  fields (AddScript encode t name r).1 = fields t
  ∧ conffiles (AddScript encode t name r).1 = conffiles t
  ∧ files (AddScript encode t name r).1 = files t.
Proof.
  unfold AddScript. destruct r as [r|]; [|auto].
  destruct (_ || _ || _); [auto|].
  destruct (scripts t !! name); [auto|]. destruct r; auto.
Qed.

Lemma readControlLine_inv t line :
  controlInv encode t -> controlInv encode (readControlLine t line).1.
Proof.
  intros (H1 & H2 & H3). unfold readControlLine.
  destruct (strings.IndexByte line ":") as [i|];
    [|exact (conj H1 (conj H2 H3))].
  pose proof (AddField_fieldsOK t (strings.take i line)
                (strings.drop (S i) line) H1) as Hf.
  pose proof (AddField_other t (strings.take i line)
                (strings.drop (S i) line)) as (E2 & E3 & _).
  destruct (AddField t _ _) as [t1 [e|]]; cbn [fst] in *;
    (split; [exact Hf|]; now rewrite E2, E3).
Qed.

Lemma readConffile_inv t line :
  controlInv encode t -> controlInv encode (readConffile t line).1.
Proof.
  intros (H1 & H2 & H3). unfold readConffile.
  destruct (String.eqb line ""); [exact (conj H1 (conj H2 H3))|].
  pose proof (AddConffile_conffileOK t line H2) as Hc.
  pose proof (AddConffile_other t line) as (E1 & E3 & _).
  split; [now rewrite E1|]. split; [exact Hc|now rewrite E3].
Qed.

(** The package that [readControl] leaves is the one its loop leaves. *)
Lemma readControl_loop t r :
  (readControl encode t r).1
  = (scanLoop readControlLine "control file" t 1%nat
              (Scanner.Scan (bytesOf encode r)).1).1.
Proof.
  unfold readControl.
  destruct (Scanner.Scan (bytesOf encode r)) as [lines serr]. cbn [fst].
  destruct (scanLoop readControlLine "control file" t 1 lines)
    as [t1 [e|]]; [reflexivity|].
  now destruct serr.
Qed.

Lemma readControl_inv t r :
  controlInv encode t -> controlInv encode (readControl encode t r).1.
Proof.
  intros H. rewrite readControl_loop.
  now apply scanLoop_preserves; [apply readControlLine_inv|].
Qed.

Lemma readControl_conffiles t r :
  conffiles (readControl encode t r).1 = conffiles t.
Proof.
  rewrite readControl_loop.
  apply (scanLoop_preserves (fun t' => conffiles t' = conffiles t));
    [|reflexivity].
  intros t0 line H. unfold readControlLine.
  destruct (strings.IndexByte line ":") as [i|]; [|exact H].
  pose proof (AddField_other t0 (strings.take i line)
                (strings.drop (S i) line)) as (E2 & _).
  destruct (AddField t0 _ _) as [t1 [e|]]; cbn [fst] in *; congruence.
Qed.

Lemma readConffiles_inv t r t' :
  controlInv encode t -> readConffiles encode t r = (t', None) ->
  controlInv encode t' ∧ Sorted String.le (conffiles t').
Proof.
  intros H. unfold readConffiles.
  destruct (Scanner.Scan (bytesOf encode r)) as [lines serr].
  pose proof (scanLoop_preserves (controlInv encode) readConffile "conffiles"
                readConffile_inv lines t 1%nat H) as Hinv.
  destruct (scanLoop readConffile _ t 1%nat _) as [t1 [e|]];
    [discriminate|].
  destruct serr; [discriminate|].
  intros [= <-]. destruct Hinv as (H1 & H2 & H3).
  cbn [fst fields conffiles scripts] in *. split.
  - split; [exact H1|]. split; [|exact H3]. now apply Forall_Strings.
  - apply Strings_Sorted.
Qed.

Lemma readControlEntries_inv es tl :
  ∀ t cr cfr t',
    controlInv encode t -> Sorted String.le (conffiles t) ->
    readControlEntries encode t cr cfr es tl = (t', None) ->
    controlInv encode t' ∧ Sorted String.le (conffiles t').
Proof.
  induction es as [|[hdr content] es IH]; intros t cr cfr t' Hinv Hs.
  - simpl. destruct tl; [|discriminate].
    destruct (negb cr); [discriminate|]. now intros [= <-].
  - simpl. destruct (isRegular hdr); simpl; [|now apply IH].
    destruct (String.eqb _ controlName).
    + destruct cr; [discriminate|].
      pose proof (readControl_inv t content Hinv) as H1.
      pose proof (readControl_conffiles t content) as H2.
      destruct (readControl encode t content) as [t1 [e|]];
        [discriminate|]. cbn [fst] in *.
      apply IH; [exact H1|now rewrite H2].
    + destruct (String.eqb _ confName).
      * destruct cfr; [discriminate|].
        destruct (readConffiles encode t content) as [t1 [e|]] eqn:E;
          [discriminate|].
        apply readConffiles_inv in E as [H1 H2]; [|exact Hinv].
        now apply IH.
      * pose proof (AddScript_scriptsOK encode t
                      (path.Clean (unslash (tar.Name hdr)))
                      (Some (Rd content)) (proj2 (proj2 Hinv))) as H1.
        pose proof (AddScript_other t (path.Clean (unslash (tar.Name hdr)))
                      (Some (Rd content))) as (E1 & E2 & _).
        assert (controlInv encode (AddScript encode t
                              (path.Clean (unslash (tar.Name hdr)))
                              (Some (Rd content))).1
                ∧ Sorted String.le
                    (conffiles (AddScript encode t
                                  (path.Clean (unslash (tar.Name hdr)))
                                  (Some (Rd content))).1)) as [H3 H4].
        { destruct Hinv as (I1 & I2 & I3). unfold controlInv. rewrite E2.
          split; [|exact Hs].
          split; [now rewrite E1|]. split; [exact I2|exact H1]. }
        destruct (AddScript encode t _ _) as [t1 [e|]]; cbn [fst] in *.
        -- destruct (decide (e = ErrBadScriptName)); [|discriminate].
           now apply IH.
        -- now apply IH.
Qed.

Lemma readDataEntries_stored es tl :
  ∀ t t' err,
    readDataEntries t es tl = (t', err) ->
    (∀ k f, files t !! k = Some f -> storedData f) ->
    ∀ k f, files t' !! k = Some f -> storedData f.
Proof.
  induction es as [|[hdr content] es IH]; intros t t' err; simpl.
  - destruct tl; now intros [= <- <-].
  - destruct (_ || _ || _); [apply IH|].
    destruct (files t !! _); [now intros [= <- <-]|].
    intros H Hall. eapply IH; [exact H|]. intros k f. cbn [files].
    destruct (decide ("/" +:+ path.Clean (unslash (tar.Name hdr)) = k))
      as [<-|Hne].
    + rewrite lookup_insert_eq. intros [= <-]. unfold storedData.
      cbn [header data]. destruct (isRegular hdr); eauto.
    + rewrite lookup_insert_ne by exact Hne. apply Hall.
Qed.

Lemma readTarEntries_validated es tl :
  ∀ result dr cr q,
    validated encode result ->
    readTarEntries encode result dr cr es tl = inl q ->
    validated encode q.
Proof.
  induction es as [|[hdr content] es IH]; intros result dr cr q Hv.
  - simpl. destruct tl; [|discriminate].
    destruct (negb cr); [discriminate|]. now intros [= <-].
  - simpl. destruct (isRegular hdr); simpl; [|now apply IH].
    destruct (String.eqb _ controlArchiveName).
    + destruct cr; [discriminate|].
      destruct (readControlArchive encode result content) as [t1 [e|]] eqn:E;
        [discriminate|].
      apply IH. destruct Hv as (V1 & V2 & V3 & V4 & V5).
      pose proof (readControlArchive_files encode _ _ _ _ E) as Hfiles.
      revert E. unfold readControlArchive.
      destruct (gzip.decode content) as [inner|]; [|discriminate].
      destruct (tarEntries inner) as [es' tl']. intros E.
      apply readControlEntries_inv in E as [(W1 & W2 & W4) W3];
        [|exact (conj V1 (conj V2 V4))|exact V3].
      refine (conj W1 (conj W2 (conj W3 (conj W4 _)))).
      now rewrite Hfiles.
    + destruct (String.eqb _ dataArchiveName); [|now apply IH].
      destruct dr; [discriminate|].
      destruct (readDataArchive result content) as [t1 [e|]] eqn:E;
        [discriminate|].
      apply IH. destruct Hv as (V1 & V2 & V3 & V4 & V5).
      revert E. unfold readDataArchive.
      destruct (gzip.decode content) as [inner|]; [|discriminate].
      destruct (tarEntries inner) as [es' tl']. intros E.
      pose proof (readDataEntries_keys _ _ _ _ _ E) as (F1 & F2 & F3 & F4).
      pose proof (readDataEntries_stored _ _ _ _ _ E) as F5.
      rewrite <- F1, <- F2, <- F3 in *.
      refine (conj V1 (conj V2 (conj V3 (conj V4 _)))).
      intros k f Hk. split.
      * destruct (F4 k (mk_is_Some _ _ Hk)) as [[g Hg]|H]; [|exact H].
        now apply V5 in Hg.
      * eapply F5; [|exact Hk]. intros k' f' Hk'. now apply V5 in Hk'.
Qed.

Lemma validated_New : validated encode New.
Proof.
  unfold validated, New. cbn [fields conffiles scripts files].
  refine (conj _ (conj (List.Forall_nil _) (conj (Sorted_nil _) (conj _ _))));
    intros k f H; now rewrite lookup_empty in H.
Qed.

Lemma readTar_validated d q :
  readTar encode d = inl q -> validated encode q.
Proof.
  unfold readTar. destruct (tarEntries d) as [es tl].
  apply readTarEntries_validated, validated_New.
Qed.

Lemma Read_validated r format q :
  Read encode r format = inl q -> validated encode q.
Proof.
  unfold Read. destruct r as [d|]; [|discriminate].
  destruct (negb (Z.ldiff _ _ =? _)); [discriminate|].
  destruct (negb (Z.land _ _ =? _)); [|apply readTar_validated].
  destruct (gzip.decode d); [apply readTar_validated|discriminate].
Qed.

Lemma ReadDetectFormat_validated r q :
  ReadDetectFormat encode r = inl q -> validated encode q.
Proof.
  unfold ReadDetectFormat. destruct r as [d|]; [|discriminate].
  destruct (gzip.decode d); apply Read_validated.
Qed.

End ReadInvariants.

(** ** Entries of the control sub-archive, and written names *)

Section ControlEntries.

Variable encode : Data -> string.

#[local] Arguments AddField : simpl never.
#[local] Arguments AddConffile : simpl never.
#[local] Arguments AddScript : simpl never.
#[local] Arguments readControl : simpl never.
#[local] Arguments readConffiles : simpl never.
#[local] Arguments unslash : simpl never.
#[local] Arguments path.Clean : simpl never.
#[local] Arguments isRegular : simpl never.

Ltac control_round hdr :=
  simpl;
  destruct (isRegular hdr) eqn:?Hreg; simpl;
  [ destruct (String.eqb_spec (path.Clean (unslash (tar.Name hdr)))
                              controlName) as [?Hc|?Hc];
    [ | destruct (String.eqb_spec (path.Clean (unslash (tar.Name hdr)))
                                  confName) as [?Hd|?Hd] ]
  | ].

Lemma readControlEntries_no_control es tl :
  (∀ e, e ∈ es -> ¬ isControlEntry controlName e) ->
  ∀ t cfr, ∃ t' err,
    readControlEntries encode t false cfr es tl = (t', Some err).
Proof.
  induction es as [|[hdr content] es IH]; intros Hno t cfr.
  - simpl. destruct tl; eauto.
  - assert (∀ e, e ∈ es -> ¬ isControlEntry controlName e) as Hno'
      by (intros e He; apply Hno; now right).
    control_round hdr.
    + exfalso. apply (Hno (hdr, content)); [left|]. now split.
    + destruct cfr; [eauto|].
      destruct (readConffiles encode t content) as [t1 [e|]]; [eauto|].
      now apply IH.
    + destruct (AddScript encode t _ _) as [t1 [e|]]; [|now apply IH].
      destruct (decide (e = ErrBadScriptName)); [now apply IH|eauto].
    + now apply IH.
Qed.

Lemma readControlEntries_again name es tl :
  name = controlName ∨ name = confName ->
  (∃ e, e ∈ es ∧ isControlEntry name e) ->
  ∀ t cr cfr,
    (name = controlName -> cr = true) -> (name = confName -> cfr = true) ->
    ∃ t' err, readControlEntries encode t cr cfr es tl = (t', Some err).
Proof.
  intros Hname.
  induction es as [|[hdr content] es IH]; intros (e & He & Hreg & Hn).
  - now apply elem_of_nil in He.
  - intros t cr cfr Hcr Hcfr.
    assert (isRegular hdr = false
            ∨ path.Clean (unslash (tar.Name hdr)) ≠ name ->
            ∃ e, e ∈ es ∧ isControlEntry name e) as Hrest.
    { intros Hhd. apply elem_of_cons in He as [->|He].
      - simpl in *. destruct Hhd; congruence.
      - exists e. repeat split; assumption. }
    control_round hdr.
    + destruct cr; [eauto|].
      destruct (readControl encode t content) as [t1 [e'|]]; [eauto|].
      apply IH; [|reflexivity|exact Hcfr].
      apply Hrest. right. rewrite Hc. intros <-.
      destruct Hname as [H|H]; [now specialize (Hcr H)|discriminate].
    + destruct cfr; [eauto|].
      destruct (readConffiles encode t content) as [t1 [e'|]]; [eauto|].
      apply IH; [|exact Hcr|reflexivity].
      apply Hrest. right. rewrite Hd. intros <-.
      destruct Hname as [H|H]; [discriminate|now specialize (Hcfr H)].
    + assert (∃ e, e ∈ es ∧ isControlEntry name e) as Hr.
      { apply Hrest. right. intros <-. destruct Hname; congruence. }
      destruct (AddScript encode t _ _) as [t1 [e'|]]; [|now apply IH].
      destruct (decide (e' = ErrBadScriptName)); [now apply IH|eauto].
    + apply IH; auto.
Qed.

Lemma readControlEntries_repeat name es1 e1 rest tl :
  name = controlName ∨ name = confName ->
  isControlEntry name e1 ->
  (∃ e2, e2 ∈ rest ∧ isControlEntry name e2) ->
  ∀ t cr cfr,
    ∃ t' err,
      readControlEntries encode t cr cfr (es1 ++ e1 :: rest) tl
      = (t', Some err).
Proof.
  intros Hname [Hreg1 Hn1] Hrest.
  induction es1 as [|[hdr content] es1 IH]; intros t cr cfr.
  - destruct e1 as [hdr content]. simpl in Hreg1, Hn1.
    simpl. rewrite Hreg1. simpl. rewrite Hn1.
    destruct Hname as [-> | ->]; simpl.
    + destruct cr; [eauto|].
      destruct (readControl encode t content) as [t1 [e|]]; [eauto|].
      apply (readControlEntries_again controlName); auto.
      discriminate.
    + destruct cfr; [eauto|].
      destruct (readConffiles encode t content) as [t1 [e|]]; [eauto|].
      apply (readControlEntries_again confName); auto.
      discriminate.
  - rewrite <- app_comm_cons. control_round hdr.
    + destruct cr; [eauto|].
      destruct (readControl encode t content) as [t1 [e|]]; [eauto|].
      apply IH.
    + destruct cfr; [eauto|].
      destruct (readConffiles encode t content) as [t1 [e|]]; [eauto|].
      apply IH.
    + destruct (AddScript encode t _ _) as [t1 [e|]]; [|apply IH].
      destruct (decide (e = ErrBadScriptName)); [apply IH|eauto].
    + apply IH.
Qed.

End ControlEntries.

Section Names.

Variable encode : Data -> string.

#[local] Arguments slash : simpl never.
#[local] Arguments strings.HasPrefix : simpl never.
#[local] Arguments sort.Strings : simpl never.

Lemma dotSlashed_snoc w e :
  dotSlashed w -> strings.HasPrefix (tar.Name e.1) "./" = true ->
  dotSlashed (w ++ [e]).
Proof.
  intros Hw He. apply Forall_app. split; [exact Hw|]. now constructor.
Qed.

Lemma addArchiveEntry_dotSlashed w hdr gzdata :
  dotSlashed w -> dotSlashed (addArchiveEntry w hdr gzdata).1.1.
Proof.
  intros Hw. unfold addArchiveEntry.
  destruct gzdata as [buf|]; [destruct (gzip.decode buf)|];
    cbn [fst]; apply dotSlashed_snoc; try exact Hw; apply slash_prefix.
Qed.

Lemma addScripts_dotSlashed modTime kvs :
  ∀ w, dotSlashed w -> dotSlashed (addScripts w modTime kvs).1.
Proof.
  induction kvs as [|[name f] kvs IH]; intros w Hw; [exact Hw|].
  cbn [addScripts]. unfold addScript.
  pose proof (addArchiveEntry_dotSlashed w
                (tar.setMode
                   (Z.lor (tar.Mode (fileHeader name (tar.Size (header f))
                                                modTime)) 73)
                   (fileHeader name (tar.Size (header f)) modTime))
                (data f) Hw) as H.
  destruct (addArchiveEntry w _ (data f)) as [[w1 h1] e1]. cbn [fst] in H.
  destruct e1; [exact H|]. now apply IH.
Qed.

Lemma fileHeader_name name size modTime :
  tar.Name (fileHeader name size modTime) = name.
Proof. unfold fileHeader, specialHeader. now destruct (0 <=? size). Qed.

Lemma fillControlArchive_dotSlashed t o w modTime :
  dotSlashed w -> dotSlashed (fillControlArchive t o w modTime).1.2.
Proof.
  intros Hw. unfold fillControlArchive, addControl.
  assert (dotSlashed (w ++ [(directoryHeader "./" modTime, Raw "")])) as H0
    by (apply dotSlashed_snoc; [exact Hw|reflexivity]).
  destruct (controlText t (fieldOrder o)) as [buf|e]; [|exact H0].
  assert (dotSlashed ((w ++ [(directoryHeader "./" modTime, Raw "")])
                      ++ [(fileHeader (slash controlName)
                             (Z.of_nat (String.length buf)) modTime,
                           Raw buf)])) as H1.
  { apply dotSlashed_snoc; [exact H0|]. cbn [fst].
    rewrite fileHeader_name. apply slash_prefix. }
  unfold addConffiles. destruct (conffiles t) as [|c cs].
  - pose proof (addScripts_dotSlashed modTime
                  (range (scripts t) (scriptOrder o)) _ H1) as H2.
    destruct (addScripts _ modTime _) as [w2 e2]. exact H2.
  - cbn [scripts].
    match goal with
    | |- context [addScripts ?w0 modTime ?kvs] =>
        assert (dotSlashed w0) as H2
    end.
    { apply dotSlashed_snoc; [exact H1|]. cbn [fst].
      rewrite fileHeader_name. apply slash_prefix. }
    pose proof (addScripts_dotSlashed modTime
                  (range (scripts t) (scriptOrder o)) _ H2) as H3.
    destruct (addScripts _ modTime _) as [w2 e2]. exact H3.
Qed.

Lemma addEntries_dotSlashed paths :
  ∀ t w, dotSlashed w -> dotSlashed (addEntries t w paths).1.2.
Proof.
  induction paths as [|p paths IH]; intros t w Hw; [exact Hw|].
  cbn [addEntries]. destruct (files t !! p) as [f|]; [|now apply IH].
  pose proof (addArchiveEntry_dotSlashed w (header f) (data f) Hw) as H.
  destruct (addArchiveEntry w (header f) (data f)) as [[w1 h1] e1].
  cbn [fst] in H. destruct e1; [exact H|]. now apply IH.
Qed.

Lemma fillDataArchive_dotSlashed t o w modTime :
  dotSlashed w -> dotSlashed (fillDataArchive t o w modTime).1.2.
Proof.
  intros Hw. unfold fillDataArchive.
  pose proof (addArchiveEntry_dotSlashed w (directoryHeader "./" modTime)
                None Hw) as H.
  destruct (addArchiveEntry w (directoryHeader "./" modTime) None)
    as [[w1 h1] e1]. cbn [fst] in H.
  destruct e1; [exact H|]. now apply addEntries_dotSlashed.
Qed.

(** The names in what [writeTar] writes: in the outer archive, and in
    the sub-archives it holds. *)
Lemma writeTar_dotSlashed t o compress now t' w err :
  writeTar encode t o [] compress now = (t', w, err) ->
  dotSlashed w
  ∧ ∀ hdr level inner tl,
      (hdr, Gz level (Tar inner tl)) ∈ w -> dotSlashed inner.
Proof.
  unfold writeTar, writeControlArchive, createControlArchive,
    writeDataArchive, createDataArchive, newTempArchive, writeDebianBinary.
  cbn [Writer gzipWriter app].
  assert (dotSlashed []) as Hnil by constructor.
  pose proof (fillControlArchive_dotSlashed t o [] now Hnil) as Hc.
  destruct (fillControlArchive t o [] now) as [[t1 w1] e1].
  cbn [fst snd] in Hc. unfold Finish. cbn [Writer gzipWriter].
  assert (dotSlashed [(fileHeader "./debian-binary"
                         (Z.of_nat (String.length ("2.0" +:+ nl))) now,
                       Raw ("2.0" +:+ nl))]) as Hm
    by (constructor; [reflexivity|constructor]).
  destruct e1 as [e|].
  { intros [= _ <- _]. split; [exact Hm|].
    intros hdr level inner tl H. apply list_elem_of_singleton in H.
    discriminate. }
  pose proof (fillDataArchive_dotSlashed t1 o [] now Hnil) as Hd.
  destruct (fillDataArchive t1 o [] now) as [[t2 w2] e2].
  cbn [fst snd] in Hd.
  assert (dotSlashed
            [(fileHeader "./debian-binary"
                (Z.of_nat (String.length ("2.0" +:+ nl))) now,
              Raw ("2.0" +:+ nl));
             (fileHeader (slash controlArchiveName)
                (dataLen encode (Gz (compressionLevel compress)
                                    (Tar w1 tar.EOF))) now,
              Gz (compressionLevel compress) (Tar w1 tar.EOF))]) as Hmc.
  { constructor; [reflexivity|]. constructor; [|constructor].
    cbn [fst]. rewrite fileHeader_name. apply slash_prefix. }
  assert (∀ hdr level inner tl,
            (hdr, Gz level (Tar inner tl))
              ∈ [(fileHeader "./debian-binary"
                    (Z.of_nat (String.length ("2.0" +:+ nl))) now,
                  Raw ("2.0" +:+ nl));
                 (fileHeader (slash controlArchiveName)
                    (dataLen encode (Gz (compressionLevel compress)
                                        (Tar w1 tar.EOF))) now,
                  Gz (compressionLevel compress) (Tar w1 tar.EOF))] ->
            dotSlashed inner) as Hin.
  { intros hdr level inner tl H.
    apply elem_of_cons in H as [H|H]; [discriminate|].
    apply list_elem_of_singleton in H. now injection H as _ _ ->. }
  destruct e2 as [e|].
  { intros [= _ <- _]. split; [exact Hmc|exact Hin]. }
  intros [= _ <- _]. split.
  - apply (dotSlashed_snoc _ _ Hmc). cbn [fst].
    rewrite fileHeader_name. apply slash_prefix.
  - intros hdr level inner tl H.
    apply elem_of_cons in H as [H|H]; [discriminate|].
    apply elem_of_cons in H as [H|H]; [now injection H as _ _ ->|].
    apply list_elem_of_singleton in H. now injection H as _ _ ->.
Qed.

End Names.

Section ScriptRoundTrip.

Variable encode : Data -> string.

Lemma AddScript_GetScript t name content t' :
  AddScript encode t name (Some (Rd content)) = (t', None) ->
  GetScript t' name = inl (content, dataLen encode content)
  ∧ scripts t !! name = None
  ∧ (∀ k, k ≠ name -> scripts t' !! k = scripts t !! k)
  ∧ fields t' = fields t ∧ conffiles t' = conffiles t
  ∧ files t' = files t.
Proof.
  unfold AddScript. destruct (_ || _ || _); [discriminate|].
  destruct (scripts t !! name) eqn:E; [discriminate|].
  intros [= <-]. unfold GetScript. cbn [scripts fields conffiles files].
  rewrite lookup_insert_eq. cbn. repeat split.
  intros k Hk. now rewrite lookup_insert_ne by congruence.
Qed.

Lemma AddScript_reserved t name r :
  name = controlName ∨ name = confName ∨ allowedScriptNames name = false ->
  AddScript encode t name (Some r) = (t, Some ErrBadScriptName).
Proof.
  unfold AddScript. intros [->|[->|H]]; [reflexivity|reflexivity|].
  rewrite H. cbn. now rewrite !orb_true_r.
Qed.

End ScriptRoundTrip.

(** ** The example package *)

Section ExampleFacts.

Lemma X_example_orders : orders_of X_example.pkg X_example.o.
Proof.
  repeat split; unfold range_order; apply (bool_decide_unpack _);
    vm_compute; exact I.
Qed.

Lemma X_example_orders' : orders_of X_example.pkg X_example.o'.
Proof.
  repeat split; unfold range_order; apply (bool_decide_unpack _);
    vm_compute; exact I.
Qed.

Lemma X_example_fieldsOK : fieldsOK (fields X_example.pkg).
Proof.
  intros k v H. apply elem_of_map_to_list in H.
  set (l := map_to_list (fields X_example.pkg)) in H.
  vm_compute in l. subst l.
  repeat (apply elem_of_cons in H as [H|H];
          [injection H as -> ->; repeat split; reflexivity|]).
  now apply elem_of_nil in H.
Qed.

Lemma X_example_scriptsOK :
  scriptsOK X_example.enc (scripts X_example.pkg).
Proof.
  intros k v H. apply elem_of_map_to_list in H.
  set (l := map_to_list (scripts X_example.pkg)) in H.
  vm_compute in l. subst l.
  apply list_elem_of_singleton in H. injection H as -> ->.
  refine (conj eq_refl (conj _ (conj _ _))); try discriminate.
  exists X_example.script. reflexivity.
Qed.

Lemma X_example_fieldsFit : fieldsFit (fields X_example.pkg).
Proof.
  intros k v H. apply elem_of_map_to_list in H.
  set (l := map_to_list (fields X_example.pkg)) in H.
  vm_compute in l. subst l.
  repeat (apply elem_of_cons in H as [H|H];
          [injection H as -> ->; reflexivity|]).
  now apply elem_of_nil in H.
Qed.

Lemma X_example_controlOK : controlOK X_example.enc X_example.pkg.
Proof.
  refine (conj X_example_fieldsOK
            (conj _ (conj _ (conj X_example_scriptsOK X_example_fieldsFit)))).
  - repeat constructor; try reflexivity; discriminate.
  - repeat constructor; reflexivity.
Qed.

Lemma X_example_typesOK : typesOK X_example.pkg.
Proof.
  intros k f H. apply elem_of_map_to_list in H.
  set (l := map_to_list (files X_example.pkg)) in H.
  vm_compute in l. subst l.
  repeat (apply elem_of_cons in H as [H|H];
          [injection H as -> ->; apply (bool_decide_unpack _); vm_compute;
           exact I|]).
  now apply elem_of_nil in H.
Qed.

Lemma X_example_treeOK : treeOK X_example.enc X_example.pkg.
Proof.
  unfold X_example.pkg, AddFile. apply AddFile_rec_treeOK.
  - intros k f H. vm_compute in H. discriminate.
  - repeat split; try discriminate.
Qed.

Lemma X_example_mandatory :
  ∀ k, k ∈ mandatoryFields -> is_Some (fields X_example.pkg !! k).
Proof.
  intros k H. unfold mandatoryFields in H.
  repeat (apply elem_of_cons in H as [->|H]; [vm_compute; eauto|]).
  now apply elem_of_nil in H.
Qed.

End ExampleFacts.

(** ** Writing twice *)

Section WriteTwice.

Variable encode : Data -> string.

#[local] Arguments slash : simpl never.
#[local] Arguments sort.Strings : simpl never.

Lemma addArchiveEntry_written w f :
  addArchiveEntry w (header (written f)) (data (written f))
  = addArchiveEntry w (header f) (data f).
Proof.
  unfold addArchiveEntry, written. cbn [header data tar.Name tar.setName].
  rewrite slash_idem.
  assert (tar.setName (slash (tar.Name (header f)))
                      (tar.setName (slash (tar.Name (header f))) (header f))
          = tar.setName (slash (tar.Name (header f))) (header f)) as ->
    by reflexivity.
  reflexivity.
Qed.

(** A second pass of the loop of [fillDataArchive] over the same paths
    writes the same entries and leaves the package as the first pass
    left it. *)
Lemma addEntries_again (paths : list string) :
  ∀ t w t1 w1,
    addEntries t w paths = (t1, w1, None) ->
    addEntries t1 w paths = (t1, w1, None).
Proof.
  induction paths as [|p paths IH]; intros t w t1 w1 H.
  - now injection H as <- <-.
  - cbn [addEntries] in *.
    pose proof (addEntries_frame paths) as Hframe.
    destruct (files t !! p) as [f|] eqn:Ef.
    + pose proof (addArchiveEntry_header w (header f) (data f)) as Hh.
      destruct (addArchiveEntry w (header f) (data f)) as [[w2 hdr] e2] eqn:Ea.
      cbn [fst snd] in Hh. subst hdr. destruct e2 as [e|]; [discriminate|].
      pose proof (Hframe _ _ _ _ _ H) as (_ & _ & _ & G4).
      cbn [files] in G4.
      assert (files t1 !! p = Some (written f)) as Hp1.
      { destruct (G4 p) as [E|E]; rewrite E, lookup_insert_eq; [reflexivity|].
        cbn. f_equal. apply written_idem. }
      rewrite Hp1, addArchiveEntry_written, Ea.
      assert (mkT (fields t1) (conffiles t1) (scripts t1)
                  (<[p := mkFile (tar.setName (slash (tar.Name (header f)))
                                              (header f))
                                 (data (written f))]> (files t1)) = t1)
        as ->.
      { destruct t1 as [a b c m]. cbn [fields conffiles scripts files] in *.
        f_equal. now apply insert_id. }
      now apply IH in H.
    + pose proof (Hframe _ _ _ _ _ H) as (_ & _ & _ & G4).
      assert (files t1 !! p = None) as ->.
      { destruct (G4 p) as [E|E]; rewrite E, Ef; reflexivity. }
      now apply IH in H.
Qed.

Lemma range_written (m : gmap string file) (order : list string) :
  (range (written <$> m) order).*1 = (range m order).*1.
Proof.
  unfold range. induction order as [|k order IH]; [reflexivity|].
  cbn [omap list_omap]. rewrite lookup_fmap.
  destruct (m !! k); cbn; [f_equal|]; exact IH.
Qed.

Lemma range_fst_agree {A} (m m' : gmap string A) (order : list string) :
  (∀ k, is_Some (m' !! k) <-> is_Some (m !! k)) ->
  (range m' order).*1 = (range m order).*1.
Proof.
  intros H. unfold range. induction order as [|k order IH]; [reflexivity|].
  cbn [omap list_omap]. specialize (H k).
  destruct (m !! k) as [v|], (m' !! k) as [v'|]; cbn.
  - f_equal. exact IH.
  - destruct (proj2 H (mk_is_Some _ _ eq_refl)). discriminate.
  - destruct (proj1 H (mk_is_Some _ _ eq_refl)). discriminate.
  - exact IH.
Qed.

Lemma fillDataArchive_again t o w modTime t1 w1 :
  fillDataArchive t o w modTime = (t1, w1, None) ->
  fillDataArchive t1 o w modTime = (t1, w1, None).
Proof.
  unfold fillDataArchive.
  destruct (addArchiveEntry w (directoryHeader "./" modTime) None)
    as [[w2 h2] e2].
  destruct e2; [discriminate|]. intros H.
  pose proof (addEntries_frame _ _ _ _ _ _ H) as (_ & _ & _ & G4).
  rewrite (range_fst_agree (files t) (files t1)).
  - now apply addEntries_again in H.
  - intros k. destruct (G4 k) as [E|E]; rewrite E; [reflexivity|].
    rewrite !is_Some_alt. now destruct (files t !! k).
Qed.

Lemma Strings_nil (l : list string) : sort.Strings l = [] -> l = [].
Proof.
  intros H. apply Permutation_nil_r. rewrite <- H.
  symmetry. apply Strings_Permutation.
Qed.

Lemma fillControlArchive_again t o w modTime t1 w1 :
  fillControlArchive t o w modTime = (t1, w1, None) ->
  fillControlArchive t1 o w modTime = (t1, w1, None).
Proof.
  unfold fillControlArchive, addControl, controlText.
  destruct (writeMandatory (fields t) mandatoryFields "") as [buf|e] eqn:Em;
    [|discriminate].
  unfold addConffiles. destruct (conffiles t) as [|c cs] eqn:Ec.
  - destruct (addScripts _ modTime _) as [w2 e2] eqn:Es.
    intros [= <- <- ->]. rewrite Em, Ec, Es. reflexivity.
  - cbn [scripts]. destruct (addScripts _ modTime _) as [w2 e2] eqn:Es.
    intros [= <- <- ->]. cbn [fields conffiles scripts files].
    rewrite Em. rewrite Strings_idem.
    destruct (sort.Strings (c :: cs)) as [|c' cs'] eqn:E'.
    { apply Strings_nil in E'. discriminate. }
    cbn [scripts]. rewrite Es. reflexivity.
Qed.

Lemma fillControlArchive_cong t t' o w modTime r w' e :
  fields t' = fields t -> conffiles t' = conffiles t ->
  scripts t' = scripts t ->
  fillControlArchive t o w modTime = (r, w', e) ->
  fillControlArchive t' o w modTime
  = (mkT (fields r) (conffiles r) (scripts r) (files t'), w', e).
Proof.
  intros F1 F2 F3.
  unfold fillControlArchive, addControl, controlText, addConffiles.
  rewrite F1, F2, F3.
  destruct (writeMandatory (fields t) mandatoryFields "") as [buf|e0].
  2:{ intros [= <- <- <-]. destruct t' as [a b c m].
      cbn [fields conffiles scripts files] in *. now subst a b c. }
  destruct (conffiles t) as [|c cs] eqn:Ec.
  - rewrite F3. destruct (addScripts _ modTime _) as [w2 e2].
    intros [= <- <- <-]. rewrite Ec.
    destruct t' as [a b c m]. cbn [fields conffiles scripts files] in *.
    now subst a b c.
  - cbn [scripts]. rewrite ?F3.
    destruct (addScripts _ modTime _) as [w2 e2]. now intros [= <- <- <-].
Qed.

Lemma fillDataArchive_frame t o w modTime t1 w1 err :
  fillDataArchive t o w modTime = (t1, w1, err) ->
  fields t1 = fields t ∧ conffiles t1 = conffiles t ∧ scripts t1 = scripts t.
Proof.
  unfold fillDataArchive.
  destruct (addArchiveEntry w (directoryHeader "./" modTime) None)
    as [[w2 h2] e2].
  destruct e2; [intros [= <- _ _]; auto|]. intros H.
  now apply addEntries_frame in H as (G1 & G2 & G3 & _).
Qed.

(** A second [writeTar] on the package that the first one left writes
    the same entries and leaves the package as it is. *)
Lemma writeTar_again t o compress now t1 w1 :
  writeTar encode t o [] compress now = (t1, w1, None) ->
  writeTar encode t1 o [] compress now = (t1, w1, None).
Proof.
  unfold writeTar, writeControlArchive, createControlArchive,
    writeDataArchive, createDataArchive, newTempArchive.
  cbn [Writer gzipWriter].
  destruct (fillControlArchive t o [] now) as [[t2 w2] e2] eqn:E2.
  destruct e2; [discriminate|]. unfold Finish at 1. cbn [Writer gzipWriter].
  destruct (fillDataArchive t2 o [] now) as [[t3 w3] e3] eqn:E3.
  destruct e3; [discriminate|]. unfold Finish at 1. cbn [Writer gzipWriter].
  intros [= <- <-].
  pose proof (fillDataArchive_frame _ _ _ _ _ _ _ E3) as (G1 & G2 & G3).
  apply fillControlArchive_again in E2.
  apply fillDataArchive_again in E3.
  rewrite (fillControlArchive_cong t2 t3 o [] now _ _ _ G1 G2 G3 E2).
  assert (mkT (fields t2) (conffiles t2) (scripts t2) (files t3) = t3) as ->.
  { destruct t3 as [a b c m]. cbn [fields conffiles scripts files] in *.
    subst a b c. reflexivity. }
  unfold Finish at 1. cbn [Writer gzipWriter]. rewrite E3. reflexivity.
Qed.

Lemma Write_again t o now format t1 d :
  Write encode t o now format = (t1, inl d) ->
  Write encode t1 o now format = (t1, inl d).
Proof.
  unfold Write. destruct (negb (Z.ldiff _ _ =? _)); [discriminate|].
  destruct (writeTar encode t o [] _ now) as [[t2 w2] e2] eqn:E.
  destruct e2; [discriminate|]. intros [= <- <-].
  apply writeTar_again in E. now rewrite E.
Qed.

End WriteTwice.

(** ** Further properties of the operations *)

(** X1.  [AddField] succeeds exactly when the name matches the pattern of
    field names, the content without the white space at its ends, as
    Unicode defines it, has no line feed and the field is not set yet.
    After a success [GetField] returns the trimmed content for the name
    and what it returned before for every other name, and conffiles,
    scripts and files are as before; after a failure the package is
    unchanged. *)
Theorem X1_AddField_GetField (t : T) (name content : string) :
  ((AddField t name content).2 = None
   <-> allowedFieldNames name = true
       ∧ singleLine (strings.TrimSpace content)
       ∧ GetField t name = None)
  ∧ (∀ t', AddField t name content = (t', None) ->
       GetField t' name = Some (strings.TrimSpace content)
       ∧ (∀ k, k ≠ name -> GetField t' k = GetField t k)
       ∧ conffiles t' = conffiles t ∧ scripts t' = scripts t
       ∧ files t' = files t)
  ∧ (∀ t' e, AddField t name content = (t', Some e) -> t' = t).
Proof.
  split; [|split].
  - split.
    + destruct (AddField t name content) as [t' [e|]] eqn:E; [discriminate|].
      intros _. now apply AddField_inv in E as (H1 & H2 & H3 & _).
    + intros (H1 & H2 & H3). now rewrite AddField_ok.
  - intros t' H. apply AddField_inv in H as (_ & _ & _ & ->).
    unfold GetField. cbn [fields conffiles scripts files].
    rewrite lookup_insert_eq. repeat split.
    intros k Hk. now rewrite lookup_insert_ne by congruence.
  - intros t' e. apply AddField_err.
Qed.

Lemma X1_AddField_GetField_witness :
  GetField (AddField New ControlPackage (" foo" +:+ nl)).1 ControlPackage
  = Some "foo"
  ∧ GetField (AddField New ControlDesc
                (X_example.nbsp +:+ nl +:+ "foo" +:+ X_example.nbsp)).1
             ControlDesc
    = Some "foo"
  ∧ (AddField New "Pack age" "foo").1 = New.
Proof.
  split; [|split].
  - apply (proj1 (proj1 (proj2 (X1_AddField_GetField New ControlPackage
                                   (" foo" +:+ nl))) _ eq_refl)).
  - apply (proj1 (proj1 (proj2 (X1_AddField_GetField New ControlDesc
                                   (X_example.nbsp +:+ nl +:+ "foo"
                                    +:+ X_example.nbsp))) _ eq_refl)).
  - apply (proj2 (proj2 (X1_AddField_GetField New "Pack age" "foo"))
             _ (errorString "Invalid field name")).
    reflexivity.
Defined.

(** X2.  [AddField], [AddConffile] and [AddScript] keep the control data
    well formed, whether they succeed or not: every field name matches the
    pattern of field names and every value is a single line without white
    space at its ends; every configuration file is a cleaned absolute path
    other than the root; every script has an allowed name that is not
    reserved, its compressed content, and the size of the content in its
    header. *)
Theorem X2_control_wellformed (encode : Data -> string) (t : T) :
  controlInv encode t ->
  (∀ name content, controlInv encode (AddField t name content).1)
  ∧ (∀ pathname, controlInv encode (AddConffile t pathname).1)
  ∧ (∀ name r, controlInv encode (AddScript encode t name r).1).
Proof.
  intros (H1 & H2 & H3). split; [|split].
  - intros name content.
    destruct (AddField_other t name content) as (E2 & E3 & _).
    unfold controlInv. rewrite E2, E3.
    refine (conj _ (conj H2 H3)). now apply AddField_fieldsOK.
  - intros pathname.
    destruct (AddConffile_other t pathname) as (E1 & E3 & _).
    unfold controlInv. rewrite E1, E3.
    refine (conj H1 (conj _ H3)). now apply AddConffile_conffileOK.
  - intros name r.
    destruct (AddScript_other encode t name r) as (E1 & E2 & _).
    unfold controlInv. rewrite E1, E2.
    refine (conj H1 (conj H2 _)). now apply AddScript_scriptsOK.
Qed.

Lemma X2_control_wellformed_witness :
  controlInv X_example.enc (AddField New ControlDesc "  a  b  ").1
  ∧ controlInv X_example.enc (AddConffile New "/etc//foo/../bar.conf").1
  ∧ controlInv X_example.enc
      (AddScript X_example.enc New "postinst"
                 (Some (Rd X_example.script))).1.
Proof.
  assert (controlInv X_example.enc New) as H.
  { unfold controlInv, New. cbn [fields conffiles scripts].
    refine (conj _ (conj (List.Forall_nil _) _)); intros k v Hk;
      now rewrite lookup_empty in Hk. }
  destruct (X2_control_wellformed X_example.enc New H) as (H1 & H2 & H3).
  split; [apply H1|]. split; [apply H2|apply H3].
Defined.

(** X3.  A script that [AddScript] has added comes back from [GetScript]
    with its content and the length of the content, the other scripts and
    the rest of the package are as before.  The names [control] and
    [conffiles] and every name that is not made of lower-case letters are
    refused with [ErrBadScriptName], and nothing is changed. *)
Theorem X3_AddScript_GetScript (encode : Data -> string) (t : T)
    (name : string) :
  (∀ content t',
     AddScript encode t name (Some (Rd content)) = (t', None) ->
     GetScript t' name = inl (content, dataLen encode content)
     ∧ scripts t !! name = None
     ∧ (∀ k, k ≠ name -> scripts t' !! k = scripts t !! k)
     ∧ fields t' = fields t ∧ conffiles t' = conffiles t
     ∧ files t' = files t)
  ∧ (name = controlName ∨ name = confName
     ∨ allowedScriptNames name = false ->
     ∀ r, AddScript encode t name (Some r) = (t, Some ErrBadScriptName)).
Proof.
  split.
  - intros content t'. apply AddScript_GetScript.
  - intros H r. now apply AddScript_reserved.
Qed.

Lemma X3_AddScript_GetScript_witness :
  GetScript (AddScript X_example.enc New "postinst"
                       (Some (Rd X_example.script))).1 "postinst"
  = inl (X_example.script, 10)
  ∧ AddScript X_example.enc New "post-inst" (Some (Rd X_example.script))
    = (New, Some ErrBadScriptName).
Proof.
  split.
  - apply (proj1 (X3_AddScript_GetScript X_example.enc New "postinst")
             X_example.script _ eq_refl).
  - apply (proj2 (X3_AddScript_GetScript X_example.enc New "post-inst")).
    right; right. reflexivity.
Defined.

(** X4.  The control file that [addControl] writes for a package with
    well-formed fields, each of which fits on a line that the scanner
    takes, reads back, on a package without fields, as the field map of
    the package: for every walk over the field map. *)
Theorem X4_control_file_roundtrip (encode : Data -> string) (t t0 : T)
    (order : list string) (text : string) :
  fieldsOK (fields t) -> fieldsFit (fields t) ->
  range_order (fields t) order ->
  controlText t order = inl text -> fields t0 = ∅ ->
  readControl encode t0 (Raw text)
  = (mkT (fields t) (conffiles t0) (scripts t0) (files t0), None).
Proof. apply readControl_controlText. Qed.

Lemma X4_control_file_roundtrip_witness :
  ∃ text,
    controlText X_example.pkg (fieldOrder X_example.o) = inl text
    ∧ readControl X_example.enc New (Raw text)
      = (mkT (fields X_example.pkg) [] ∅ ∅, None).
Proof.
  eexists. split; [vm_compute; reflexivity|].
  apply (X4_control_file_roundtrip X_example.enc X_example.pkg New
           (fieldOrder X_example.o)).
  - exact X_example_fieldsOK.
  - exact X_example_fieldsFit.
  - exact (proj1 X_example_orders).
  - vm_compute. reflexivity.
  - reflexivity.
Defined.

(** X5.  [addConffiles] writes no entry when the package has no
    configuration file.  Otherwise, when it succeeds, it has sorted the
    list of the package and written one entry, with one line for each
    path of the sorted list; when the paths are as [AddConffile] stores
    them and each is one line that the scanner takes, [readConffiles]
    reads this entry back as the sorted list. *)
Theorem X5_conffiles_roundtrip (encode : Data -> string) (t : T)
    (w : list (tar.Header * Data)) (modTime : Z) :
  (conffiles t = [] -> addConffiles t w modTime = (t, w, None))
  ∧ (conffiles t ≠ [] ->
     ∀ t' w', addConffiles t w modTime = (t', w', None) ->
     ∃ hdr text,
       t' = mkT (fields t) (sort.Strings (conffiles t)) (scripts t) (files t)
       ∧ w' = w ++ [(hdr, Raw text)]
       ∧ text = conffilesText (sort.Strings (conffiles t))
       ∧ (Forall conffileOK (conffiles t) -> Forall lineSafe (conffiles t) ->
          ∀ t0, conffiles t0 = [] ->
            readConffiles encode t0 (Raw text)
            = (mkT (fields t0) (sort.Strings (conffiles t)) (scripts t0)
                   (files t0), None))).
Proof.
  split.
  - intros H. unfold addConffiles. now rewrite H.
  - intros H t' w'. rewrite addConffiles_text by exact H.
    intros [= <- <-]. eexists _, _.
    refine (conj eq_refl (conj eq_refl (conj eq_refl _))).
    intros Hok Hsafe t0 Ht0.
    rewrite readConffiles_text by now apply Forall_Strings.
    now rewrite Ht0, app_nil_l, Strings_idem.
Qed.

Lemma X5_conffiles_roundtrip_witness :
  addConffiles New [] 0 = (New, [], None)
  ∧ ∃ hdr text,
      (addConffiles X_example.pkg [] 0).1.2 = [(hdr, Raw text)]
      ∧ readConffiles X_example.enc New (Raw text)
        = (mkT ∅ ["/etc/bar.conf"; "/etc/foo/foo.conf"] ∅ ∅, None).
Proof.
  split.
  - apply (proj1 (X5_conffiles_roundtrip X_example.enc New [] 0)).
    reflexivity.
  - destruct (addConffiles X_example.pkg [] 0) as [[t' w'] [e|]] eqn:E;
      [vm_compute in E; discriminate|].
    destruct (proj2 (X5_conffiles_roundtrip X_example.enc X_example.pkg
                       [] 0) ltac:(discriminate) t' w' E)
      as (hdr & text & _ & H2 & _ & H4).
    exists hdr, text. split; [exact H2|].
    apply (H4 (proj1 (proj2 X_example_controlOK))
              (proj1 (proj2 (proj2 X_example_controlOK))) New eq_refl).
Defined.



(** X7.  The data sub-archive does not depend on the order in which the
    runtime walks the file map: [fillDataArchive] sorts the paths, so
    two walks give the same archive, the same size and the same
    package. *)
Theorem X7_data_archive_order (encode : Data -> string) (t : T)
    (o1 o2 : Orders) (compress : bool) (modTime : Z) :
  range_order (files t) (fileOrder o1) ->
  range_order (files t) (fileOrder o2) ->
  createDataArchive encode t o1 compress modTime
  = createDataArchive encode t o2 compress modTime.
Proof.
  intros H1 H2. unfold createDataArchive, fillDataArchive.
  now rewrite (sortedPaths_order t _ H1), (sortedPaths_order t _ H2).
Qed.

Lemma X7_data_archive_order_witness :
  createDataArchive X_example.enc X_example.pkg X_example.o true 0
  = createDataArchive X_example.enc X_example.pkg X_example.o' true 0.
Proof.
  apply (X7_data_archive_order X_example.enc X_example.pkg X_example.o
           X_example.o' true 0).
  - exact (proj2 (proj2 X_example_orders)).
  - exact (proj2 (proj2 X_example_orders')).
Defined.

(** X8.  Reading a data sub-archive leaves fields, configuration files
    and scripts alone, and every path it adds to the file tree lies below
    the root: a slash followed by names separated by single slashes, none
    of them empty, [.] or [..].  Entries for the root and entries whose
    name climbs out of the root are passed over.  The content kept goes
    with the type of the entry: compressed content for a regular file,
    none for the others. *)
Theorem X8_readDataArchive_paths (t : T) (r : Data) (t' : T)
    (err : option error) :
  readDataArchive t r = (t', err) ->
  fields t' = fields t ∧ conffiles t' = conffiles t
  ∧ scripts t' = scripts t
  ∧ (∀ k, is_Some (files t' !! k) -> is_Some (files t !! k) ∨ treeKey k)
  ∧ ((∀ k f, files t !! k = Some f -> storedData f) ->
     ∀ k f, files t' !! k = Some f -> storedData f).
Proof.
  unfold readDataArchive.
  destruct (gzip.decode r) as [inner|]; [|intros [= <- _]; auto].
  - destruct (tarEntries inner) as [es tl]. intros H.
    destruct (readDataEntries_keys _ _ _ _ _ H) as (F1 & F2 & F3 & F4).
    refine (conj F1 (conj F2 (conj F3 (conj F4 _)))).
    now apply (readDataEntries_stored _ _ _ _ _ H).
  - repeat split; auto.
Qed.

Lemma X8_readDataArchive_paths_witness :
  ∃ t', readDataArchive New X_example.hostile = (t', None)
        ∧ ∀ k, is_Some (files t' !! k) -> is_Some (files New !! k) ∨ treeKey k.
Proof.
  eexists. split; [reflexivity|].
  apply (X8_readDataArchive_paths New X_example.hostile _ None eq_refl).
Defined.

(** X9.  When [createDataArchive] succeeds for a package whose file tree
    is well formed, with entries of the types that [AddFile] makes, the
    package is left with the names in the headers of its files in the
    form that begins with [./], and the archive reads back, on a package
    with an empty file tree, as follows: under the path of a directory of
    the tree, without the slash at its end, is the directory; under any
    other path of a file of the tree is the file; there is nothing else.
    The entries that come back have their content and their header, with
    the name as written, up to the modification time and the format. *)
Theorem X9_data_archive_roundtrip (encode : Data -> string) (t : T)
    (o : Orders) (compress : bool) (modTime : Z) (t' : T) (archive : Data)
    (size : Z) :
  treeOK encode t -> typesOK t -> range_order (files t) (fileOrder o) ->
  createDataArchive encode t o compress modTime
  = (t', (archive, size), None) ->
  t' = mkT (fields t) (conffiles t) (scripts t) (written <$> files t)
  ∧ ∀ t0, files t0 = ∅ ->
      ∃ q, readDataArchive t0 archive = (q, None)
           ∧ fields q = fields t0 ∧ conffiles q = conffiles t0
           ∧ scripts q = scripts t0
           ∧ (∀ k, is_Some (files q !! k) -> treeKey k)
           ∧ (∀ st, st ≠ [] -> Forall plain st ->
                readsAs (files q !! render st)
                        (readBack (files t) (render st))).
Proof.
  intros Hok _ Horder Hcreate.
  destruct (createDataArchive_entries encode t o compress modTime Hok Horder)
    as (size' & E & _).
  rewrite E in Hcreate. injection Hcreate as <- <- _.
  split; [reflexivity|]. intros t0 Ht0.
  destruct (readDataArchive_written encode t modTime
              (compressionLevel compress) t0 Hok Ht0)
    as (q & Hq & F1 & F2 & F3 & F4 & F5).
  exists q. refine (conj Hq (conj F1 (conj F2 (conj F3 (conj F4 _))))).
  intros st Hne Hst. rewrite (F5 st Hne Hst). apply readsAs_refl.
Qed.

Lemma X9_data_archive_roundtrip_witness :
  ∃ q, readDataArchive New
         (createDataArchive X_example.enc X_example.pkg X_example.o true
                            0).1.2.1
       = (q, None)
       ∧ (∀ k, is_Some (files q !! k) -> treeKey k)
       ∧ (∀ st, st ≠ [] -> Forall plain st ->
            readsAs (files q !! render st)
                    (readBack (files X_example.pkg) (render st))).
Proof.
  destruct (createDataArchive X_example.enc X_example.pkg X_example.o true 0)
    as [[t' [archive size]] [e|]] eqn:E; [vm_compute in E; discriminate|].
  destruct (proj2 (X9_data_archive_roundtrip X_example.enc X_example.pkg
                     X_example.o true 0 t' archive size X_example_treeOK
                     X_example_typesOK (proj2 (proj2 X_example_orders)) E)
              New eq_refl)
    as (q & Hq & _ & _ & _ & H4 & H5).
  exists q. cbn [fst snd]. auto.
Defined.



(** X11.  [AddFile] with a directory that is not absolute fails, with an
    error that is not [os.ErrExist], and leaves the package as it was:
    whatever the file and the reader are. *)
Theorem X11_AddFile_relative (encode : Data -> string) (clock : nat -> Z)
    (t : T) (dir : string) (info : option FileInfo) (r : option Reader) :
  path.IsAbs dir = false ->
  ∃ e, AddFile encode clock t dir info r = (t, Some e) ∧ e ≠ ErrExist.
Proof. intros H. unfold AddFile. now apply AddFile_rec_relative. Qed.

Lemma X11_AddFile_relative_witness :
  ∃ e, AddFile X_example.enc X_example.clock X_example.control "etc/foo"
               (Some X_example.info) (Some (Rd (Raw "abc")))
       = (X_example.control, Some e) ∧ e ≠ ErrExist.
Proof.
  apply (X11_AddFile_relative X_example.enc X_example.clock
           X_example.control "etc/foo").
  reflexivity.
Defined.

(** X12.  When [AddFile] succeeds, the directory is absolute, the file
    is in the tree under its key, which was free before, the directory
    and every directory above it are in the tree, and nothing else has
    changed: fields, configuration files and scripts are as before, every
    entry of the tree from before is unchanged, and every other new entry
    is a directory as [addDir] makes it. *)
Theorem X12_AddFile_success (encode : Data -> string) (clock : nat -> Z)
    (t : T) (dir : string) (info : FileInfo) (r : option Reader) (t' : T) :
  AddFile encode clock t dir (Some info) r = (t', None) ->
  path.IsAbs dir = true
  ∧ ancestorsPresent t' dir
  ∧ extends t t'
  ∧ ∃ key f,
      fileKey dir info = Some key ∧ tar.Name (header f) = key
      ∧ files t !! key = None ∧ files t' !! key = Some f
      ∧ ∀ p g, files t' !! p = Some g -> files t !! p = None ->
               p = key ∨ isDirEntry g.
Proof.
  unfold AddFile. rewrite AddFile_rec_eq.
  destruct (addDirStep encode (S (String.length dir)) clock t dir)
    as [t1 e1] eqn:E1.
  destruct (path.IsAbs dir) eqn:Habs.
  2:{ destruct (addDirStep_relative encode (S (String.length dir)) clock t
                  dir Habs) as (e & E & He).
      rewrite E in E1. injection E1 as <- <-.
      destruct (decide (e = ErrExist)); [contradiction|discriminate]. }
  pose proof (addDirStep_materializes encode (S (String.length dir)) clock
                t dir t1 e1 Habs ltac:(lia) E1) as Hpres.
  pose proof (addDirStep_addsDirs encode _ _ _ _ _ _ E1) as [Hext Hdirs].
  intros H.
  assert (addFileEntry encode t1 dir info r = (t', None)) as Hentry.
  { destruct e1 as [e|]; [|exact H].
    destruct (decide (e = ErrExist)); [exact H|discriminate]. }
  apply addFileEntry_cases in Hentry as [[_ [e He]]|(f & Hins & Hkey)];
    [discriminate|].
  pose proof (insertFile_extends _ _ _ _ Hins) as Hext'.
  apply insertFile_spec in Hins as [(_ & He & _)|(_ & Hfree & ->)];
    [discriminate|].
  split; [reflexivity|]. split; [|split].
  - intros n Hn. destruct (Hpres n Hn) as [g Hg].
    destruct Hext' as (_ & _ & _ & Hkeep). eauto.
  - now apply (extends_trans t t1).
  - exists (tar.Name (header f)), f.
    refine (conj Hkey (conj eq_refl (conj _ (conj _ _)))).
    + destruct (files t !! tar.Name (header f)) as [g|] eqn:E;
        [|reflexivity].
      destruct Hext as (_ & _ & _ & Hkeep). apply Hkeep in E. congruence.
    + cbn [files]. apply lookup_insert_eq.
    + intros p g Hp Hnone. cbn [files] in Hp.
      destruct (decide (tar.Name (header f) = p)) as [<-|Hne]; [now left|].
      right. rewrite lookup_insert_ne in Hp by exact Hne. eauto.
Qed.

Lemma X12_AddFile_success_witness :
  path.IsAbs "/etc/foo" = true
  ∧ ancestorsPresent X_example.pkg "/etc/foo"
  ∧ extends X_example.control X_example.pkg
  ∧ ∃ key f,
      fileKey "/etc/foo" X_example.info = Some key
      ∧ tar.Name (header f) = key
      ∧ files X_example.control !! key = None
      ∧ files X_example.pkg !! key = Some f
      ∧ ∀ p g, files X_example.pkg !! p = Some g ->
               files X_example.control !! p = None ->
               p = key ∨ isDirEntry g.
Proof.
  apply (X12_AddFile_success X_example.enc X_example.clock X_example.control
           "/etc/foo" X_example.info (Some (Rd (Raw "abc"))) X_example.pkg).
  vm_compute. reflexivity.
Defined.



(** X14.  [Read] and [Write] support the formats [FormatTar] and
    [FormatTarGZip] and no other: for every other value of the format,
    [FormatUnknown] and the bare gzip flag among them, both return the
    error for an unsupported format, [Write] without any change to the
    package and [Read] before it looks at the stream. *)
Theorem X14_unsupported_format (encode : Data -> string) (format : Z) :
  ((Z.ldiff format formatGZip =? FormatTar) = true
   <-> format = FormatTar ∨ format = FormatTarGZip)
  ∧ (format ≠ FormatTar -> format ≠ FormatTarGZip ->
     (∀ t o now,
        Write encode t o now format
        = (t, inr (errorString "Unsupported format")))
     ∧ (∀ d, Read encode (Some d) format
             = inr (errorString "Unsupported format"))).
Proof.
  split; [apply format_supported|].
  intros H1 H2. split.
  - intros t o now. now apply Write_unsupported.
  - intros d. now apply Read_unsupported.
Qed.

Lemma X14_unsupported_format_witness :
  Write X_example.enc X_example.pkg X_example.o 0 formatGZip
  = (X_example.pkg, inr (errorString "Unsupported format"))
  ∧ Read X_example.enc (Some (Raw "")) FormatUnknown
    = inr (errorString "Unsupported format").
Proof.
  split.
  - apply (proj2 (X14_unsupported_format X_example.enc formatGZip));
      discriminate.
  - apply (proj2 (X14_unsupported_format X_example.enc FormatUnknown));
      discriminate.
Defined.

(** X15.  [ReadDetectFormat] gives what [Read] gives with the format of
    the stream, [FormatTarGZip] for a gzip stream and [FormatTar] for
    everything else; so it reads whatever [Write] has written, in either
    format, as [Read] does with the format of the write. *)
Theorem X15_ReadDetectFormat (encode : Data -> string) (d : Data) :
  ReadDetectFormat encode (Some d)
  = match gzip.decode d with
    | Some _ => Read encode (Some d) FormatTarGZip
    | None => Read encode (Some d) FormatTar
    end
  ∧ ∀ t o now format t',
      Write encode t o now format = (t', inl d) ->
      ReadDetectFormat encode (Some d) = Read encode (Some d) format.
Proof.
  split; [apply ReadDetectFormat_Read|].
  intros t o now format t'. rewrite ReadDetectFormat_Read. unfold Write.
  destruct (Z.ldiff format formatGZip =? FormatTar) eqn:E; [|discriminate].
  apply format_supported in E. cbn [negb].
  destruct (writeTar encode t o [] _ now) as [[t1 w] e]; destruct e;
    [discriminate|].
  destruct E as [-> | ->]; now intros [= _ <-].
Qed.

Lemma X15_ReadDetectFormat_witness :
  ∃ d, (Write X_example.enc X_example.pkg X_example.o 0 FormatTarGZip).2
       = inl d
       ∧ ReadDetectFormat X_example.enc (Some d)
         = Read X_example.enc (Some d) FormatTarGZip.
Proof.
  destruct (Write X_example.enc X_example.pkg X_example.o 0 FormatTarGZip)
    as [t1 [d|e]] eqn:E; [|vm_compute in E; discriminate].
  exists d. split; [reflexivity|].
  apply (proj2 (X15_ReadDetectFormat X_example.enc d) X_example.pkg
           X_example.o 0 FormatTarGZip t1 E).
Defined.

(** X16.  Whatever its outcome, [Write] leaves the fields and the
    scripts of the package as they were, the configuration files the
    same up to their order, and the file tree with the same paths; a
    file is left as it was or with the name in its header put in the
    form that begins with [./], its content and the rest of its header
    unchanged. *)
Theorem X16_Write_frame (encode : Data -> string) (t : T) (o : Orders)
    (now format : Z) (t' : T) (r : Data + error) :
  Write encode t o now format = (t', r) ->
  fields t' = fields t ∧ scripts t' = scripts t
  ∧ conffiles t' ≡ₚ conffiles t
  ∧ ∀ k, files t' !! k = files t !! k
         ∨ files t' !! k = written <$> files t !! k.
Proof. apply Write_frame. Qed.

Lemma X16_Write_frame_witness :
  fields (Write X_example.enc X_example.pkg X_example.o 0 FormatTar).1
  = fields X_example.pkg
  ∧ scripts (Write X_example.enc X_example.pkg X_example.o 0 FormatTar).1
    = scripts X_example.pkg
  ∧ conffiles (Write X_example.enc X_example.pkg X_example.o 0 FormatTar).1
    ≡ₚ conffiles X_example.pkg
  ∧ ∀ k, files (Write X_example.enc X_example.pkg X_example.o 0 FormatTar).1
           !! k = files X_example.pkg !! k
         ∨ files (Write X_example.enc X_example.pkg X_example.o 0
                        FormatTar).1 !! k
           = written <$> files X_example.pkg !! k.
Proof.
  apply (X16_Write_frame X_example.enc X_example.pkg X_example.o 0 FormatTar
           _ (Write X_example.enc X_example.pkg X_example.o 0 FormatTar).2).
  now destruct (Write X_example.enc X_example.pkg X_example.o 0 FormatTar).
Defined.

(** X17.  A control sub-archive without a regular entry whose cleaned
    name is [control] is refused, and so is one with two regular entries
    whose cleaned name is [control], or two whose cleaned name is
    [conffiles]. *)
Theorem X17_readControlArchive_entries (encode : Data -> string) (t : T)
    (level : Z) (es : list (tar.Header * Data)) (tl : tar.Tail) :
  ((∀ e, e ∈ es -> ¬ isControlEntry controlName e) ->
   ∃ t' err,
     readControlArchive encode t (Gz level (Tar es tl)) = (t', Some err))
  ∧ (∀ name es1 e1 es2 e2 es3,
       name = controlName ∨ name = confName ->
       es = es1 ++ e1 :: es2 ++ e2 :: es3 ->
       isControlEntry name e1 -> isControlEntry name e2 ->
       ∃ t' err,
         readControlArchive encode t (Gz level (Tar es tl))
         = (t', Some err)).
Proof.
  unfold readControlArchive. cbn [gzip.decode tarEntries]. split.
  - intros Hno. now apply readControlEntries_no_control.
  - intros name es1 e1 es2 e2 es3 Hname -> H1 H2.
    apply (readControlEntries_repeat encode name); try assumption.
    exists e2. split; [|exact H2]. apply elem_of_app. right. left.
Qed.

Lemma X17_readControlArchive_entries_witness :
  (∃ t' err,
     readControlArchive X_example.enc New
       (Gz 9 (Tar [(directoryHeader "./" 0, Raw "")] tar.EOF))
     = (t', Some err))
  ∧ (∃ t' err,
       readControlArchive X_example.enc New
         (Gz 9 (Tar X_example.twice tar.EOF)) = (t', Some err)).
Proof.
  split.
  - apply (proj1 (X17_readControlArchive_entries X_example.enc New 9
                    [(directoryHeader "./" 0, Raw "")] tar.EOF)).
    intros e He [Hreg _]. apply list_elem_of_singleton in He. subst e.
    discriminate Hreg.
  - apply (proj2 (X17_readControlArchive_entries X_example.enc New 9
                    X_example.twice tar.EOF)
             controlName [] (fileHeader "./control" 0 0, Raw "") []
             (fileHeader "control" 0 0, Raw "") []).
    + now left.
    + reflexivity.
    + split; reflexivity.
    + split; reflexivity.
Defined.

(** X18.  Every name that a write puts into an archive begins with
    [./]: the names of the three entries of the outer archive, and the
    names of all entries of the control and data sub-archives, whatever
    the names in the headers of the package are. *)
Theorem X18_written_names (encode : Data -> string) (t : T) (o : Orders)
    (now format : Z) (t' : T) (d : Data) :
  Write encode t o now format = (t', inl d) ->
  ∃ w, (d = Tar w tar.EOF ∨ d = Gz gzip.BestCompression (Tar w tar.EOF))
       ∧ dotSlashed w
       ∧ ∀ hdr level inner tl,
           (hdr, Gz level (Tar inner tl)) ∈ w -> dotSlashed inner.
Proof.
  unfold Write. destruct (negb (Z.ldiff _ _ =? _)); [discriminate|].
  destruct (writeTar encode t o [] _ now) as [[t1 w] e] eqn:E.
  destruct e; [discriminate|]. intros [= _ <-]. exists w.
  split; [destruct (negb _); auto|].
  now apply (writeTar_dotSlashed encode _ _ _ _ _ _ _ E).
Qed.

Lemma X18_written_names_witness :
  ∃ w, ((Write X_example.enc X_example.pkg X_example.o 0 FormatTar).2
        = inl (Tar w tar.EOF))
       ∧ dotSlashed w
       ∧ ∀ hdr level inner tl,
           (hdr, Gz level (Tar inner tl)) ∈ w -> dotSlashed inner.
Proof.
  destruct (Write X_example.enc X_example.pkg X_example.o 0 FormatTar)
    as [t' [d|e]] eqn:E; [|vm_compute in E; discriminate].
  destruct (X18_written_names X_example.enc X_example.pkg X_example.o 0
              FormatTar t' d E) as (w & [-> | ->] & H1 & H2).
  - exists w. auto.
  - vm_compute in E. discriminate.
Defined.

(** X19.  A package that [Read] or [ReadDetectFormat] returns is
    validated: its field names match the pattern and its values are
    trimmed single lines, its configuration files are cleaned absolute
    paths other than the root, in ascending order, its scripts have
    allowed names and the size of their content in the header, and every
    path of its file tree lies below the root, with content exactly for
    the regular files. *)
Theorem X19_Read_validated (encode : Data -> string) (r : option Data)
    (format : Z) (q : T) :
  Read encode r format = inl q ∨ ReadDetectFormat encode r = inl q ->
  validated encode q.
Proof.
  intros [H|H]; [now apply Read_validated in H|].
  now apply ReadDetectFormat_validated in H.
Qed.

Lemma X19_Read_validated_witness : validated X_example.enc X_example.smallPkg.
Proof.
  apply (X19_Read_validated X_example.enc (Some X_example.small) FormatTar
           X_example.smallPkg).
  left. vm_compute. reflexivity.
Defined.

(** X20.  [ConjunctiveDependency] joins the constituents that are not
    empty with a comma and a space: empty constituents leave no
    separator behind, wherever they stand. *)
Theorem X20_ConjunctiveDependency_join (deps : list string) :
  ConjunctiveDependency deps
  = String.concat ", " (filter (fun d => d ≠ "") deps).
Proof. apply ConjunctiveDependency_concat. Qed.

(** X21.  Conjunctions nest: the conjunction of two conjunctions is the
    conjunction of all their constituents, also when one of them or both
    are empty. *)
Theorem X21_ConjunctiveDependency_nested (a b : list string) :
  ConjunctiveDependency [ConjunctiveDependency a; ConjunctiveDependency b]
  = ConjunctiveDependency (a ++ b).
Proof. apply ConjunctiveDependency_nested. Qed.

(** X22.  [DisjunctiveDependency] joins all its constituents with a
    bar between spaces; unlike the conjunction it keeps the empty
    ones. *)
Theorem X22_DisjunctiveDependency_join (deps : list string) :
  DisjunctiveDependency deps = String.concat " | " deps.
Proof. apply DisjunctiveDependency_concat. Qed.

(** X23.  [VersionedDependency] fails exactly when the package name is
    not allowed, or when there is a version and the relation is neither
    empty nor one of the five relations.  Without a version the result
    is the name, whatever the relation is; with a version, an empty
    relation stands for [=]. *)
Theorem X23_VersionedDependency
    (allowedPackageNames : string -> bool) (name relation version : string) :
  (is_err (VersionedDependency allowedPackageNames name relation version)
   <-> allowedPackageNames name = false
       ∨ (version ≠ ""
          ∧ relation ∉ [""; RelStrictlyEarlier; RelEarlierEqual; RelExact;
                        RelLaterEqual; RelStrictlyLater]))
  ∧ (allowedPackageNames name = true ->
     VersionedDependency allowedPackageNames name relation "" = inl name)
  ∧ VersionedDependency allowedPackageNames name "" version
    = VersionedDependency allowedPackageNames name RelExact version
  ∧ (allowedPackageNames name = true -> version ≠ "" ->
     relation ∈ [RelStrictlyEarlier; RelEarlierEqual; RelExact;
                 RelLaterEqual; RelStrictlyLater] ->
     VersionedDependency allowedPackageNames name relation version
     = inl (name +:+ " (" +:+ relation +:+ " " +:+ version +:+ ")")).
Proof.
  unfold VersionedDependency.
  destruct (allowedPackageNames name) eqn:Hn; cbn [negb].
  2:{ repeat split; try discriminate; auto. }
  split; [|split; [|split]].
  - destruct (String.eqb_spec version "") as [->|Hv].
    { split; [intros []|]. intros [H|[H _]]; [discriminate|congruence]. }
    destruct (String.eqb_spec relation "") as [->|Hr].
    { split; [intros []|]. intros [H|[_ H]]; [discriminate|].
      exfalso. apply H. left. }
    unfold checkRelation.
    destruct (String.eqb_spec relation RelStrictlyEarlier) as [->|H1].
    { split; [intros []|]. intros [H|[_ H]]; [discriminate|].
      exfalso. apply H. right; left. }
    destruct (String.eqb_spec relation RelEarlierEqual) as [->|H2].
    { split; [intros []|]. intros [H|[_ H]]; [discriminate|].
      exfalso. apply H. do 2 right; left. }
    destruct (String.eqb_spec relation RelExact) as [->|H3].
    { split; [intros []|]. intros [H|[_ H]]; [discriminate|].
      exfalso. apply H. do 3 right; left. }
    destruct (String.eqb_spec relation RelLaterEqual) as [->|H4].
    { split; [intros []|]. intros [H|[_ H]]; [discriminate|].
      exfalso. apply H. do 4 right; left. }
    destruct (String.eqb_spec relation RelStrictlyLater) as [->|H5].
    { split; [intros []|]. intros [H|[_ H]]; [discriminate|].
      exfalso. apply H. do 5 right; left. }
    cbn. split; [|intros _; exact I]. intros _. right. split; [exact Hv|].
    intros H. repeat (apply elem_of_cons in H as [H|H]; [congruence|]).
    now apply elem_of_nil in H.
  - reflexivity.
  - destruct (String.eqb version ""); reflexivity.
  - intros _ Hv H. destruct (String.eqb_spec version ""); [contradiction|].
    repeat (apply elem_of_cons in H as [->|H]; [reflexivity|]).
    now apply elem_of_nil in H.
Qed.

Lemma X23_VersionedDependency_witness :
  VersionedDependency (fun name => (1 <? String.length name)%nat)
                      "foo" ">=" "1.2.3"
  = inl "foo (>= 1.2.3)"
  ∧ VersionedDependency (fun name => (1 <? String.length name)%nat)
                        "foo" "invalid" "" = inl "foo".
Proof.
  split.
  - apply (proj2 (proj2 (proj2 (X23_VersionedDependency
                                  (fun name => (1 <? String.length name)%nat)
                                  "foo" ">=" "1.2.3")))).
    + reflexivity.
    + discriminate.
    + do 3 right. left.
  - apply (proj1 (proj2 (X23_VersionedDependency
                           (fun name => (1 <? String.length name)%nat)
                           "foo" "invalid" ""))).
    reflexivity.
Defined.

(** X24.  A second write of a package that has been written gives the
    same archive and leaves the package as the first write left it: the
    changes that [Write] makes to the package, the order of its
    configuration files and the names in the headers of its files, do not
    show in what it writes. *)
Theorem X24_Write_twice (encode : Data -> string) (t : T) (o : Orders)
    (now format : Z) (t1 : T) (d : Data) :
  Write encode t o now format = (t1, inl d) ->
  Write encode t1 o now format = (t1, inl d).
Proof. apply Write_again. Qed.

Lemma X24_Write_twice_witness :
  Write X_example.enc
        (Write X_example.enc X_example.pkg X_example.o 0 FormatTarGZip).1
        X_example.o 0 FormatTarGZip
  = Write X_example.enc X_example.pkg X_example.o 0 FormatTarGZip.
Proof.
  destruct (Write X_example.enc X_example.pkg X_example.o 0 FormatTarGZip)
    as [t1 [d|e]] eqn:E; [|vm_compute in E; discriminate].
  apply (X24_Write_twice X_example.enc X_example.pkg X_example.o 0
           FormatTarGZip t1 d E).
Defined.
